(** * FAST-LTS for array processing: a shallow embedding of
      [lts_array/fast_lts_array.py] and its properties.

    The Python function [fast_lts_array(X, y, alpha)] is one long numerical
    routine written against three imports:

      - [numpy] (arrays, [np.inf], [np.nan], [np.isfinite], [np.sqrt],
        [np.arctan2], [np.linalg.qr], [np.linalg.matrix_rank], ...),
      - [scipy.linalg.lstsq],
      - [lts_array.flts_helper_array] (imported as [fltsh]), whose source is
        not among the files at hand.

    The embedding follows that structure.  Scalars are an interface
    ([Scalar]) with two instances: IEEE binary64 numbers (Rocq's primitive
    floats, what [numpy.float64] is) and exact rationals (used where a
    property is one of real arithmetic).  The library routines that the code
    calls but does not define are interfaces as well ([Special], [Libm],
    [Lapack], [Fltsh]); whatever numpy computes with plain arithmetic
    (sorting, sums, medians, matrix-vector products) is written out.

    Effects are the ones the code has: exceptions, printed diagnostics, and
    a potentially unbounded [while] loop (modelled with fuel).  A log of
    events records prints, subset draws and least-squares fits. *)

From Stdlib Require Import String Bool PeanoNat.
From Stdlib Require Import List ZArith QArith Qabs Qround Lia Lqa.
From Stdlib Require Import Permutation Sorted.
From Stdlib Require Import Floats Uint63.
Import ListNotations.
Close Scope Q_scope.

Set Implicit Arguments.

(* ================================================================== *)
(** * Scalars *)

(** The arithmetic the code performs on array elements. [of_Z] is the
    conversion of a Python integer to a number. *)
Class Scalar (F : Type) := {
  of_Z : Z -> F;
  fadd : F -> F -> F;
  fsub : F -> F -> F;
  fmul : F -> F -> F;
  fdiv : F -> F -> F;
  fabs : F -> F;
  fltb : F -> F -> bool;
  fleb : F -> F -> bool;
  feqb : F -> F -> bool
}.

Declare Scope scalar_scope.
Delimit Scope scalar_scope with S.
Infix "+~" := fadd (at level 50, left associativity) : scalar_scope.
Infix "-~" := fsub (at level 50, left associativity) : scalar_scope.
Infix "*~" := fmul (at level 40, left associativity) : scalar_scope.
Infix "/~" := fdiv (at level 40, left associativity) : scalar_scope.
Infix "<?~" := fltb (at level 70, no associativity) : scalar_scope.
Infix "<=?~" := fleb (at level 70, no associativity) : scalar_scope.
Infix "==~" := feqb (at level 70, no associativity) : scalar_scope.
Local Open Scope scalar_scope.

Section ScalarOps.
Context {F : Type} `{Scalar F}.

Definition fzero : F := of_Z 0.
Definition fone : F := of_Z 1.
Definition of_nat (n : nat) : F := of_Z (Z.of_nat n).

(** A decimal literal [m * 10^-k], as in [1e-7] or [1.4826]. *)
Definition lit (m : Z) (k : nat) : F := of_Z m /~ of_Z (10 ^ Z.of_nat k).

Definition sqr (x : F) : F := x *~ x.

(** [x != x] holds of NaN only. *)
Definition isnan (x : F) : bool := negb (x ==~ x).

(** numpy's ordering for sorting: NaN sorts last. *)
Definition np_lt (a b : F) : bool := (a <?~ b) || (isnan b && negb (isnan a)).

(** 0/1 integer made of a boolean ([weights*1]). *)
Definition of_bool (b : bool) : F := if b then fone else fzero.
End ScalarOps.

(** ** IEEE binary64 *)

Definition float_of_Z (z : Z) : float :=
  match z with
  | Z0 => PrimFloat.of_uint63 0%uint63
  | Zpos _ => PrimFloat.of_uint63 (Uint63.of_Z z)
  | Zneg p => PrimFloat.opp (PrimFloat.of_uint63 (Uint63.of_Z (Zpos p)))
  end.

#[export] Instance float_scalar : Scalar float := {|
  of_Z := float_of_Z;
  fadd := PrimFloat.add;
  fsub := PrimFloat.sub;
  fmul := PrimFloat.mul;
  fdiv := PrimFloat.div;
  fabs := PrimFloat.abs;
  fltb := PrimFloat.ltb;
  fleb := PrimFloat.leb;
  feqb := PrimFloat.eqb
|}.

(** ** Exact rationals *)

#[export] Instance Q_scalar : Scalar Q := {|
  of_Z := inject_Z;
  fadd := Qplus;
  fsub := Qminus;
  fmul := Qmult;
  fdiv := Qdiv;
  fabs := Qabs;
  fltb := fun a b => negb (Qle_bool b a);
  fleb := Qle_bool;
  feqb := Qeq_bool
|}.

(** ** The rest of numpy's scalar vocabulary *)

(** [np.inf], [np.nan], [np.isfinite]. *)
Class Special (F : Type) := {
  inf : F;
  nan : F;
  isfinite : F -> bool
}.

#[export] Instance float_special : Special float := {|
  inf := PrimFloat.infinity;
  nan := PrimFloat.nan;
  isfinite := fun x => negb (PrimFloat.is_nan x || PrimFloat.is_infinity x)
|}.

(** The C math library behind [np.sqrt], [np.arctan2], [np.pi] and the
    floating [%] ([fmod] is C's truncated remainder). *)
Class Libm (F : Type) := {
  sqrt : F -> F;
  arctan2 : F -> F -> F;
  pi : F;
  fmod : F -> F -> F
}.

(** On binary64 the square root is the IEEE operation; the other three
    are whatever the C library provides. *)
Definition ieee_libm (atan2 : float -> float -> float) (pi_ : float)
    (fmod_ : float -> float -> float) : Libm float := {|
  sqrt := PrimFloat.sqrt;
  arctan2 := atan2;
  pi := pi_;
  fmod := fmod_
|}.

(** On the rationals [fmod] is exact: [x - m * trunc (x / m)].  (Division
    by zero gives zero on [Q], so [Qfmod x 0] is [x]; C gives NaN.) *)
Definition Qtrunc (q : Q) : Z := Z.quot (Qnum q) (Zpos (Qden q)).

Definition Qfmod (x m : Q) : Q := (x - m * inject_Z (Qtrunc (x / m)))%Q.

Definition exact_libm (sqrt_ : Q -> Q) (atan2 : Q -> Q -> Q) (pi_ : Q) : Libm Q := {|
  sqrt := sqrt_;
  arctan2 := atan2;
  pi := pi_;
  fmod := Qfmod
|}.

(* ================================================================== *)
(** * Arrays

    A 2-D array is a list of rows; a column vector (shape [(n, 1)]) is kept
    as the list of its entries.  The two inputs carry their shape, since the
    code starts by reading it. *)

Definition vec (F : Type) := list F.
Definition mat (F : Type) := list (list F).

Record ndarray (F : Type) := mk_ndarray {
  shape0 : nat;
  shape1 : nat;
  rows : mat F
}.

Section Arrays.
Context {F : Type} `{Scalar F}.

(** [np.sum] over a 1-D array, added up from the left (numpy adds long
    arrays pairwise, which matters to the last bit only). *)
Definition np_sum (l : vec F) : F := fold_left fadd l fzero.

Fixpoint zip_with (f : F -> F -> F) (a b : vec F) : vec F :=
  match a, b with
  | x :: a', y :: b' => f x y :: zip_with f a' b'
  | _, _ => []
  end.

Definition dot (a b : vec F) : F := np_sum (zip_with fmul a b).

(** [A @ z] for a column [z]. *)
Definition matvec (A : mat F) (z : vec F) : vec F := map (fun r => dot r z) A.

(** [A[:, j]]. *)
Definition column (j : nat) (A : mat F) : vec F := map (fun r => nth j r fzero) A.

(** [A.T], for a matrix of [c] columns. *)
Definition transpose (c : nat) (A : mat F) : mat F :=
  map (fun j => column j A) (seq 0 c).

Definition vsub (a b : vec F) : vec F := zip_with fsub a b.

(** ** Sorting

    [np.sort] and [np.argsort] are called with [kind='mergesort'], a
    stable sort; a stable sort has one possible result, which insertion
    from the right computes as well. *)
Section Insertion.
Variable A : Type.
Variable key : A -> F.

Fixpoint insert_by (x : A) (l : list A) : list A :=
  match l with
  | [] => [x]
  | e :: l' => if np_lt (key e) (key x) then e :: insert_by x l' else x :: e :: l'
  end.

Definition sort_by (l : list A) : list A := fold_right insert_by [] l.
End Insertion.

Definition np_sort (l : vec F) : vec F := sort_by (fun x => x) l.

Definition enumerate (l : vec F) : list (nat * F) := combine (seq 0 (length l)) l.

Definition np_argsort (l : vec F) : list nat :=
  map fst (sort_by (@snd nat F) (enumerate l)).

(** [np.max] of a 1-D array: NaN propagates. *)
Definition fmax (a b : F) : F :=
  if isnan a then a else if isnan b then b else if a <?~ b then b else a.

Definition np_max (l : vec F) : F :=
  match l with
  | [] => fzero
  | x :: l' => fold_left fmax l' x
  end.

(** [np.median] of a 1-D array: the middle of the sorted values, or the
    mean of the two middle ones; NaN if the array holds one (it is then the
    last of the sorted values). *)
Definition np_median (l : vec F) : F :=
  let s := np_sort l in
  let n := length s in
  let top := last s fzero in
  if isnan top then top
  else if Nat.even n
       then (nth (n / 2 - 1) s fzero +~ nth (n / 2) s fzero) /~ of_Z 2
       else nth (n / 2) s fzero.

(** Sorting of integer indices ([np.sort(sortind[0:adjh])]). *)
Fixpoint insert_nat (x : nat) (l : list nat) : list nat :=
  match l with
  | [] => [x]
  | e :: l' => if e <? x then e :: insert_nat x l' else x :: e :: l'
  end.

Definition sort_nat (l : list nat) : list nat := fold_right insert_nat [] l.

(** Rows selected by a boolean mask ([xvar[weights, :]]). *)
Fixpoint mask {A : Type} (w : list bool) (l : list A) : list A :=
  match w, l with
  | b :: w', x :: l' => if b then x :: mask w' l' else mask w' l'
  | _, _ => []
  end.

Definition count_true (w : list bool) : nat := length (filter (fun b => b) w).
End Arrays.

(* ================================================================== *)
(** * Effects *)

(** The exceptions the call can end with.  [fast_lts_array] itself raises
    [IndexError] and [ValueError] (lines 74-79); indexing past the end of an
    array and [range] over a float raise as Python does; the linear-algebra
    routines may raise whatever they raise ([LinAlgError], the [ValueError]
    of scipy's finiteness check). *)
Inductive exn : Type :=
| IndexError (msg : string)
| ValueError (msg : string)
| TypeError (msg : string)
| LinAlgError (msg : string).

(** Where a least-squares fit is performed. *)
Inductive site : Type :=
| Elemental   (* line 162-164: the exact fit of a drawn subset *)
| CStep       (* line 176-178: refit on the trimmed subset *)
| Reweighted  (* line 249-251: the final weighted refit *)
| Ordinary.   (* the fit of [least_squares_fit], alpha = 1 *)

(** What a run leaves behind, in order. *)
Inductive event : Type :=
| Printed (msg : string)
| Drew (index : list Z)
| Fitted (s : site).

(** How a computation ends; [OutOfFuel] stands for a [while] loop that has
    not finished within the fuel it was given. *)
Inductive res (A : Type) : Type :=
| Ret (a : A)
| Raise (e : exn)
| OutOfFuel.
Arguments Ret {A} a.
Arguments Raise {A} e.
Arguments OutOfFuel {A}.

Definition M (A : Type) : Type := (res A * list event)%type.

Definition ret {A : Type} (a : A) : M A := (Ret a, []).
Definition raise {A : Type} (e : exn) : M A := (Raise e, []).
Definition out_of_fuel {A : Type} : M A := (OutOfFuel, []).
Definition emit (e : event) : M unit := (Ret tt, [e]).
Definition print (msg : string) : M unit := emit (Printed msg).

Definition bind {A B : Type} (m : M A) (k : A -> M B) : M B :=
  match m with
  | (Ret a, l) => let (r, l') := k a in (r, l ++ l')
  | (Raise e, l) => (Raise e, l)
  | (OutOfFuel, l) => (OutOfFuel, l)
  end.

Notation "x <- m ;; k" := (bind m (fun x => k))
  (at level 61, m at next level, right associativity).
Notation "' pat <- m ;; k" := (bind m (fun x => match x with pat => k end))
  (at level 61, pat pattern, m at next level, right associativity).
Notation "m ;;; k" := (bind m (fun _ => k))
  (at level 61, right associativity).

(** Observers of a run: did it return, what did it draw, fit and print? *)
Definition returned {A : Type} (m : M A) : bool :=
  match fst m with Ret _ => true | _ => false end.

Definition is_fit (e : event) : bool :=
  match e with Fitted _ => true | _ => false end.

Definition is_draw (e : event) : bool :=
  match e with Drew _ => true | _ => false end.

Definition prints {A : Type} (m : M A) : list string :=
  flat_map (fun e => match e with Printed s => [s] | _ => [] end) (snd m).

(** A library call that returns or raises. *)
Definition lift {A : Type} (r : exn + A) : M A :=
  match r with
  | inl e => raise e
  | inr a => ret a
  end.

(** ** Indexing as Python does it *)

Section Indexing.
Context {A : Type}.

(** [a[i]] for an integer [i]: negative indices count from the end, an
    index out of range raises. *)
Definition item (a : list A) (i : Z) : M A :=
  let n := Z.of_nat (List.length a) in
  let j := if (i <? 0)%Z then (i + n)%Z else i in
  if ((0 <=? j) && (j <? n))%Z%bool
  then match nth_error a (Z.to_nat j) with
       | Some x => ret x
       | None => raise (IndexError "index out of bounds")
       end
  else raise (IndexError "index out of bounds").

(** [a[index]] for an integer array [index]. *)
Fixpoint take (a : list A) (index : list Z) : M (list A) :=
  match index with
  | [] => ret []
  | i :: index' =>
      x <- item a i ;;
      xs <- take a index' ;;
      ret (x :: xs)
  end.

(** [f] applied to entry [i] of [l]. *)
Fixpoint map_at (i : nat) (f : A -> A) (l : list A) : list A :=
  match l, i with
  | [], _ => []
  | x :: l', O => f x :: l'
  | x :: l', S i' => x :: map_at i' f l'
  end.
End Indexing.

(* ================================================================== *)
(** * The libraries the code calls *)

(** [np.linalg.qr], [scipy.linalg.lstsq] (its first result) and
    [np.linalg.matrix_rank].  The right-hand side of [lstsq] is a column. *)
Class Lapack (F : Type) := {
  qr : mat F -> exn + (mat F * mat F);
  lstsq : mat F -> vec F -> exn + vec F;
  matrix_rank : mat F -> nat
}.

(** The functions of [lts_array.flts_helper_array] that the general path
    calls.  Their source is not at hand: they are taken as they are called,
    pure functions of their arguments.  [randomset n p seed] returns [p]
    indices counted from 1 and the next seed; [insertion] returns the
    updated pair of pooled coefficients and objectives. *)
Class Fltsh (F : Type) := {
  hcalc : F -> nat -> nat -> nat;
  randomset : nat -> nat -> Z -> list Z * Z;
  insertion : mat F -> vec F -> vec F -> F -> mat F * vec F;
  rawcorfactorlts : nat -> Z -> nat -> F -> F;
  rawconsfactorlts : nat -> nat -> F;
  rewcorfactorlts : nat -> Z -> nat -> F -> F;
  rewconsfactorlts : list bool -> nat -> nat -> F;
  qnorm : F -> F
}.

(** Modelled from the spec: [fltsh.least_squares_fit] is not among the
    sources; the spec (4.2) says its scale is "derived from the OLS
    residuals" and gives no formula, so the derivation (from [n], [p] and the
    residuals) is left open. *)
Class OlsScale (F : Type) := {
  ols_scale : nat -> nat -> vec F -> F
}.

(* ================================================================== *)
(** * The result dictionary [Res] *)

Record Result (F : Type) := mk_Result {
  bazimuth : F;
  velocity : F;
  coefficients : vec F;
  flagged : list bool;        (* 0/1 integers in the code *)
  fitted : vec F;
  residuals : vec F;
  scale : F;
  rsquared : F;
  sigma_tau : F;
  res_X : ndarray F;
  res_y : ndarray F
}.

(* ================================================================== *)
(** * [fast_lts_array] *)

Section FastLts.
Context {F : Type}.
Context {SF : Scalar F} {SP : Special F} {LM : Libm F}.
Context {LA : Lapack F} {FH : Fltsh F} {OS : OlsScale F}.

(** Lines 59-65. *)
Definition csteps1 : nat := 4.
Definition csteps2 : nat := 100.
Definition seed0 : Z := 0.
Definition intercept : Z := 0.
Definition ntrial : nat := 500.
(** Line 116: [part] is set once and never changed. *)
Definition part : nat := 0.

(** ** Validation (lines 70-79) *)
Definition validate (X y : ndarray F) : M (nat * nat) :=
  let n := shape0 X in
  let p := shape1 X in
  let dimy1 := shape0 y in
  let dimy2 := shape1 y in
  if negb (n =? dimy1) then
    raise (IndexError "Arrays are incompatible! X[0] != y[0]!")
  else if negb (dimy2 =? 1) then
    raise (IndexError "y is not a column vector!")
  else if n <=? 2 * p then
    raise (ValueError "Bad assumption, n ! > 2p")
  else ret (n, p).

(** ** Rank check (lines 83-86) *)
Definition singular_message : string := "X is singular!!".

Definition check_rank (Xvar : mat F) (p : nat) : M unit :=
  if matrix_rank Xvar <? p then print singular_message else ret tt.

(** Lines 91-96. *)
Definition eps_of (p : nat) : F :=
  if p <? 5 then lit 1 12
  else if p <=? 18 then lit 1 14
  else lit 1 16.

(** ** Standardization (lines 98-112) *)

(** Column [ii] of [np.concatenate((Xvar, yvar), axis=1)]. *)
Definition data_column (Xvar : mat F) (yvar : vec F) (p ii : nat) : vec F :=
  if ii <? p then column ii Xvar else yvar.

(** Line 103: 1.4826 times the median absolute value of a column. *)
Definition robust_scale (col : vec F) : F :=
  lit 14826 4 *~ np_median (map fabs col).

(** Lines 106-107: 1.2533 times the mean absolute value. *)
Definition fallback_scale (n : nat) (col : vec F) : F :=
  let d := np_sum (map fabs col) in
  lit 12533 4 *~ (d /~ of_nat n).

Definition error_message : string := "ERROR: The MAD of some variable is zero!".

(** Both tests of lines 105 and 108 hold. *)
Definition doubly_degenerate (eps : F) (n : nat) (col : vec F) : bool :=
  (fabs (robust_scale col) <=?~ eps) && (fabs (fallback_scale n col) <=?~ eps).

(** One entry of [datamad], lines 103-109. *)
Definition datamad_entry (eps : F) (n : nat) (col : vec F) : M F :=
  let d := robust_scale col in
  if fabs d <=?~ eps then
    let d := fallback_scale n col in
    if fabs d <=?~ eps then
      print error_message ;;; ret d
    else ret d
  else ret d.

Fixpoint datamad_loop (eps : F) (n : nat) (cols : list (vec F)) : M (vec F) :=
  match cols with
  | [] => ret []
  | col :: cols' =>
      d <- datamad_entry eps n col ;;
      ds <- datamad_loop eps n cols' ;;
      ret (d :: ds)
  end.

Definition compute_datamad (Xvar : mat F) (yvar : vec F) (n p : nat) : M (vec F) :=
  datamad_loop (eps_of p) n
    (map (data_column Xvar yvar p) (seq 0 (p + 1))).

(** Lines 110-112: every column divided by its scale. *)
Definition standardize_X (p : nat) (datamad : vec F) (Xvar : mat F) : mat F :=
  map (fun r => zip_with fdiv r (firstn p datamad)) Xvar.

Definition standardize_y (p : nat) (datamad : vec F) (yvar : vec F) : vec F :=
  map (fun v => v /~ nth p datamad fzero) yvar.

(** ** Least squares through QR, as at lines 162-164, 176-178, 249-251:
    [q, r = qr(A); qt = q.conj().T @ b; z = lstsq(r, qt)[0]]. *)
Definition ncols (A : mat F) : nat := List.length (hd [] A).

Definition qr_lstsq (A : mat F) (b : vec F) : exn + vec F :=
  match qr A with
  | inl e => inl e
  | inr (q, r) => lstsq r (matvec (transpose (ncols q) q) b)
  end.

Definition solve (s : site) (A : mat F) (b : vec F) : M (vec F) :=
  emit (Fitted s) ;;; lift (qr_lstsq A b).

(** [z[0]] (and [z[0, 0]]) of a column. *)
Definition first_entry (z : vec F) : M F := item z 0%Z.

Section Search.
Variables (Xvar : mat F) (yvar : vec F) (n p h : nat).

(** ** C-steps (lines 167-185)

    [cs_history] is not in the code: it lists the objective values in
    the order the loop computes them. *)
Record cstep_result := mk_cstep {
  cs_z : vec F;
  cs_obj : F;
  cs_history : list F
}.

Definition trimmed_objective (adjh : nat) (residu : vec F) : F :=
  let sor := np_sort (map fabs residu) in
  np_sum (map sqr (firstn adjh sor)).

(** One pass of the body of the [for jj] loop, up to the new [obj]. *)
Definition cstep (adjh : nat) (residu : vec F) : M (vec F * vec F * F) :=
  let sortind := np_argsort (map fabs residu) in
  let obs_in_set := map Z.of_nat (sort_nat (firstn adjh sortind)) in
  Xh <- take Xvar obs_in_set ;;
  yh <- take yvar obs_in_set ;;
  z <- solve CStep Xh yh ;;
  let residu' := vsub yvar (matvec Xvar z) in
  ret (z, residu', trimmed_objective adjh residu').

(** The loop [for jj in range(0, csteps)], [k] passes left. *)
Fixpoint csteps_from (k jj adjh : nat) (residu : vec F) (prevobj : F)
    (cur : cstep_result) : M cstep_result :=
  match k with
  | O => ret cur
  | S k' =>
      '(z, residu', obj) <- cstep adjh residu ;;
      let cur' := mk_cstep z obj (cs_history cur ++ [obj]) in
      if (1 <=? jj) && (obj ==~ prevobj) then ret cur'
      else csteps_from k' (S jj) adjh residu' obj cur'
  end.

(** Lines 166-185 for a starting estimate [z].  [csteps] is [None] when
    the code has made it a float (line 142), on which [range] raises.
    With no pass at all the code leaves [obj] unset; the counts the code
    uses are at least 1. *)
Definition csteps_run (csteps : option nat) (adjh : nat) (z : vec F) : M cstep_result :=
  let residu := vsub yvar (matvec Xvar z) in
  match csteps with
  | None => raise (TypeError "'numpy.float64' object cannot be interpreted as an integer")
  | Some k => csteps_from k 0 adjh residu fzero (mk_cstep z fzero [])
  end.

(** ** Elemental subsets (lines 158-164) *)

(** Lines 160-164: one draw and its exact fit. *)
Definition draw_once (seed : Z) : M (vec F * Z) :=
  let '(index, seed') := randomset n p seed in
  let index := map (fun i => (i - 1)%Z) index in
  emit (Drew index) ;;;
  Xs <- take Xvar index ;;
  ys <- take yvar index ;;
  z <- solve Elemental Xs ys ;;
  ret (z, seed').

(** The loop [while z[0, 0] == np.inf] has no counter: it is given [fuel]
    draws. *)
Fixpoint draw_loop (fuel : nat) (seed : Z) : M (vec F * Z) :=
  match fuel with
  | O => out_of_fuel
  | S fuel' =>
      '(z, seed') <- draw_once seed ;;
      z00 <- first_entry z ;;
      if z00 ==~ inf then draw_loop fuel' seed' else ret (z, seed')
  end.

(** The state the search carries from trial to trial. *)
Record search_state := mk_state {
  seed : Z;
  z : vec F;
  bcoeff : mat F;
  bobj : vec F;
  bestobj : F;
  coeffs : vec F
}.

(** One trial of the coarse phase ([final = 0]), lines 148-191. *)
Definition coarse_trial (fuel : nat) (csteps : option nat) (adjh : nat)
    (st : search_state) : M search_state :=
  (* z[0, 0] = np.inf *)
  _ <- first_entry (z st) ;;
  '(z1, seed1) <- draw_loop fuel (seed st) ;;
  z0 <- first_entry z1 ;;
  if isfinite z0 then
    r <- csteps_run csteps adjh z1 ;;
    if cs_obj r <?~ np_max (bobj st) then
      let '(bc, bo) := insertion (bcoeff st) (bobj st) (cs_z r) (cs_obj r) in
      ret (mk_state seed1 (cs_z r) bc bo (bestobj st) (coeffs st))
    else
      ret (mk_state seed1 (cs_z r) (bcoeff st) (bobj st) (bestobj st) (coeffs st))
  else
    ret (mk_state seed1 z1 (bcoeff st) (bobj st) (bestobj st) (coeffs st)).

Fixpoint coarse_trials (k fuel : nat) (csteps : option nat) (adjh : nat)
    (st : search_state) : M search_state :=
  match k with
  | O => ret st
  | S k' =>
      st' <- coarse_trial fuel csteps adjh st ;;
      coarse_trials k' fuel csteps adjh st'
  end.

(** The trials of the final phase ([final = 1]), with the [break] of
    line 156. *)
Fixpoint final_trials (iis : list nat) (csteps : option nat) (adjh : nat)
    (st : search_state) : M search_state :=
  match iis with
  | [] => ret st
  | ii :: iis' =>
      b <- item (bobj st) (Z.of_nat ii) ;;
      if isfinite b then
        let z1 := column ii (bcoeff st) in
        z0 <- first_entry z1 ;;
        st' <- (if isfinite z0 then
                  r <- csteps_run csteps adjh z1 ;;
                  if cs_obj r <?~ bestobj st then
                    ret (mk_state (seed st) (cs_z r) (bcoeff st) (bobj st)
                           (cs_obj r) (cs_z r))
                  else
                    ret (mk_state (seed st) (cs_z r) (bcoeff st) (bobj st)
                           (bestobj st) (coeffs st))
                else
                  ret (mk_state (seed st) z1 (bcoeff st) (bobj st)
                         (bestobj st) (coeffs st))) ;;
        final_trials iis' csteps adjh st'
      else ret st
  end.

(** Lines 136-146: the settings of the final phase. *)
Definition final_csteps : option nat :=
  if (Z.of_nat (n * p) <=? 100000)%Z then Some csteps2
  else if (Z.of_nat (n * p) <=? 1000000)%Z then None
  else Some 1.

Definition final_nsamp : nat := if (5000 <? Z.of_nat n)%Z then 1 else 10.

(** One pass of the body of [while final != 2]. *)
Definition pass (fuel : nat) (final : nat) (st : search_state) : M search_state :=
  if final =? 0 then coarse_trials ntrial fuel (Some csteps1) h st
  else final_trials (seq 0 final_nsamp) final_csteps h st.

(** Lines 196-199. *)
Definition next_final (final : nat) : nat :=
  if (part =? 0) && (final =? 0) then 1 else 2.

(** [while final != 2], given [k] passes. *)
Fixpoint search_loop (k fuel final : nat) (st : search_state) : M search_state :=
  if final =? 2 then ret st
  else match k with
       | O => out_of_fuel
       | S k' =>
           st' <- pass fuel final st ;;
           search_loop k' fuel (next_final final) st'
       end.

(** Lines 120-125. *)
Definition initial_state : search_state :=
  mk_state seed0 (repeat fzero p) (repeat (repeat nan 10) p) (repeat inf 10)
    inf (repeat nan p).

(** The whole search; two passes are all that [while final != 2] makes. *)
Definition search (fuel : nat) : M search_state :=
  search_loop 2 fuel 0 initial_state.
End Search.

(** ** Post-processing (lines 201-210) *)
Definition rescale (p : nat) (datamad coeffs : vec F) : vec F :=
  let dp := nth p datamad fzero in
  if p <=? 1 then
    map_at 0 (fun c => c *~ dp /~ nth 0 datamad fzero) coeffs
  else
    let c1 := zip_with (fun c d => c *~ dp /~ d) coeffs (firstn p datamad) in
    let dl := nth (p - 1) datamad fzero in
    map_at (p - 1) (fun c => c *~ dl /~ dl) c1.

(** ** Raw scale (lines 225-229) *)
Definition raw_scale (n p h : nat) (alpha : F) (residuals : vec F) : F :=
  let sor := np_sort (map sqr residuals) in
  let factor := rawcorfactorlts p intercept n alpha in
  let factor := factor *~ rawconsfactorlts h n in
  let sh0 := sqrt ((fone /~ of_nat h) *~ np_sum (firstn h sor)) in
  sh0 *~ factor.

(** What the two branches of line 231 hand on. *)
Record refit := mk_refit {
  rf_scale : F;
  rf_coefficients : vec F;
  rf_weights : list bool;
  rf_fitted : vec F;
  rf_residuals : vec F
}.

(** ** Exact fit (lines 232-238) *)
Definition exact_fit (coeffs fitted residuals : vec F) : refit :=
  let weights := map (fun r => fabs r <?~ lit 1 7) residuals in
  mk_refit (of_Z 0) coeffs weights fitted residuals.

(** ** Reweighting (lines 240-262) *)

(** Lines 241-243: the observations within the normal quantile. *)
Definition quantile_weights (s0 : F) (residuals : vec F) : list bool :=
  let quantile := qnorm (lit 9875 4) in
  map (fun r => fabs (r /~ s0) <=?~ quantile) residuals.

Definition reweight (xvar : mat F) (yvar : vec F) (n p : nat) (alpha : F)
    (s0 : F) (residuals : vec F) : M refit :=
  let weights := quantile_weights s0 residuals in
  zfinal <- solve Reweighted (mask weights xvar) (mask weights yvar) ;;
  let fitted := matvec xvar zfinal in
  let residuals := vsub yvar fitted in
  let wr := zip_with fmul (map of_bool weights) residuals in
  let scale := sqrt (np_sum (map sqr wr)
                     /~ of_Z (Z.of_nat (count_true weights) - 1)) in
  let factor := rewcorfactorlts p intercept n alpha in
  let factor := factor *~ rewconsfactorlts weights n p in
  let scale := scale *~ factor in
  let weights := map (fun r => fabs (r /~ scale) <=?~ lit 25 1) residuals in
  ret (mk_refit scale zfinal weights fitted residuals).

(** ** Goodness of fit (lines 265-273).  [np.sort(yvar**2)] sorts along
    the last axis of an [(n, 1)] array: it leaves the column as it is. *)
Definition r_squared (h : nat) (residuals yvar : vec F) : F :=
  let sor := np_sort (map sqr residuals) in
  let s1 := np_sum (firstn h sor) in
  let sor2 := map sqr yvar in
  let sh := np_sum (firstn h sor2) in
  let rsquared := fone -~ (s1 /~ sh) in
  if fone <?~ rsquared then of_Z 1
  else if rsquared <?~ fzero then of_Z 0
  else rsquared.

(** ** Decoding (lines 283-289) *)

(** [np.linalg.norm(s_p, 2)] of a [(p, 1)] array is its largest singular
    value, the Euclidean length of the column. *)
Definition norm2 (v : vec F) : F := sqrt (np_sum (map sqr v)).

(** numpy's [%] on floats ([npy_divmod]): C's [fmod], moved to the sign
    of the divisor. *)
Definition np_remainder (a b : F) : F :=
  let m := fmod a b in
  if b ==~ fzero then m
  else if m ==~ fzero then (if b <?~ fzero then fzero *~ of_Z (-1) else fzero)
  else if xorb (b <?~ fzero) (m <?~ fzero) then m +~ b
  else m.

Definition back_azimuth (sx sy : F) : F :=
  np_remainder (arctan2 sx sy *~ of_Z 180 /~ pi -~ of_Z 360) (of_Z 360).

Definition decode (s_p : vec F) : M (F * F) :=
  let vel := fone /~ norm2 s_p in
  sx <- item s_p 0%Z ;;
  sy <- item s_p 1%Z ;;
  ret (vel, back_azimuth sx sy).

(** ** Lines 201-291: from the accepted coefficients to [Res] *)
Definition finish (xorig yorig : ndarray F) (n p h : nat) (alpha : F)
    (datamad coeffs : vec F) : M (Result F) :=
  let coeffs := rescale p datamad coeffs in
  let xvar := rows xorig in
  let yvar := column 0 (rows yorig) in
  let fitted := matvec xvar coeffs in
  let residuals := vsub yvar fitted in
  let s0 := raw_scale n p h alpha residuals in
  rf <- (if fabs s0 <?~ lit 1 7
         then ret (exact_fit coeffs fitted residuals)
         else reweight xvar yvar n p alpha s0 residuals) ;;
  let rsq := r_squared h (rf_residuals rf) yvar in
  (if fabs s0 <?~ lit 1 7 then print "An exact fit was found!" else ret tt) ;;;
  '(vel, az) <- decode (rf_coefficients rf) ;;
  ret (mk_Result az vel (rf_coefficients rf) (rf_weights rf) (rf_fitted rf)
         (rf_residuals rf) (rf_scale rf) rsq nan xorig yorig).

(** ** The shortcut of lines 127-132

    Modelled from the spec: [fltsh.least_squares_fit] is not among the
    sources.  Section 4.2 of the spec: it "performs one ordinary least
    squares fit over all n points and returns immediately with weights all
    true and scale derived from the OLS residuals, using the same output
    schema as the general path". *)
Definition least_squares_fit (Xvar : mat F) (yvar datamad : vec F)
    (xorig yorig : ndarray F) : M (Result F) :=
  let n := List.length Xvar in
  let p := List.length datamad - 1 in
  z <- solve Ordinary Xvar yvar ;;
  let coeffs := rescale p datamad z in
  let y0 := column 0 (rows yorig) in
  let fitted := matvec (rows xorig) coeffs in
  let residuals := vsub y0 fitted in
  '(vel, az) <- decode coeffs ;;
  ret (mk_Result az vel coeffs (repeat true n) fitted residuals
         (ols_scale n p residuals) (r_squared n residuals y0) nan xorig yorig).

(** ** The function *)
Definition general_path (fuel : nat) (X y : ndarray F) (alpha : F)
    (n p h : nat) (Xvar : mat F) (yvar datamad : vec F) : M (Result F) :=
  st <- search Xvar yvar n p h fuel ;;
  finish X y n p h alpha datamad (coeffs st).

Definition after_validation (fuel : nat) (X y : ndarray F) (alpha : F)
    (n p : nat) : M (Result F) :=
  let Xvar := rows X in
  let yvar := column 0 (rows y) in
  check_rank Xvar p ;;;
  let h := hcalc alpha n p in
  datamad <- compute_datamad Xvar yvar n p ;;
  let Xvar := standardize_X p datamad Xvar in
  let yvar := standardize_y p datamad yvar in
  if alpha ==~ fone then least_squares_fit Xvar yvar datamad X y
  else general_path fuel X y alpha n p h Xvar yvar datamad.

Definition fast_lts_array (fuel : nat) (X y : ndarray F) (alpha : F) : M (Result F) :=
  '(n, p) <- validate X y ;;
  after_validation fuel X y alpha n p.
End FastLts.

(* ================================================================== *)
(** * A reference environment

    To run the model on concrete arrays the interfaces need inhabitants.
    Arithmetic is IEEE binary64 throughout.  The library routines are small
    stand-ins that do what the real ones do on the small problems used
    below (at most two unknowns); they make no claim of bit-for-bit
    agreement with LAPACK or libm. *)

Module Reference.
Local Open Scope float_scope.

(** ** libm *)

Fixpoint strip_zeros (m : positive) (e : Z) : positive * Z :=
  match m with
  | xO m' => strip_zeros m' (e + 1)%Z
  | _ => (m, e)
  end.

(** [m * 2^e], for an [m * 2^e] that is a binary64 number. *)
Definition float_of_scaled (neg : bool) (m : positive) (e : Z) : float :=
  let '(m', e') := strip_zeros m e in
  let f := Z.ldexp (PrimFloat.of_uint63 (Uint63.of_Z (Zpos m'))) e' in
  if neg then PrimFloat.opp f else f.

(** C's [fmod]: the remainder of the truncated quotient, computed
    exactly on the integer mantissas. *)
Definition float_fmod (a b : float) : float :=
  match Prim2SF a, Prim2SF b with
  | S754_nan, _ | _, S754_nan => PrimFloat.nan
  | S754_infinity _, _ => PrimFloat.nan
  | _, S754_zero _ => PrimFloat.nan
  | S754_zero _, _ => a
  | S754_finite _ _ _, S754_infinity _ => a
  | S754_finite sa ma ea, S754_finite _ mb eb =>
      let e := Z.min ea eb in
      let na := (Zpos ma * 2 ^ (ea - e))%Z in
      let nb := (Zpos mb * 2 ^ (eb - e))%Z in
      match (na mod nb)%Z with
      | Zpos r => float_of_scaled sa r e
      | _ => if sa then PrimFloat.opp 0 else 0
      end
  end.

(** The arc tangent on [0, 1]: three halvings of the angle, then the
    series. *)
Definition atan_small (t : float) : float :=
  let t2 := t * t in
  t * (1 - t2 * (1 / 3 - t2 * (1 / 5 - t2 * (1 / 7 - t2 * (1 / 9
       - t2 * (1 / 11 - t2 * (1 / 13 - t2 * (1 / 15)))))))).

Definition halve (t : float) : float := t / (1 + PrimFloat.sqrt (1 + t * t)).

Definition atan_unit (t : float) : float := 8 * atan_small (halve (halve (halve t))).

Definition float_pi : float := 0x1.921fb54442d18p+1.

Definition atan_pos (t : float) : float :=
  if PrimFloat.leb t 1 then atan_unit t else float_pi / 2 - atan_unit (1 / t).

Definition float_arctan2 (y x : float) : float :=
  if PrimFloat.is_nan y || PrimFloat.is_nan x then PrimFloat.nan
  else if PrimFloat.eqb x 0 && PrimFloat.eqb y 0 then 0
  else
    let a := atan_pos (PrimFloat.abs y / PrimFloat.abs x) in
    let a := if PrimFloat.ltb x 0 then float_pi - a else a in
    if PrimFloat.ltb y 0 then PrimFloat.opp a else a.

#[export] Instance float_libm : Libm float :=
  ieee_libm float_arctan2 float_pi float_fmod.

(** ** Linear algebra, for one or two unknowns *)
Section Solver.
Context {F : Type} `{Scalar F}.
Local Open Scope scalar_scope.

Fixpoint identity_row (m i : nat) : vec F :=
  match m with
  | O => []
  | S m' => match i with
            | O => fone :: repeat fzero m'
            | S i' => fzero :: identity_row m' i'
            end
  end.

Definition identity (m : nat) : mat F := map (identity_row m) (seq 0 m).

(** The trivial factorization [A = I A]. *)
Definition ref_qr (A : mat F) : exn + (mat F * mat F) :=
  inr (identity (List.length A), A).

(** The least-squares solution of smallest norm of [A z = b]: the
    normal equations [N z = c], by Cramer's rule when [N] is regular and
    through [N c / (tr N)^2] when [N] has rank one. *)
Definition normal_solve (p : nat) (A : mat F) (b : vec F) : vec F :=
  match p with
  | 1 =>
      let a := column 0 A in
      let s := dot a a in
      let c := dot a b in
      if s ==~ fzero then [fzero] else [c /~ s]
  | 2 =>
      let a1 := column 0 A in
      let a2 := column 1 A in
      let s11 := dot a1 a1 in
      let s12 := dot a1 a2 in
      let s22 := dot a2 a2 in
      let c1 := dot a1 b in
      let c2 := dot a2 b in
      let det := s11 *~ s22 -~ s12 *~ s12 in
      let tr := s11 +~ s22 in
      if negb (det ==~ fzero) then
        [(s22 *~ c1 -~ s12 *~ c2) /~ det; (s11 *~ c2 -~ s12 *~ c1) /~ det]
      else if tr ==~ fzero then [fzero; fzero]
      else [(s11 *~ c1 +~ s12 *~ c2) /~ (tr *~ tr);
            (s12 *~ c1 +~ s22 *~ c2) /~ (tr *~ tr)]
  | _ => repeat fzero p
  end.

Definition ref_rank (p : nat) (A : mat F) : nat :=
  match p with
  | 1 => let a := column 0 A in if dot a a ==~ fzero then 0 else 1
  | 2 =>
      let a1 := column 0 A in
      let a2 := column 1 A in
      let s11 := dot a1 a1 in
      let s12 := dot a1 a2 in
      let s22 := dot a2 a2 in
      if negb (s11 *~ s22 -~ s12 *~ s12 ==~ fzero) then 2
      else if s11 +~ s22 ==~ fzero then 0 else 1
  | _ => p
  end.
End Solver.

(** scipy's [lstsq] checks its arguments for infinities and NaNs first. *)
Definition all_finite (l : list float) : bool := forallb isfinite l.

Definition float_lstsq (A : mat float) (b : vec float) : exn + vec float :=
  if forallb all_finite A && all_finite b
  then inr (normal_solve (List.length (hd [] A)) A b)
  else inl (ValueError "array must not contain infs or NaNs").

#[export] Instance float_lapack : Lapack float := {|
  qr := ref_qr;
  lstsq := float_lstsq;
  matrix_rank := fun A => ref_rank (List.length (hd [] A)) A
|}.

(** ** The helpers *)

(** The largest [k <= bound] with [k <= x]. *)
Fixpoint floor_upto (bound : nat) (x : float) : nat :=
  match bound with
  | O => 0
  | S b => if PrimFloat.leb (of_nat (S b)) x then S b else floor_upto b x
  end.

(** The subset size of Rousseeuw and Van Driessen:
    [floor(2 n2 - n + 2 (n - n2) alpha)] with [n2 = floor((n + p + 1) / 2)]. *)
Definition ref_hcalc (alpha : float) (n p : nat) : nat :=
  let n2 := ((n + p + 1) / 2)%nat in
  (2 * n2 - n + floor_upto (2 * n) (of_nat (2 * (n - n2)) * alpha))%nat.

(** A linear congruential generator on 16 bits. *)
Definition uniran (seed : Z) : Z := ((seed * 5761 + 999) mod 65536)%Z.

Definition mem_Z (x : Z) (l : list Z) : bool := existsb (Z.eqb x) l.

(** The next number in [1..tot] that is not yet in [taken]. *)
Fixpoint fresh_number (tries : nat) (tot : nat) (taken : list Z) (seed : Z) : Z * Z :=
  let seed' := uniran seed in
  let num := (seed' * Z.of_nat tot / 65536 + 1)%Z in
  match tries with
  | O => (num, seed')
  | S t => if mem_Z num taken then fresh_number t tot taken seed' else (num, seed')
  end.

Fixpoint ref_randomset_from (k tot : nat) (taken : list Z) (seed : Z) : list Z * Z :=
  match k with
  | O => (rev taken, seed)
  | S k' =>
      let '(num, seed') := fresh_number 1000 tot taken seed in
      ref_randomset_from k' tot (num :: taken) seed'
  end.

Definition ref_randomset (tot npar : nat) (seed : Z) : list Z * Z :=
  ref_randomset_from npar tot [] seed.

(** The pool of the ten best candidates: a new objective goes to its
    place in the ascending order and the last candidate is dropped; an
    objective already in the pool is not inserted again. *)
Fixpoint insert_candidate (c : vec float * float) (pool : list (vec float * float))
    : list (vec float * float) :=
  match pool with
  | [] => [c]
  | d :: pool' =>
      if PrimFloat.ltb (snd c) (snd d) then c :: d :: pool'
      else d :: insert_candidate c pool'
  end.

Definition ref_insertion (bcoeff : mat float) (bobj : vec float) (z : vec float)
    (obj : float) : mat float * vec float :=
  if existsb (PrimFloat.eqb obj) bobj then (bcoeff, bobj)
  else
    let k := List.length bobj in
    let cands := combine (transpose k bcoeff) bobj in
    let cands := firstn k (insert_candidate (z, obj) cands) in
    (transpose (List.length z) (map fst cands), map snd cands).

(** Correction factors are left at one; [qnorm 0.9875]. *)
#[export] Instance float_fltsh : Fltsh float := {|
  hcalc := ref_hcalc;
  randomset := ref_randomset;
  insertion := ref_insertion;
  rawcorfactorlts := fun _ _ _ _ => 1;
  rawconsfactorlts := fun _ _ => 1;
  rewcorfactorlts := fun _ _ _ _ => 1;
  rewconsfactorlts := fun _ _ _ => 1;
  qnorm := fun _ => lit 22414027276049473 16
|}.

#[export] Instance float_ols : OlsScale float := {|
  ols_scale := fun n p r =>
    PrimFloat.sqrt (np_sum (map sqr r) / of_nat (n - p))
|}.

(** An array from its rows. *)
Definition array {F : Type} (p : nat) (A : mat F) : ndarray F :=
  mk_ndarray (List.length A) p A.

(** The same solver on exact rationals. *)
Definition Q_lapack : Lapack Q := {|
  qr := ref_qr;
  lstsq := fun A b => inr (normal_solve (List.length (hd [] A)) A b);
  matrix_rank := fun A => ref_rank (List.length (hd [] A)) A
|}.
End Reference.

(** ** Vocabulary of the properties *)

(** The residual sum of squares of [z] on the rows [A] with responses [b]. *)
Definition rss {F : Type} `{Scalar F} (A : mat F) (b z : vec F) : F :=
  np_sum (map sqr (vsub b (matvec A z))).

(** [X[idx, :]] and [y[idx]] for indices known to be in range. *)
Definition rows_of {F : Type} (idx : list nat) (A : mat F) : mat F :=
  map (fun i => nth i A []) idx.

Definition entries_of {F : Type} `{Scalar F} (idx : list nat) (b : vec F) : vec F :=
  map (fun i => nth i b fzero) idx.

(** The residuals of [z], as line 167 and line 179 compute them. *)
Definition residual_of {F : Type} `{Scalar F} (X : mat F) (y z : vec F) : vec F :=
  vsub y (matvec X z).

(** The entries of [v] at the indices [idx]. *)
Definition pick (v : vec Q) (idx : list nat) : vec Q :=
  map (fun i => nth i v 0%Q) idx.

(** The squared absolute residuals. *)
Definition squares (r : vec Q) : vec Q := map (@sqr Q _) (map Qabs r).

(** The indices of the [adjh] smallest absolute residuals ([sortind[0:adjh]]). *)
Definition ranked_indices (adjh : nat) (r : vec Q) : list nat :=
  firstn adjh (np_argsort (map Qabs r)).

(** What [qr] followed by [lstsq] is for: on every subset of the rows the
    pair returns a vector, and no vector has a smaller residual sum of
    squares on that subset.  (Exact arithmetic.) *)
Definition least_squares_solver (LA : Lapack Q) (X : mat Q) (y : vec Q) : Prop :=
  forall idx : list nat,
    (forall i, In i idx -> i < List.length X) ->
    exists z,
      qr_lstsq (rows_of idx X) (entries_of idx y) = inr z
      /\ forall w, (rss (rows_of idx X) (entries_of idx y) z
                    <= rss (rows_of idx X) (entries_of idx y) w)%Q.

(** No value of the list is larger than the value before it. *)
Definition non_increasing (l : list Q) : Prop :=
  forall j a b,
    nth_error l j = Some a -> nth_error l (S j) = Some b -> (b <= a)%Q.

(** The same, with a bound on the first value. *)
Inductive descending_from : Q -> list Q -> Prop :=
| descending_nil (bound : Q) : descending_from bound []
| descending_cons (bound x : Q) (l : list Q) :
    (x <= bound)%Q -> descending_from x l -> descending_from bound (x :: l).

(** A run is complete when no loop was cut short by the fuel. *)
Definition complete {A : Type} (m : M A) : Prop := fst m <> OutOfFuel.

(** More fuel does not change a complete run. *)
Definition fuel_monotone {A : Type} (f : nat -> M A) : Prop :=
  forall a b, a <= b -> complete (f a) -> f b = f a.

(** A binary64 zero, of either sign. *)
Definition zero_float (x : float) : Prop := x = 0%float \/ x = (-0)%float.

(** The events a search can log: draws, and fits of elemental and trimmed
    subsets. *)
Definition search_event (e : event) : Prop :=
  match e with
  | Drew _ | Fitted Elemental | Fitted CStep => True
  | _ => False
  end.

Definition printed_event (e : event) : Prop :=
  match e with
  | Printed _ => True
  | _ => False
  end.

(** ** Example inputs *)
Module Examples.
Import Reference.
Local Open Scope float_scope.

(** Six sensor pairs, two coordinates. *)
Definition X6 : ndarray float :=
  array 2 [[1; 0]; [0; 1]; [1; 1]; [2; 1]; [1; 2]; [3; 1]].

(** Exact delays of the slowness vector (0.003, 0.001). *)
Definition y_exact : ndarray float :=
  array 1 [[lit 3 3]; [lit 1 3]; [lit 4 3]; [lit 7 3]; [lit 5 3]; [lit 10 3]].

(** Noisy delays. *)
Definition y_noisy : ndarray float :=
  array 1 [[lit 31 4]; [lit 9 4]; [lit 42 4]; [lit 68 4]; [lit 51 4]; [lit 99 4]].

(** A design matrix whose two columns are the same. *)
Definition X_repeated : ndarray float :=
  array 2 [[1; 1]; [2; 2]; [3; 3]; [4; 4]; [5; 5]; [6; 6]].

(** A design matrix whose second column is negligible. *)
Definition X_tiny : ndarray float :=
  array 2 [[1; lit 1 13]; [2; lit 1 13]; [3; lit 1 13]; [4; lit 1 13];
           [5; lit 1 13]; [6; lit 1 13]].

(** Five rows of delays: one fewer than [X6] has. *)
Definition y_short : ndarray float :=
  array 1 [[lit 3 3]; [lit 1 3]; [lit 4 3]; [lit 7 3]; [lit 5 3]].

(** Four delays of 1 on a cross of sensor pairs, which no slowness
    explains, and one outlying pair. *)
Definition X_cross : ndarray float :=
  array 2 [[1; 0]; [-1; 0]; [0; 1]; [0; -1]; [5; 5]].

Definition y_cross : ndarray float :=
  array 1 [[1]; [1]; [1]; [1]; [100]].

(** One coordinate, exact rationals: five delays scattered about a line. *)
Definition X_line : mat Q := [[1%Q]; [2%Q]; [3%Q]; [4%Q]; [5%Q]].
Definition y_line : vec Q := [2%Q; 3%Q; 7%Q; 7%Q; 11%Q].

(** Residuals and a raw scale that leave one observation within the
    quantile. *)
Definition residuals_one_inlier : vec float := [0; 1; 1; 1; 1; 1].
Definition s0_small : float := lit 1 1.

(** A solver in the manner of a division by a singular matrix: its first
    coefficient is always infinite. *)
Definition stuck_lapack : Lapack float := {|
  qr := ref_qr;
  lstsq := fun A _ => inr (PrimFloat.infinity :: repeat 0 (List.length (hd [] A) - 1));
  matrix_rank := fun A => ref_rank (List.length (hd [] A)) A
|}.

End Examples.

(** ** Counting the events of a log *)

(** How many events of a log satisfy [P]. *)
Definition count_events (P : event -> bool) (l : list event) : nat :=
  List.length (filter P l).

(** The fits made at one place of the code. *)
Definition is_fit_at (s : site) (e : event) : bool :=
  match e, s with
  | Fitted Elemental, Elemental => true
  | Fitted CStep, CStep => true
  | Fitted Reweighted, Reweighted => true
  | Fitted Ordinary, Ordinary => true
  | _, _ => false
  end.

(** The bound of a C-step loop: [range] over a float makes no pass. *)
Definition passes (csteps : option nat) : nat :=
  match csteps with Some k => k | None => 0 end.

(** ** Further inputs *)
Module Cases.
Import Reference.
Local Open Scope float_scope.

(** One coordinate: three delays on a line through the origin. *)
Definition X_one_column : ndarray float := array 1 [[1]; [2]; [3]].
Definition y_one_column : ndarray float := array 1 [[lit 5 1]; [1]; [lit 15 1]].

(** A search state after a coarse phase that pooled two candidates, with
    an empty slot between them. *)
Definition pooled_state : @search_state float :=
  mk_state 7 [lit 3 3; lit 1 3]
    [[lit 3 3; nan; lit 31 4]; [lit 1 3; nan; lit 9 4]]
    [lit 2 6; PrimFloat.infinity; lit 3 6]
    PrimFloat.infinity [nan; nan].

(** The reference solver in the manner of a routine that reports an
    overflow: an answer with an infinity or a NaN in it is an error. *)
Definition careful_lstsq (A : mat float) (b : vec float) : exn + vec float :=
  match float_lstsq A b with
  | inl e => inl e
  | inr z => if all_finite z then inr z
             else inl (LinAlgError "SVD did not converge in Linear Least Squares")
  end.

Definition careful_lapack : Lapack float := {|
  qr := ref_qr;
  lstsq := careful_lstsq;
  matrix_rank := fun A => ref_rank (List.length (hd [] A)) A
|}.
End Cases.

(* ================================================================== *)
(** * Properties *)

Import Reference.

Section MonadFacts.
Context {A B : Type}.

Lemma bind_ret_l (a : A) (k : A -> M B) : bind (ret a) k = k a.
Proof. unfold bind, ret. destruct (k a). reflexivity. Qed.

Lemma bind_Ret (a : A) (l : list event) (k : A -> M B) :
  bind (Ret a, l) k = (fst (k a), l ++ snd (k a)).
Proof. unfold bind. destruct (k a). reflexivity. Qed.

Lemma bind_Raise (e : exn) (l : list event) (k : A -> M B) :
  bind (Raise e, l) k = (Raise e, l).
Proof. reflexivity. Qed.

Lemma bind_ret_inv (m : M A) (k : A -> M B) (b : B) (l : list event) :
  bind m k = (Ret b, l) ->
  exists a l1 l2, m = (Ret a, l1) /\ k a = (Ret b, l2) /\ l = l1 ++ l2.
Proof.
  destruct m as [[a | e |] l1]; simpl; try discriminate.
  destruct (k a) as [r l2] eqn:E. intros [= -> <-].
  exists a, l1, l2. auto.
Qed.

Lemma bind_log_in (m : M A) (k : A -> M B) (e : event) :
  In e (snd (bind m k)) ->
  In e (snd m) \/ exists a, fst m = Ret a /\ In e (snd (k a)).
Proof.
  destruct m as [[a | x |] l1]; simpl; auto.
  destruct (k a) as [r l2] eqn:E. simpl. intros H.
  apply in_app_or in H as [H | H]; auto.
  right. exists a. rewrite E. auto.
Qed.
End MonadFacts.

(* ------------------------------------------------------------------ *)
(** ** Validation *)

Section Validation.
Context {F : Type}.
Context {SF : Scalar F} {SP : Special F} {LM : Libm F}.
Context {LA : Lapack F} {FH : Fltsh F} {OS : OlsScale F}.

Lemma validate_accepts (X y : ndarray F) :
  shape0 X = shape0 y -> shape1 y = 1 -> 2 * shape1 X < shape0 X ->
  validate X y = ret (shape0 X, shape1 X).
Proof.
  intros Hn Hc Hp. unfold validate.
  rewrite <- Hn, Nat.eqb_refl, Hc. simpl.
  destruct (shape0 X <=? shape1 X + (shape1 X + 0)) eqn:E; [|reflexivity].
  apply Nat.leb_le in E. lia.
Qed.

Lemma validate_ret_inv (X y : ndarray F) (n p : nat) (l : list event) :
  validate X y = (Ret (n, p), l) ->
  n = shape0 X /\ p = shape1 X /\ l = [] /\
  shape0 X = shape0 y /\ shape1 y = 1 /\ 2 * shape1 X < shape0 X.
Proof.
  unfold validate.
  destruct (shape0 X =? shape0 y) eqn:E1; simpl; [|discriminate].
  destruct (shape1 y =? 1) eqn:E2; simpl; [|discriminate].
  destruct (shape0 X <=? shape1 X + (shape1 X + 0)) eqn:E3; [discriminate|].
  intros [= <- <- <-].
  apply Nat.eqb_eq in E1, E2. apply Nat.leb_gt in E3.
  repeat split; auto; lia.
Qed.

End Validation.



(* ------------------------------------------------------------------ *)
(** ** Standardization *)

Section Standardization.
Context {F : Type}.
Context {SF : Scalar F} {SP : Special F} {LM : Libm F}.
Context {LA : Lapack F} {FH : Fltsh F} {OS : OlsScale F}.

Lemma datamad_entry_eq (eps : F) (n : nat) (col : vec F) :
  datamad_entry eps n col
  = (Ret (if fabs (robust_scale col) <=?~ eps
          then fallback_scale n col else robust_scale col),
     if doubly_degenerate eps n col then [Printed error_message] else []).
Proof.
  unfold datamad_entry, doubly_degenerate.
  destruct (fabs (robust_scale col) <=?~ eps); simpl; [|reflexivity].
  destruct (fabs (fallback_scale n col) <=?~ eps); reflexivity.
Qed.

Lemma datamad_loop_returns (eps : F) (n : nat) (cols : list (vec F)) :
  exists ds log,
    datamad_loop eps n cols = (Ret ds, log)
    /\ List.length ds = List.length cols
    /\ forall ii col, nth_error cols ii = Some col ->
         doubly_degenerate eps n col = true ->
         nth ii ds fzero = fallback_scale n col
         /\ In (Printed error_message) log.
Proof.
  induction cols as [|c cols IH].
  - exists [], []. split; [reflexivity|]. split; [reflexivity|].
    intros [|ii] col; discriminate.
  - destruct IH as (ds & log & E & Hlen & Hd).
    simpl. rewrite datamad_entry_eq, bind_Ret. simpl.
    rewrite E. rewrite bind_Ret. simpl.
    eexists _, _. split; [reflexivity|]. split; [simpl; congruence|].
    intros [|ii] col Hc Hdeg; simpl in Hc.
    + injection Hc as ->. rewrite Hdeg. simpl.
      unfold doubly_degenerate in Hdeg. apply andb_prop in Hdeg as [H1 _].
      rewrite H1. auto.
    + destruct (Hd ii col Hc Hdeg) as [Hn Hi]. split; [exact Hn|].
      apply in_or_app. right. rewrite app_nil_r. exact Hi.
Qed.

(** C7, as the code has it: the standardization step raises nothing.  A
    column whose robust scale and whose fallback are both within [eps] is
    reported by the printed message and keeps the fallback estimate as its
    scale, by which the data are then divided. *)
Theorem degenerate_column_is_printed_not_raised
    (Xvar : mat F) (yvar : vec F) (n p : nat) :
  exists datamad log,
    compute_datamad Xvar yvar n p = (Ret datamad, log)
    /\ List.length datamad = p + 1
    /\ forall ii, ii <= p ->
         doubly_degenerate (eps_of p) n (data_column Xvar yvar p ii) = true ->
         nth ii datamad fzero = fallback_scale n (data_column Xvar yvar p ii)
         /\ In (Printed error_message) log.
Proof.
  unfold compute_datamad.
  destruct (datamad_loop_returns (eps_of p) n
              (map (data_column Xvar yvar p) (seq 0 (p + 1))))
    as (ds & log & E & Hlen & Hd).
  exists ds, log. split; [exact E|].
  split; [rewrite Hlen, length_map, length_seq; reflexivity|].
  intros ii Hii Hdeg. apply Hd; [|exact Hdeg].
  rewrite nth_error_map, nth_error_seq.
  destruct (ii <? p + 1) eqn:E1; [reflexivity|].
  apply Nat.ltb_ge in E1. lia.
Qed.
End Standardization.

(** C7 as stated fails: the second column of [X_tiny] has a robust scale
    and a fallback estimate below the tolerance; the call prints the message,
    divides by the estimate and returns a result. *)
Lemma degenerate_column_call_returns :
  let col := column 1 (rows Examples.X_tiny) in
  let run := fast_lts_array 5 Examples.X_tiny Examples.y_noisy (lit 5 1) in
  doubly_degenerate (eps_of 2) 6 col = true
  /\ returned run = true
  /\ prints run = [error_message].
Proof. vm_compute. repeat split; reflexivity. Qed.

(** The theorem of C7 at [X_tiny]. *)
Lemma degenerate_column_is_printed_not_raised_witness :
  exists datamad log,
    compute_datamad (rows Examples.X_tiny) (column 0 (rows Examples.y_noisy)) 6 2
    = (Ret datamad, log)
    /\ nth 1 datamad fzero
       = fallback_scale 6 (column 1 (rows Examples.X_tiny))
    /\ In (Printed error_message) log.
Proof.
  destruct (degenerate_column_is_printed_not_raised
              (rows Examples.X_tiny) (column 0 (rows Examples.y_noisy)) 6 2)
    as (datamad & log & E & _ & Hd).
  exists datamad, log. split; [exact E|].
  apply (Hd 1); [lia|]. vm_compute. reflexivity.
Defined.

(* ------------------------------------------------------------------ *)
(** ** Least-squares fits *)

Section Fits.
Context {F : Type}.
Context {SF : Scalar F} {SP : Special F} {LM : Libm F}.
Context {LA : Lapack F} {FH : Fltsh F} {OS : OlsScale F}.

Lemma solve_eq (s : site) (A : mat F) (b : vec F) :
  solve s A b
  = match qr_lstsq A b with
    | inl e => (Raise e, [Fitted s])
    | inr z => (Ret z, [Fitted s])
    end.
Proof. unfold solve. destruct (qr_lstsq A b); reflexivity. Qed.

End Fits.



(* ------------------------------------------------------------------ *)
(** ** The sampling loop *)

Section Sampling.
Context {F : Type}.
Context {SF : Scalar F} {SP : Special F} {LM : Libm F}.
Context {LA : Lapack F} {FH : Fltsh F} {OS : OlsScale F}.
Variables (Xvar : mat F) (yvar : vec F) (n p : nat).

Lemma first_entry_cons (x : F) (l : vec F) : first_entry (x :: l) = ret x.
Proof.
  unfold first_entry, item. simpl.
  destruct (Z.pos (Pos.of_succ_nat (List.length l))) eqn:E; try lia.
  replace (0 <? Z.pos p0)%Z with true by (symmetry; apply Z.ltb_lt; lia).
  reflexivity.
Qed.

Lemma draw_loop_step (fuel : nat) (seed seed' : Z) (z00 : F) (rest : vec F)
    (l : list event) :
  draw_once Xvar yvar n p seed = (Ret (z00 :: rest, seed'), l) ->
  draw_loop Xvar yvar n p (S fuel) seed
  = if z00 ==~ inf
    then (fst (draw_loop Xvar yvar n p fuel seed'),
          l ++ snd (draw_loop Xvar yvar n p fuel seed'))
    else (Ret (z00 :: rest, seed'), l).
Proof.
  intros E. simpl. rewrite E, bind_Ret. cbn beta iota.
  rewrite first_entry_cons, bind_ret_l.
  destruct (z00 ==~ inf); simpl.
  - reflexivity.
  - rewrite app_nil_r. reflexivity.
Qed.

(** C6, as the code has it: the loop that draws elemental subsets has no
    retry cap and no error of its own.  A draw whose first solved
    coefficient is not [+inf] ends it at once; a draw whose first coefficient
    is [+inf] is followed by the next draw, whatever the number of draws
    before it.  A rank-deficient [X] is reported by a printed line, after
    which the call goes on. *)
Theorem sampling_loop_has_no_retry_cap :
  (forall (Xv : mat F) (k : nat),
     check_rank Xv k
     = (Ret tt, if matrix_rank Xv <? k then [Printed singular_message] else []))
  /\ (forall fuel seed seed' z00 rest l,
        draw_once Xvar yvar n p seed = (Ret (z00 :: rest, seed'), l) ->
        (z00 ==~ inf) = false ->
        draw_loop Xvar yvar n p (S fuel) seed = (Ret (z00 :: rest, seed'), l))
  /\ (forall fuel seed seed' z00 rest l,
        draw_once Xvar yvar n p seed = (Ret (z00 :: rest, seed'), l) ->
        (z00 ==~ inf) = true ->
        draw_loop Xvar yvar n p (S fuel) seed
        = (fst (draw_loop Xvar yvar n p fuel seed'),
           l ++ snd (draw_loop Xvar yvar n p fuel seed'))).
Proof.
  split; [|split].
  - intros Xv k. unfold check_rank. destruct (matrix_rank Xv <? k); reflexivity.
  - intros fuel seed seed' z00 rest l E Hz.
    rewrite (draw_loop_step fuel _ E), Hz. reflexivity.
  - intros fuel seed seed' z00 rest l E Hz.
    rewrite (draw_loop_step fuel _ E), Hz. reflexivity.
Qed.
End Sampling.

(** C6 as stated fails: the two columns of [X_repeated] are the same; the
    call prints its line, draws 500 subsets and returns a result. *)
Lemma repeated_column_call_returns :
  let run := fast_lts_array 5 Examples.X_repeated Examples.y_noisy (lit 5 1) in
  matrix_rank (rows Examples.X_repeated) = 1
  /\ returned run = true
  /\ prints run = [singular_message]
  /\ List.length (filter is_draw (snd run)) = 500.
Proof. vm_compute. repeat split; reflexivity. Qed.

(** The theorem of C6 at concrete draws: with the reference solver the
    first draw ends the loop; with a solver whose first coefficient is always
    infinite, four draws use up a fuel of four. *)
Lemma sampling_loop_has_no_retry_cap_witness :
  returned (draw_loop (rows Examples.X6) (column 0 (rows Examples.y_noisy)) 6 2 1 0) = true
  /\ fst (@draw_loop float _ _ Examples.stuck_lapack _
            (rows Examples.X6) (column 0 (rows Examples.y_noisy)) 6 2 4 0)
     = OutOfFuel
  /\ List.length (filter is_draw
       (snd (@draw_loop float _ _ Examples.stuck_lapack _
               (rows Examples.X6) (column 0 (rows Examples.y_noisy)) 6 2 4 0))) = 4.
Proof.
  split.
  - destruct (draw_once (rows Examples.X6) (column 0 (rows Examples.y_noisy)) 6 2 0)
      as [[[[|z00 rest] seed'] | e |] l] eqn:E;
      try (vm_compute in E; discriminate E).
    assert (Hz : (z00 ==~ inf) = false).
    { vm_compute in E. injection E as <- _ _ _. vm_compute. reflexivity. }
    rewrite (proj1 (proj2 (sampling_loop_has_no_retry_cap
               (rows Examples.X6) (column 0 (rows Examples.y_noisy)) 6 2))
               0 0%Z seed' z00 rest l E Hz).
    reflexivity.
  - vm_compute. split; reflexivity.
Defined.

(* ------------------------------------------------------------------ *)
(** ** Decoding *)

Section Decoding.
Context {F : Type}.
Context {SF : Scalar F} {SP : Special F} {LM : Libm F}.
Context {LA : Lapack F} {FH : Fltsh F} {OS : OlsScale F}.

Lemma item_0 {A : Type} (x : A) (l : list A) : item (x :: l) 0%Z = ret x.
Proof.
  unfold item. simpl.
  destruct (Z.pos (Pos.of_succ_nat (List.length l))) eqn:E; try lia.
  replace (0 <? Z.pos p)%Z with true by (symmetry; apply Z.ltb_lt; lia).
  reflexivity.
Qed.

Lemma item_1 {A : Type} (x y : A) (l : list A) : item (x :: y :: l) 1%Z = ret y.
Proof.
  unfold item.
  replace (1 <? 0)%Z with false by reflexivity.
  replace ((0 <=? 1)%Z && (1 <? Z.of_nat (List.length (x :: y :: l)))%Z) with true.
  - reflexivity.
  - symmetry. apply andb_true_intro. split; [reflexivity|].
    apply Z.ltb_lt. simpl List.length. lia.
Qed.

Lemma item_nil {A : Type} (i : Z) : fst (item (@nil A) i) = Raise (IndexError "index out of bounds").
Proof.
  unfold item. simpl.
  destruct ((i <? 0)%Z); simpl.
  - rewrite Z.add_0_r.
    destruct ((0 <=? i)%Z && (i <? 0)%Z) eqn:E; [|reflexivity].
    destruct (Z.to_nat i); reflexivity.
  - destruct ((0 <=? i)%Z && (i <? 0)%Z) eqn:E; [|reflexivity].
    destruct (Z.to_nat i); reflexivity.
Qed.

Lemma item_1_single {A : Type} (x : A) :
  item [x] 1%Z = raise (IndexError "index out of bounds").
Proof. reflexivity. Qed.

Lemma decode_two (sx sy : F) (rest : vec F) :
  decode (sx :: sy :: rest)
  = ret (fone /~ norm2 (sx :: sy :: rest), back_azimuth sx sy).
Proof.
  unfold decode. rewrite item_0, bind_ret_l, item_1, bind_ret_l. reflexivity.
Qed.

Lemma decode_ret_inv (s_p : vec F) (vel az : F) (l : list event) :
  decode s_p = (Ret (vel, az), l) ->
  l = [] /\ vel = fone /~ norm2 s_p
  /\ exists sx sy rest, s_p = sx :: sy :: rest /\ az = back_azimuth sx sy.
Proof.
  destruct s_p as [|sx [|sy rest]].
  - unfold decode. intros H. apply bind_ret_inv in H as (a & l1 & l2 & H & _).
    pose proof (item_nil (A:=F) 0) as Hn. rewrite H in Hn. discriminate Hn.
  - unfold decode. rewrite item_0, bind_ret_l, item_1_single. discriminate.
  - rewrite decode_two. intros [= <- <- <-].
    split; [reflexivity|]. split; [reflexivity|]. eauto.
Qed.

(** What the call hands back was decoded from its coefficients. *)
Lemma finish_decodes (xorig yorig : ndarray F) (n p h : nat) (alpha : F)
    (datamad coeffs : vec F) (r : Result F) (log : list event) :
  finish xorig yorig n p h alpha datamad coeffs = (Ret r, log) ->
  decode (coefficients r) = ret (velocity r, bazimuth r).
Proof.
  unfold finish. intros H.
  apply bind_ret_inv in H as (rf & l1 & l2 & _ & H & _).
  apply bind_ret_inv in H as (u & l3 & l4 & _ & H & _).
  apply bind_ret_inv in H as ([vel az] & l5 & l6 & Hd & H & _).
  injection H as <- _. simpl.
  apply decode_ret_inv in Hd as (-> & -> & sx & sy & rest & E & ->).
  rewrite E. apply decode_two.
Qed.

Lemma least_squares_fit_decodes (Xvar : mat F) (yvar datamad : vec F)
    (xorig yorig : ndarray F) (r : Result F) (log : list event) :
  least_squares_fit Xvar yvar datamad xorig yorig = (Ret r, log) ->
  decode (coefficients r) = ret (velocity r, bazimuth r).
Proof.
  unfold least_squares_fit. intros H.
  apply bind_ret_inv in H as (z & l1 & l2 & _ & H & _).
  apply bind_ret_inv in H as ([vel az] & l5 & l6 & Hd & H & _).
  injection H as <- _. simpl.
  apply decode_ret_inv in Hd as (-> & -> & sx & sy & rest & E & ->).
  rewrite E. apply decode_two.
Qed.

Lemma call_decodes (fuel : nat) (X y : ndarray F) (alpha : F)
    (r : Result F) (log : list event) :
  fast_lts_array fuel X y alpha = (Ret r, log) ->
  decode (coefficients r) = ret (velocity r, bazimuth r).
Proof.
  unfold fast_lts_array. intros H.
  apply bind_ret_inv in H as ([n p] & l1 & l2 & _ & H & _).
  unfold after_validation in H.
  apply bind_ret_inv in H as (u & l3 & l4 & _ & H & _).
  apply bind_ret_inv in H as (datamad & l5 & l6 & _ & H & _).
  destruct (alpha ==~ fone).
  - eapply least_squares_fit_decodes; eassumption.
  - unfold general_path in H.
    apply bind_ret_inv in H as (st & l7 & l8 & _ & H & _).
    eapply finish_decodes; eassumption.
Qed.
End Decoding.

(** *** The remainder on exact rationals *)

Lemma Qtrunc_bounds (q : Q) :
  (inject_Z (Qtrunc q) - 1 < q)%Q /\ (q < inject_Z (Qtrunc q) + 1)%Q.
Proof.
  destruct q as [a d]. unfold Qtrunc, Qlt, Qminus, Qplus, Qopp, inject_Z. simpl.
  pose proof (Z.quot_rem' a (Z.pos d)) as Hq.
  pose proof (Z.rem_bound_abs a (Z.pos d)) as Hr.
  assert (Hd : (0 < Z.pos d)%Z) by lia.
  specialize (Hr ltac:(lia)).
  set (t := Z.quot a (Z.pos d)) in *. set (r := Z.rem a (Z.pos d)) in *.
  split; nia.
Qed.

Lemma Qfmod_bounds (a : Q) :
  (- (360) < Qfmod a 360)%Q /\ (Qfmod a 360 < 360)%Q.
Proof.
  unfold Qfmod.
  destruct (Qtrunc_bounds (a / 360)) as [H1 H2].
  set (t := inject_Z (Qtrunc (a / 360))) in *.
  assert (E : (a == 360 * (a / 360))%Q) by (field; discriminate).
  split; lra.
Qed.

Lemma exact_remainder_range (sqrt_ : Q -> Q) (atan2 : Q -> Q -> Q) (pi_ a : Q) :
  (0 <= @np_remainder Q Q_scalar (exact_libm sqrt_ atan2 pi_) a (inject_Z 360))%Q
  /\ (@np_remainder Q Q_scalar (exact_libm sqrt_ atan2 pi_) a (inject_Z 360) < 360)%Q.
Proof.
  unfold np_remainder. cbn [fmod exact_libm feqb fltb fadd Q_scalar fzero of_Z].
  replace (Qeq_bool (inject_Z 360) (inject_Z 0)) with false by reflexivity.
  replace (Qle_bool (inject_Z 0) (inject_Z 360)) with true by reflexivity.
  destruct (Qfmod_bounds a) as [H1 H2].
  change (inject_Z 360) with 360%Q. change (inject_Z 0) with 0%Q.
  cbn [negb xorb].
  destruct (Qeq_bool (Qfmod a 360) 0) eqn:E0.
  - split; [apply Qle_refl | reflexivity].
  - destruct (Qle_bool 0 (Qfmod a 360)) eqn:E1; cbn [negb].
    + apply Qle_bool_iff in E1. split; lra.
    + assert (Hneg : (Qfmod a 360 < 0)%Q).
      { apply Qnot_le_lt. intros Hc. apply Qle_bool_iff in Hc. congruence. }
      split; lra.
Qed.


(** A call on noisy delays returns two coefficients. *)
Lemma noisy_call_returns :
  exists r log sx sy,
    fast_lts_array 5 Examples.X6 Examples.y_noisy (lit 5 1) = (Ret r, log)
    /\ coefficients r = [sx; sy].
Proof.
  remember (fast_lts_array 5 Examples.X6 Examples.y_noisy (lit 5 1)) as m eqn:Hm.
  vm_compute in Hm. rewrite Hm.
  eexists _, _, _, _. split; reflexivity.
Qed.


(** *** The zero slowness vector, in binary64 *)

Lemma sum_squares_of_zeros (l : list float) :
  Forall zero_float l -> fold_left fadd (map sqr l) 0%float = 0%float.
Proof.
  induction 1 as [|x l [-> | ->] _ IH]; simpl.
  - reflexivity.
  - exact IH.
  - exact IH.
Qed.

Lemma norm2_of_zeros (atan2 : float -> float -> float) (pi_ : float)
    (fmod_ : float -> float -> float) (l : list float) :
  Forall zero_float l ->
  @norm2 float float_scalar (ieee_libm atan2 pi_ fmod_) l = 0%float.
Proof.
  intros H. unfold norm2, np_sum.
  change (@fzero float float_scalar) with 0%float.
  rewrite (sum_squares_of_zeros H). reflexivity.
Qed.

(** C10: in binary64, decoding a coefficient vector whose entries are all
    zero divides 1 by a norm of 0 and returns the velocity [+inf]; nothing is
    raised, and a call that returns such coefficients returns that
    velocity. *)
Theorem zero_coefficients_give_infinite_velocity
    (atan2 : float -> float -> float) (pi_ : float)
    (fmod_ : float -> float -> float)
    (LA : Lapack float) (FH : Fltsh float) (OS : OlsScale float) :
  let LM := ieee_libm atan2 pi_ fmod_ in
  (forall sx sy rest,
     Forall zero_float (sx :: sy :: rest) ->
     @decode float float_scalar LM (sx :: sy :: rest)
     = (Ret (PrimFloat.infinity, @back_azimuth float float_scalar LM sx sy), []))
  /\ (forall fuel X y alpha r log,
        @fast_lts_array float float_scalar float_special LM LA FH OS fuel X y alpha
        = (Ret r, log) ->
        Forall zero_float (coefficients r) ->
        velocity r = PrimFloat.infinity).
Proof.
  intros LM. split.
  - intros sx sy rest Hz. rewrite decode_two. unfold LM.
    rewrite (norm2_of_zeros atan2 pi_ fmod_ Hz). reflexivity.
  - intros fuel X y alpha r log Hrun Hz.
    apply call_decodes in Hrun.
    apply decode_ret_inv in Hrun as (_ & Hv & _).
    rewrite Hv. unfold LM. rewrite (norm2_of_zeros atan2 pi_ fmod_ Hz).
    reflexivity.
Qed.

(** A call whose accepted and refitted coefficients are exactly zero. *)
Lemma cross_call_returns_zero :
  exists r log,
    fast_lts_array 5 Examples.X_cross Examples.y_cross (lit 5 1) = (Ret r, log)
    /\ coefficients r = [0%float; 0%float].
Proof.
  remember (fast_lts_array 5 Examples.X_cross Examples.y_cross (lit 5 1)) as m eqn:Hm.
  vm_compute in Hm. rewrite Hm.
  eexists _, _. split; reflexivity.
Qed.

(** The theorem of C10 at that call. *)
Lemma zero_coefficients_give_infinite_velocity_witness :
  exists r log,
    fast_lts_array 5 Examples.X_cross Examples.y_cross (lit 5 1) = (Ret r, log)
    /\ velocity r = PrimFloat.infinity.
Proof.
  destruct cross_call_returns_zero as (r & log & E & Ec).
  exists r, log. split; [exact E|].
  apply (proj2 (zero_coefficients_give_infinite_velocity
                  float_arctan2 float_pi float_fmod
                  float_lapack float_fltsh float_ols) 5 _ _ _ r log E).
  rewrite Ec. repeat constructor.
Defined.

(* ------------------------------------------------------------------ *)
(** ** What a run logs *)

Section Logs.
Context {F : Type}.
Context {SF : Scalar F} {SP : Special F} {LM : Libm F}.
Context {LA : Lapack F} {FH : Fltsh F} {OS : OlsScale F}.

Lemma log_bind (P : event -> Prop) {A B : Type} (m : M A) (k : A -> M B) :
  Forall P (snd m) -> (forall a, Forall P (snd (k a))) ->
  Forall P (snd (bind m k)).
Proof.
  intros Hm Hk. destruct m as [[a | e |] l]; simpl in *; auto.
  specialize (Hk a). destruct (k a) as [r l']. simpl in *.
  apply Forall_app. auto.
Qed.

Lemma log_item (P : event -> Prop) {A : Type} (a : list A) (i : Z) :
  Forall P (snd (item a i)).
Proof.
  unfold item.
  destruct (_ && _)%bool; [|constructor].
  destruct (nth_error _ _); constructor.
Qed.

Lemma log_take (P : event -> Prop) {A : Type} (a : list A) (index : list Z) :
  Forall P (snd (take a index)).
Proof.
  induction index as [|i index IH]; simpl.
  - constructor.
  - apply log_bind; [apply log_item|]. intros x.
    apply log_bind; [exact IH|]. intros xs. constructor.
Qed.

Lemma log_lift (P : event -> Prop) {A : Type} (r : exn + A) :
  Forall P (snd (lift r)).
Proof. destruct r; constructor. Qed.

Lemma log_solve (P : event -> Prop) (s : site) (A : mat F) (b : vec F) :
  P (Fitted s) -> Forall P (snd (solve s A b)).
Proof.
  intros Hs. rewrite solve_eq. destruct (qr_lstsq A b); repeat constructor; exact Hs.
Qed.

Variables (Xvar : mat F) (yvar : vec F) (n p h : nat).

Lemma log_cstep (adjh : nat) (residu : vec F) :
  Forall search_event (snd (cstep Xvar yvar adjh residu)).
Proof.
  unfold cstep.
  apply log_bind; [apply log_take|]. intros Xh.
  apply log_bind; [apply log_take|]. intros yh.
  apply log_bind; [apply log_solve; exact I|]. intros z. constructor.
Qed.

Lemma log_csteps_from (k jj adjh : nat) (residu : vec F) (prevobj : F)
    (cur : cstep_result) :
  Forall search_event (snd (csteps_from Xvar yvar k jj adjh residu prevobj cur)).
Proof.
  revert jj residu prevobj cur.
  induction k as [|k IH]; intros jj residu prevobj cur; simpl.
  - constructor.
  - apply log_bind; [apply log_cstep|]. intros [[z residu'] obj].
    destruct (_ && _)%bool; [constructor | apply IH].
Qed.

Lemma log_csteps_run (csteps : option nat) (adjh : nat) (z : vec F) :
  Forall search_event (snd (csteps_run Xvar yvar csteps adjh z)).
Proof.
  unfold csteps_run. destruct csteps; [apply log_csteps_from | constructor].
Qed.

Lemma log_draw_once (seed : Z) :
  Forall search_event (snd (draw_once Xvar yvar n p seed)).
Proof.
  unfold draw_once. destruct (randomset n p seed) as [index seed'].
  apply log_bind; [repeat constructor|]. intros _.
  apply log_bind; [apply log_take|]. intros Xs.
  apply log_bind; [apply log_take|]. intros ys.
  apply log_bind; [apply log_solve; exact I|]. intros z. constructor.
Qed.

Lemma log_draw_loop (fuel : nat) (seed : Z) :
  Forall search_event (snd (draw_loop Xvar yvar n p fuel seed)).
Proof.
  revert seed. induction fuel as [|fuel IH]; intros seed; simpl.
  - constructor.
  - apply log_bind; [apply log_draw_once|]. intros [z seed'].
    apply log_bind; [apply log_item|]. intros z00.
    destruct (z00 ==~ inf); [apply IH | constructor].
Qed.

Lemma log_coarse_trial (fuel : nat) (csteps : option nat) (adjh : nat)
    (st : search_state) :
  Forall search_event (snd (coarse_trial Xvar yvar n p fuel csteps adjh st)).
Proof.
  unfold coarse_trial.
  apply log_bind; [apply log_item|]. intros _.
  apply log_bind; [apply log_draw_loop|]. intros [z1 seed1].
  apply log_bind; [apply log_item|]. intros z0.
  destruct (isfinite z0); [|constructor].
  apply log_bind; [apply log_csteps_run|]. intros r.
  destruct (_ <?~ _); [|constructor].
  destruct (insertion _ _ _ _). constructor.
Qed.

Lemma log_coarse_trials (k fuel : nat) (csteps : option nat) (adjh : nat)
    (st : search_state) :
  Forall search_event (snd (coarse_trials Xvar yvar n p k fuel csteps adjh st)).
Proof.
  revert st. induction k as [|k IH]; intros st; simpl.
  - constructor.
  - apply log_bind; [apply log_coarse_trial|]. intros st'. apply IH.
Qed.

Lemma log_final_trials (iis : list nat) (csteps : option nat) (adjh : nat)
    (st : search_state) :
  Forall search_event (snd (final_trials Xvar yvar iis csteps adjh st)).
Proof.
  revert st. induction iis as [|ii iis IH]; intros st; simpl.
  - constructor.
  - apply log_bind; [apply log_item|]. intros b.
    destruct (isfinite b); [|constructor].
    apply log_bind; [apply log_item|]. intros z0.
    apply log_bind; [|intros st'; apply IH].
    destruct (isfinite z0); [|constructor].
    apply log_bind; [apply log_csteps_run|]. intros r.
    destruct (_ <?~ _); constructor.
Qed.

Lemma log_search_loop (k fuel final : nat) (st : search_state) :
  Forall search_event (snd (search_loop Xvar yvar n p h k fuel final st)).
Proof.
  revert final st. induction k as [|k IH]; intros final st; simpl.
  - destruct (final =? 2); constructor.
  - destruct (final =? 2); [constructor|].
    apply log_bind; [|intros st'; apply IH].
    unfold pass. destruct (final =? 0).
    + apply log_coarse_trials.
    + apply log_final_trials.
Qed.

Lemma log_search (fuel : nat) :
  Forall search_event (snd (search Xvar yvar n p h fuel)).
Proof. apply log_search_loop. Qed.

Lemma log_check_rank (A : mat F) (k : nat) :
  Forall printed_event (snd (check_rank A k)).
Proof. unfold check_rank. destruct (_ <? _); repeat constructor. Qed.

Lemma log_datamad_loop (eps : F) (m : nat) (cols : list (vec F)) :
  Forall printed_event (snd (datamad_loop eps m cols)).
Proof.
  induction cols as [|c cols IH]; simpl.
  - constructor.
  - apply log_bind.
    + rewrite datamad_entry_eq. simpl.
      destruct (doubly_degenerate eps m c); repeat constructor.
    + intros d. apply log_bind; [exact IH|]. intros ds. constructor.
Qed.

Lemma printed_is_no_draw_no_fit (l : list event) :
  Forall printed_event l -> filter is_draw l = [] /\ filter is_fit l = [].
Proof.
  induction 1 as [|e l He _ [IH1 IH2]]; [split; reflexivity|].
  destruct e; simpl in *; try contradiction. auto.
Qed.
End Logs.

(* ------------------------------------------------------------------ *)
(** ** The two ways out: exact fit, and the shortcut of alpha = 1 *)

Section Exits.
Context {F : Type}.
Context {SF : Scalar F} {SP : Special F} {LM : Libm F}.
Context {LA : Lapack F} {FH : Fltsh F} {OS : OlsScale F}.

Lemma two_entries (l : vec F) :
  2 <= List.length l -> exists a b r, l = a :: b :: r.
Proof. destruct l as [|a [|b r]]; simpl; try lia. eauto. Qed.

Lemma finish_exact (xorig yorig : ndarray F) (n p h : nat) (alpha : F)
    (datamad coeffs : vec F) (sx sy : F) (rest : vec F) :
  let c := rescale p datamad coeffs in
  let yvar := column 0 (rows yorig) in
  let fitted := matvec (rows xorig) c in
  let residuals := vsub yvar fitted in
  (fabs (raw_scale n p h alpha residuals) <?~ lit 1 7) = true ->
  c = sx :: sy :: rest ->
  finish xorig yorig n p h alpha datamad coeffs
  = (Ret (mk_Result (back_azimuth sx sy) (fone /~ norm2 c) c
            (map (fun e => fabs e <?~ lit 1 7) residuals) fitted residuals
            (of_Z 0) (r_squared h residuals yvar) nan xorig yorig),
     [Printed "An exact fit was found!"]).
Proof.
  intros c yvar fitted residuals Hs Hc. unfold finish.
  fold c. fold yvar. fold fitted. fold residuals. rewrite Hs.
  rewrite bind_ret_l. unfold print, emit. rewrite bind_Ret.
  unfold exact_fit. cbn [rf_coefficients rf_residuals rf_weights rf_fitted rf_scale].
  rewrite Hc, decode_two, bind_ret_l. reflexivity.
Qed.


(** C5: with well-shaped arrays and alpha equal to 1 the call draws no
    subset and makes one fit, the ordinary one.  If the linear algebra raises,
    so does the call.  Otherwise, when the fit has the two coefficients that
    the decoder reads, the call returns them, scaled back, with every weight
    true, the residuals of all rows, and the scale derived from those
    residuals. *)
Theorem alpha_one_is_one_ordinary_fit (fuel : nat) (X y : ndarray F) (alpha : F) :
  let n := shape0 X in
  let p := shape1 X in
  let run := fast_lts_array fuel X y alpha in
  validate X y = ret (n, p) ->
  (alpha ==~ fone) = true ->
  exists datamad l0,
    compute_datamad (rows X) (column 0 (rows y)) n p = (Ret datamad, l0)
    /\ filter is_draw (snd run) = []
    /\ filter is_fit (snd run) = [Fitted Ordinary]
    /\ match qr_lstsq (standardize_X p datamad (rows X))
               (standardize_y p datamad (column 0 (rows y))) with
       | inl e => fst run = Raise e
       | inr z =>
           let c := rescale p datamad z in
           match c with
           | _ :: _ :: _ =>
               exists r,
                 fst run = Ret r
                 /\ coefficients r = c
                 /\ flagged r = repeat true (List.length (rows X))
                 /\ fitted r = matvec (rows X) c
                 /\ residuals r = vsub (column 0 (rows y)) (matvec (rows X) c)
                 /\ scale r = ols_scale (List.length (rows X)) p (residuals r)
           | _ => fst run = Raise (IndexError "index out of bounds")
           end
       end.
Proof.
  intros n p run Hv Ha.
  destruct (datamad_loop_returns (eps_of p) n
              (map (data_column (rows X) (column 0 (rows y)) p) (seq 0 (p + 1))))
    as (datamad & l0 & Hd & Hlen & _).
  rewrite length_map, length_seq in Hlen.
  fold (compute_datamad (rows X) (column 0 (rows y)) n p) in Hd.
  exists datamad, l0. split; [exact Hd|].
  pose proof (log_check_rank (rows X) p) as Hrk.
  pose proof (log_datamad_loop (eps_of p) n
                (map (data_column (rows X) (column 0 (rows y)) p) (seq 0 (p + 1)))) as Hl0.
  unfold compute_datamad in Hd. rewrite Hd in Hl0. simpl in Hl0.
  assert (Hrun : run
    = bind (check_rank (rows X) p) (fun _ =>
        bind (Ret datamad, l0) (fun datamad =>
          least_squares_fit (standardize_X p datamad (rows X))
            (standardize_y p datamad (column 0 (rows y))) datamad X y))).
  { unfold run, fast_lts_array. rewrite Hv, bind_ret_l.
    unfold after_validation, compute_datamad. rewrite Hd.
    rewrite !bind_Ret. cbn beta. rewrite Ha. reflexivity. }
  destruct (check_rank (rows X) p) as [[[] | e |] lrk] eqn:Erk;
    try (unfold check_rank in Erk; destruct (_ <? _); discriminate Erk).
  simpl in Hrk.
  apply printed_is_no_draw_no_fit in Hrk as [Hrk1 Hrk2].
  apply printed_is_no_draw_no_fit in Hl0 as [Hl01 Hl02].
  rewrite !bind_Ret in Hrun. cbn beta in Hrun.
  unfold least_squares_fit in Hrun. rewrite solve_eq in Hrun.
  assert (Hp : List.length datamad - 1 = p) by lia.
  assert (Hn : List.length (standardize_X p datamad (rows X)) = List.length (rows X))
    by (unfold standardize_X; apply length_map).
  rewrite Hp, Hn in Hrun.
  destruct (qr_lstsq _ _) as [e | z].
  - rewrite Hrun. cbn [fst snd bind]. rewrite !filter_app, Hrk1, Hrk2, Hl01, Hl02.
    repeat split; reflexivity.
  - rewrite bind_Ret in Hrun. cbn beta in Hrun.
    destruct (rescale p datamad z) as [|sx [|sy rest]] eqn:Ec.
    + unfold decode in Hrun. rewrite Hrun. cbn -[filter]. rewrite !filter_app, Hrk1, Hrk2, Hl01, Hl02.
      repeat split; reflexivity.
    + unfold decode in Hrun. rewrite item_0, bind_ret_l, item_1_single in Hrun.
      rewrite Hrun. cbn -[filter]. rewrite !filter_app, Hrk1, Hrk2, Hl01, Hl02.
      repeat split; reflexivity.
    + rewrite decode_two, bind_ret_l in Hrun.
      rewrite Hrun. cbn -[filter]. rewrite !filter_app, Hrk1, Hrk2, Hl01, Hl02.
      split; [reflexivity|]. split; [reflexivity|].
      eexists. split; [reflexivity|]. repeat split; reflexivity.
Qed.
End Exits.

(** A call on exact delays: what the standardization and the search hand
    to the scale estimate. *)
Lemma exact_call_premises :
  exists datamad l0 st l1,
    compute_datamad (rows Examples.X6) (column 0 (rows Examples.y_exact)) 6 2
    = (Ret datamad, l0)
    /\ search (standardize_X 2 datamad (rows Examples.X6))
         (standardize_y 2 datamad (column 0 (rows Examples.y_exact)))
         6 2 (hcalc (lit 5 1) 6 2) 5
       = (Ret st, l1)
    /\ (fabs (raw_scale 6 2 (hcalc (lit 5 1) 6 2) (lit 5 1)
                (vsub (column 0 (rows Examples.y_exact))
                   (matvec (rows Examples.X6) (rescale 2 datamad (coeffs st)))))
        <?~ lit 1 7) = true
    /\ 2 <= List.length (rescale 2 datamad (coeffs st)).
Proof.
  remember (compute_datamad (rows Examples.X6) (column 0 (rows Examples.y_exact)) 6 2)
    as m eqn:Hm.
  vm_compute in Hm. rewrite Hm.
  match type of Hm with _ = (Ret ?d, ?l) => exists d, l end.
  remember (search _ _ 6 2 (hcalc (lit 5 1) 6 2) 5) as s eqn:Hs.
  vm_compute in Hs. rewrite Hs.
  match type of Hs with _ = (Ret ?st, ?l) => exists st, l end.
  split; [reflexivity|]. split; [reflexivity|].
  split; [vm_compute; reflexivity|]. vm_compute. lia.
Qed.


(** The theorem of C5 at a call with alpha = 1. *)
Lemma alpha_one_is_one_ordinary_fit_witness :
  filter is_draw (snd (fast_lts_array 5 Examples.X6 Examples.y_noisy fone)) = []
  /\ filter is_fit (snd (fast_lts_array 5 Examples.X6 Examples.y_noisy fone))
     = [Fitted Ordinary].
Proof.
  assert (Ha : (@fone float _ ==~ fone) = true) by (vm_compute; reflexivity).
  destruct (alpha_one_is_one_ordinary_fit 5 Examples.X6 Examples.y_noisy fone
              eq_refl Ha)
    as (datamad & l0 & _ & H1 & H2 & _).
  split; assumption.
Defined.

(* ------------------------------------------------------------------ *)
(** ** Determinism *)

Section Determinism.
Context {F : Type}.
Context {SF : Scalar F} {SP : Special F} {LM : Libm F}.
Context {LA : Lapack F} {FH : Fltsh F} {OS : OlsScale F}.

Lemma mono_const {A : Type} (m : M A) : fuel_monotone (fun _ => m).
Proof. intros a b _ _. reflexivity. Qed.

Lemma mono_bind {A B : Type} (f : nat -> M A) (g : A -> nat -> M B) :
  fuel_monotone f -> (forall x, fuel_monotone (g x)) ->
  fuel_monotone (fun k => bind (f k) (fun x => g x k)).
Proof.
  intros Hf Hg a b Hab Hc. unfold complete in *.
  assert (Hfa : complete (f a)).
  { unfold complete. destruct (f a) as [[x | e |] l]; simpl in *; congruence. }
  rewrite (Hf a b Hab Hfa).
  destruct (f a) as [[x | e |] l]; simpl in *; try reflexivity.
  assert (Hga : complete (g x a)).
  { unfold complete. destruct (g x a) as [[u | e |] l']; simpl in *; congruence. }
  rewrite (Hg x a b Hab Hga). reflexivity.
Qed.

Lemma returned_complete {A : Type} (m : M A) : returned m = true -> complete m.
Proof.
  unfold returned, complete. destruct (fst m); congruence.
Qed.

Variables (Xvar : mat F) (yvar : vec F) (n p h : nat).

Lemma mono_draw_loop (seed : Z) :
  fuel_monotone (fun fuel => draw_loop Xvar yvar n p fuel seed).
Proof.
  intros a. revert seed. induction a as [|a IH]; intros seed b Hab Hc.
  - exfalso. apply Hc. reflexivity.
  - destruct b as [|b]; [lia|]. simpl in *.
    destruct (draw_once Xvar yvar n p seed) as [[[z seed'] | e |] l]; simpl in *;
      try reflexivity.
    destruct (first_entry z) as [[z00 | e |] l']; simpl in *; try reflexivity.
    destruct (z00 ==~ inf); [|reflexivity].
    assert (Hca : complete (draw_loop Xvar yvar n p a seed')).
    { unfold complete in *.
      destruct (draw_loop Xvar yvar n p a seed') as [[u | e |] l'']; simpl in *;
        congruence. }
    rewrite (IH seed' b ltac:(lia) Hca). reflexivity.
Qed.

Lemma mono_coarse_trial (csteps : option nat) (adjh : nat) (st : search_state) :
  fuel_monotone (fun fuel => coarse_trial Xvar yvar n p fuel csteps adjh st).
Proof.
  unfold coarse_trial.
  apply (mono_bind (f := fun _ => first_entry (z st))); [apply mono_const|].
  intros _.
  apply (mono_bind (f := fun fuel => draw_loop Xvar yvar n p fuel (seed st)));
    [apply mono_draw_loop|].
  intros [z1 seed1]. apply mono_const.
Qed.

Lemma mono_coarse_trials (k : nat) (csteps : option nat) (adjh : nat)
    (st : search_state) :
  fuel_monotone (fun fuel => coarse_trials Xvar yvar n p k fuel csteps adjh st).
Proof.
  revert st. induction k as [|k IH]; intros st; simpl.
  - apply mono_const.
  - apply (mono_bind (f := fun fuel => coarse_trial Xvar yvar n p fuel csteps adjh st));
      [apply mono_coarse_trial|].
    intros st'. apply IH.
Qed.

Lemma mono_search_loop (k final : nat) (st : search_state) :
  fuel_monotone (fun fuel => search_loop Xvar yvar n p h k fuel final st).
Proof.
  revert final st. induction k as [|k IH]; intros final st; simpl.
  - destruct (final =? 2); apply mono_const.
  - destruct (final =? 2); [apply mono_const|].
    apply (mono_bind (f := fun fuel => pass Xvar yvar n p h fuel final st)).
    + unfold pass. destruct (final =? 0);
        [apply mono_coarse_trials | apply mono_const].
    + intros st'. apply IH.
Qed.

Lemma mono_search : fuel_monotone (fun fuel => search Xvar yvar n p h fuel).
Proof. apply mono_search_loop. Qed.
End Determinism.

Section DeterminismOfTheCall.
Context {F : Type}.
Context {SF : Scalar F} {SP : Special F} {LM : Libm F}.
Context {LA : Lapack F} {FH : Fltsh F} {OS : OlsScale F}.

Lemma mono_call (X y : ndarray F) (alpha : F) :
  fuel_monotone (fun fuel => fast_lts_array fuel X y alpha).
Proof.
  unfold fast_lts_array.
  apply (mono_bind (f := fun _ => validate X y)); [apply mono_const|].
  intros [n p]. unfold after_validation.
  apply (mono_bind (f := fun _ => check_rank (rows X) p)); [apply mono_const|].
  intros _.
  apply (mono_bind
           (f := fun _ => compute_datamad (rows X) (column 0 (rows y)) n p));
    [apply mono_const|].
  intros datamad. destruct (alpha ==~ fone); [apply mono_const|].
  unfold general_path.
  apply (mono_bind (f := fun fuel => search _ _ n p (hcalc alpha n p) fuel));
    [apply mono_search|].
  intros st. apply mono_const.
Qed.

End DeterminismOfTheCall.

(** Two calls on noisy delays run to their end. *)
Lemma noisy_calls_return :
  returned (fast_lts_array 1 Examples.X6 Examples.y_noisy (lit 5 1)) = true
  /\ returned (fast_lts_array 7 Examples.X6 Examples.y_noisy (lit 5 1)) = true.
Proof. vm_compute. split; reflexivity. Qed.


(* ------------------------------------------------------------------ *)
(** ** Sorting and selecting, for every scalar *)

Section SortingFacts.
Context {F : Type} `{Scalar F}.

Lemma insert_by_perm {A : Type} (key : A -> F) (x : A) (l : list A) :
  Permutation (insert_by key x l) (x :: l).
Proof.
  induction l as [|e l IH]; simpl.
  - apply Permutation_refl.
  - destruct (np_lt (key e) (key x)).
    + apply perm_trans with (e :: x :: l); [apply perm_skip; exact IH | apply perm_swap].
    + apply Permutation_refl.
Qed.

Lemma sort_by_perm {A : Type} (key : A -> F) (l : list A) :
  Permutation (sort_by key l) l.
Proof.
  induction l as [|x l IH]; simpl.
  - apply perm_nil.
  - apply perm_trans with (x :: sort_by key l);
      [apply insert_by_perm | apply perm_skip; exact IH].
Qed.

Lemma insert_by_map {A : Type} (key : A -> F) (x : A) (l : list A) :
  map key (insert_by key x l) = insert_by (fun v => v) (key x) (map key l).
Proof.
  induction l as [|e l IH]; simpl; [reflexivity|].
  destruct (np_lt (key e) (key x)); simpl; [rewrite IH|]; reflexivity.
Qed.

Lemma sort_by_map {A : Type} (key : A -> F) (l : list A) :
  map key (sort_by key l) = np_sort (map key l).
Proof.
  unfold np_sort. induction l as [|x l IH]; simpl; [reflexivity|].
  rewrite insert_by_map, IH. reflexivity.
Qed.

Lemma enumerate_snd (l : vec F) : map snd (enumerate l) = l.
Proof.
  unfold enumerate. generalize 0 as s.
  induction l as [|x l IH]; intros s; simpl; [reflexivity|].
  rewrite IH. reflexivity.
Qed.

Lemma enumerate_fst (l : vec F) : map fst (enumerate l) = seq 0 (List.length l).
Proof.
  unfold enumerate. generalize 0 as s.
  induction l as [|x l IH]; intros s; simpl; [reflexivity|].
  rewrite IH. reflexivity.
Qed.

Lemma enumerate_in (l : vec F) (d : F) (i : nat) (v : F) :
  In (i, v) (enumerate l) -> nth i l d = v.
Proof.
  unfold enumerate.
  assert (G : forall s, In (i, v) (combine (seq s (List.length l)) l) ->
                        s <= i /\ nth (i - s) l d = v).
  { induction l as [|x l IH]; intros s Hin; simpl in Hin; [contradiction|].
    destruct Hin as [Hin | Hin].
    - injection Hin as <- <-. rewrite Nat.sub_diag. auto.
    - apply IH in Hin as [Hs Hn]. split; [lia|].
      replace (i - s) with (S (i - S s)) by lia. exact Hn. }
  intros Hin. apply G in Hin as [_ Hn]. rewrite Nat.sub_0_r in Hn. exact Hn.
Qed.

Lemma argsort_perm (l : vec F) :
  Permutation (np_argsort l) (seq 0 (List.length l)).
Proof.
  unfold np_argsort. rewrite <- enumerate_fst.
  apply Permutation_map, sort_by_perm.
Qed.

Lemma argsort_sorts (l : vec F) (d : F) :
  map (fun i => nth i l d) (np_argsort l) = np_sort l.
Proof.
  unfold np_argsort. rewrite map_map.
  rewrite <- (enumerate_snd l) at 2. rewrite <- sort_by_map.
  apply map_ext_in. intros [i v] Hin. simpl.
  apply enumerate_in.
  apply (Permutation_in _ (sort_by_perm (@snd nat F) (enumerate l))). exact Hin.
Qed.

Lemma insert_nat_perm (x : nat) (l : list nat) :
  Permutation (insert_nat x l) (x :: l).
Proof.
  induction l as [|e l IH]; simpl.
  - apply Permutation_refl.
  - destruct (e <? x).
    + apply perm_trans with (e :: x :: l); [apply perm_skip; exact IH | apply perm_swap].
    + apply Permutation_refl.
Qed.

Lemma sort_nat_perm (l : list nat) : Permutation (sort_nat l) l.
Proof.
  induction l as [|x l IH]; simpl.
  - apply perm_nil.
  - apply perm_trans with (x :: sort_nat l);
      [apply insert_nat_perm | apply perm_skip; exact IH].
Qed.

Lemma nth_map_default {A B : Type} (f : A -> B) (l : list A) (i : nat)
    (d : A) (d' : B) :
  f d = d' -> nth i (map f l) d' = f (nth i l d).
Proof. intros <-. apply map_nth. Qed.

Lemma zip_with_length (f : F -> F -> F) (a b : vec F) :
  List.length (zip_with f a b) = Nat.min (List.length a) (List.length b).
Proof.
  revert b. induction a as [|x a IH]; intros [|y b]; simpl; auto.
Qed.

Lemma zip_with_nth (f : F -> F -> F) (a b : vec F) (i : nat) (d da db : F) :
  i < List.length a -> i < List.length b ->
  nth i (zip_with f a b) d = f (nth i a da) (nth i b db).
Proof.
  revert b i. induction a as [|x a IH]; intros [|y b] [|i] Ha Hb; simpl in *;
    try lia; [reflexivity|].
  apply IH; lia.
Qed.

Lemma item_of_nat {A : Type} (l : list A) (i : nat) (d : A) :
  i < List.length l -> item l (Z.of_nat i) = ret (nth i l d).
Proof.
  intros Hi. unfold item.
  replace (Z.of_nat i <? 0)%Z with false by (symmetry; apply Z.ltb_ge; lia).
  replace ((0 <=? Z.of_nat i)%Z && (Z.of_nat i <? Z.of_nat (List.length l))%Z)
    with true.
  - rewrite Nat2Z.id. rewrite (nth_error_nth' l d Hi). reflexivity.
  - symmetry. apply andb_true_intro. split; [apply Z.leb_le | apply Z.ltb_lt]; lia.
Qed.

Lemma take_of_nat {A : Type} (l : list A) (idx : list nat) (d : A) :
  (forall i, In i idx -> i < List.length l) ->
  take l (map Z.of_nat idx) = ret (map (fun i => nth i l d) idx).
Proof.
  induction idx as [|i idx IH]; intros Hin; simpl; [reflexivity|].
  rewrite (item_of_nat l d (Hin i (or_introl eq_refl))), bind_ret_l.
  rewrite IH by (intros j Hj; apply Hin; right; exact Hj).
  rewrite bind_ret_l. reflexivity.
Qed.

(** The residuals of selected rows are the selected residuals. *)
Lemma residuals_of_rows (X : mat F) (y w : vec F) (idx : list nat) :
  List.length X = List.length y ->
  (forall i, In i idx -> i < List.length X) ->
  vsub (entries_of idx y) (matvec (rows_of idx X) w)
  = map (fun i => nth i (vsub y (matvec X w)) fzero) idx.
Proof.
  intros Hlen Hin. unfold entries_of, rows_of, vsub, matvec.
  induction idx as [|i idx IH]; simpl; [reflexivity|].
  rewrite IH by (intros j Hj; apply Hin; right; exact Hj).
  f_equal.
  rewrite (zip_with_nth fsub y (map (fun r => dot r w) X) fzero fzero (dot [] w)).
  - rewrite (map_nth (fun r => dot r w)). reflexivity.
  - rewrite <- Hlen. apply Hin. left. reflexivity.
  - rewrite length_map. apply Hin. left. reflexivity.
Qed.
End SortingFacts.

(* ------------------------------------------------------------------ *)
(** ** Sums and order on exact rationals *)

Section ExactSums.
Local Open Scope Q_scope.

Lemma fold_left_Qplus (l : list Q) (a : Q) :
  fold_left Qplus l a == a + fold_left Qplus l 0.
Proof.
  revert a. induction l as [|x l IH]; intros a; simpl.
  - lra.
  - rewrite (IH (a + x)), (IH (0 + x)). lra.
Qed.

Lemma np_sum_nil_Q : @np_sum Q _ [] == 0.
Proof. reflexivity. Qed.

Lemma np_sum_cons_Q (x : Q) (l : list Q) : np_sum (x :: l) == x + np_sum l.
Proof.
  unfold np_sum. cbn [fold_left fadd Q_scalar fzero of_Z].
  rewrite fold_left_Qplus. change (inject_Z 0) with 0. lra.
Qed.

Lemma np_sum_perm (l l' : list Q) : Permutation l l' -> np_sum l == np_sum l'.
Proof.
  induction 1 as [|x l l' _ IH|x y l|l l' l'' _ IH1 _ IH2].
  - reflexivity.
  - rewrite !np_sum_cons_Q, IH. reflexivity.
  - rewrite !np_sum_cons_Q. lra.
  - rewrite IH1. exact IH2.
Qed.

Lemma np_sum_pointwise (l l' : list Q) :
  Forall2 Qeq l l' -> np_sum l == np_sum l'.
Proof.
  induction 1 as [|x y l l' Hxy _ IH].
  - reflexivity.
  - rewrite !np_sum_cons_Q, IH, Hxy. reflexivity.
Qed.

Lemma np_lt_Q (a b : Q) : @np_lt Q _ a b = true <-> a < b.
Proof.
  unfold np_lt, isnan. cbn [fltb feqb Q_scalar].
  replace (Qeq_bool b b) with true
    by (symmetry; apply Qeq_bool_iff; reflexivity).
  cbn [negb andb]. rewrite orb_false_r, negb_true_iff.
  split.
  - intros Hb. apply Qnot_le_lt. intros Hle.
    apply Qle_bool_iff in Hle. congruence.
  - intros Hlt. destruct (Qle_bool b a) eqn:E; [|reflexivity].
    apply Qle_bool_iff in E. lra.
Qed.

Lemma insert_sorted (x : Q) (l : list Q) :
  StronglySorted Qle l -> StronglySorted Qle (insert_by (fun v => v) x l).
Proof.
  induction 1 as [|e l Hs IH He]; simpl.
  - constructor; constructor.
  - destruct (np_lt e x) eqn:E.
    + apply np_lt_Q in E. constructor; [exact IH|].
      apply (Permutation_Forall (Permutation_sym (insert_by_perm (fun v => v) x l))).
      constructor; [lra | exact He].
    + assert (Hxe : x <= e).
      { apply Qnot_lt_le. intros Hlt. apply np_lt_Q in Hlt. congruence. }
      constructor; [constructor; assumption|].
      constructor; [exact Hxe|].
      eapply Forall_impl; [|exact He]. intros v Hv. simpl in Hv. lra.
Qed.

Lemma np_sort_sorted (l : list Q) : StronglySorted Qle (np_sort l).
Proof.
  unfold np_sort. induction l as [|x l IH]; simpl.
  - constructor.
  - apply insert_sorted. exact IH.
Qed.

(** Of all ways to pick [m] entries of a sorted list, the first [m] have
    the smallest sum. *)
Lemma smallest_sum (S : list Q) :
  StronglySorted Qle S ->
  forall M R, Permutation (M ++ R) S ->
              np_sum (firstn (List.length M) S) <= np_sum M.
Proof.
  induction 1 as [|a S' Hs IH Ha]; intros M R Hp.
  - apply Permutation_sym, Permutation_nil, app_eq_nil in Hp as [-> _].
    apply Qle_refl.
  - destruct M as [|b M']; [apply Qle_refl|].
    assert (Hin : In a ((b :: M') ++ R)).
    { apply (Permutation_in _ (Permutation_sym Hp)). left. reflexivity. }
    apply in_app_or in Hin as [Hin | Hin].
    + apply in_split in Hin as (M1 & M2 & E).
      rewrite E in Hp |- *. rewrite <- app_assoc in Hp. simpl in Hp.
      apply Permutation_sym, Permutation_cons_app_inv, Permutation_sym in Hp.
      rewrite app_assoc in Hp.
      specialize (IH (M1 ++ M2) R Hp).
      rewrite length_app in *. simpl. rewrite Nat.add_succ_r. simpl.
      rewrite np_sum_cons_Q.
      rewrite <- (np_sum_perm (Permutation_middle M1 M2 a)), np_sum_cons_Q.
      lra.
    + apply in_split in Hin as (R1 & R2 & E).
      rewrite E in Hp. rewrite app_assoc in Hp.
      apply Permutation_sym, Permutation_cons_app_inv, Permutation_sym in Hp.
      assert (Hab : a <= b).
      { rewrite Forall_forall in Ha. apply Ha.
        apply (Permutation_in _ Hp). left. reflexivity. }
      assert (Hp' : Permutation (M' ++ (b :: R1 ++ R2)) S').
      { apply perm_trans with (((b :: M') ++ R1) ++ R2); [|exact Hp].
        rewrite <- app_assoc. simpl.
        apply Permutation_sym, Permutation_middle. }
      specialize (IH M' (b :: R1 ++ R2) Hp').
      simpl. rewrite !np_sum_cons_Q. lra.
Qed.

Lemma sqr_abs (x : Q) : @sqr Q _ (Qabs x) == sqr x.
Proof.
  unfold sqr. cbn [fmul Q_scalar].
  apply Qabs_case; intros _; lra.
Qed.

Lemma squares_sorted (l : list Q) :
  Forall (fun x => 0 <= x) l -> StronglySorted Qle l ->
  StronglySorted Qle (map (@sqr Q _) l).
Proof.
  intros Hpos Hs. induction Hs as [|a l Hs IH Ha]; simpl.
  - constructor.
  - inversion Hpos as [|? ? Ha0 Hl0]; subst.
    constructor; [apply IH; exact Hl0|].
    rewrite Forall_map. rewrite Forall_forall in *.
    intros x Hx. specialize (Ha x Hx). specialize (Hl0 x Hx).
    unfold sqr. cbn [fmul Q_scalar]. nra.
Qed.
End ExactSums.

(* ------------------------------------------------------------------ *)
(** ** C-steps never increase the trimmed objective *)

Section CStepDescent.
Local Open Scope Q_scope.
Variable LA : Lapack Q.
Variables (Xvar : mat Q) (yvar : vec Q) (adjh : nat).
Hypothesis Hlen : List.length Xvar = List.length yvar.
Hypothesis Hls : least_squares_solver LA Xvar yvar.

Local Abbreviation residual := (residual_of Xvar yvar).
Local Abbreviation ranked := (ranked_indices adjh).

Lemma residual_length (z : vec Q) : List.length (residual z) = List.length Xvar.
Proof.
  unfold residual_of, vsub, matvec. rewrite zip_with_length, length_map.
  unfold vec, mat in *. lia.
Qed.

Lemma pick_all (v : vec Q) : pick v (seq 0 (List.length v)) = v.
Proof.
  unfold pick. symmetry. apply (nth_ext _ _ 0 0).
  - rewrite length_map, length_seq. reflexivity.
  - intros i Hi.
    rewrite (nth_indep (map (fun j => nth j v 0) (seq 0 (List.length v)))
               0 ((fun j => nth j v 0) 0%nat))
      by (rewrite length_map, length_seq; exact Hi).
    rewrite (map_nth (fun j => nth j v 0) (seq 0 (List.length v)) 0%nat i).
    rewrite seq_nth by exact Hi. reflexivity.
Qed.

Lemma sqr_abs_0 : @sqr Q _ (Qabs 0) = 0.
Proof. reflexivity. Qed.

Lemma sqr_0 : @sqr Q _ 0 = 0.
Proof. reflexivity. Qed.

Lemma pick_squares (r : vec Q) (idx : list nat) :
  np_sum (map (@sqr Q _) (pick r idx)) == np_sum (pick (squares r) idx).
Proof.
  apply np_sum_pointwise. unfold pick, squares. rewrite map_map.
  induction idx as [|i idx IH]; simpl; constructor; [|exact IH].
  rewrite map_map.
  rewrite (nth_map_default (fun x => @sqr Q _ (Qabs x)) r i 0 sqr_abs_0).
  symmetry. apply sqr_abs.
Qed.

(** The objective is the sum of the squares at the ranked indices. *)
Lemma objective_at_ranked (r : vec Q) :
  trimmed_objective adjh r = np_sum (pick (squares r) (ranked r)).
Proof.
  unfold trimmed_objective, pick, squares, ranked_indices. f_equal.
  cbn [fabs Q_scalar].
  rewrite <- (argsort_sorts (map Qabs r) 0), firstn_map, map_map.
  apply map_ext. intros i.
  rewrite (nth_map_default (@sqr Q _) (map Qabs r) i 0 sqr_0). reflexivity.
Qed.

Lemma sorted_squares (r : vec Q) :
  StronglySorted Qle (map (@sqr Q _) (np_sort (map Qabs r))).
Proof.
  apply squares_sorted; [|apply np_sort_sorted].
  apply (Permutation_Forall (Permutation_sym (sort_by_perm (fun v => v) (map Qabs r)))).
  rewrite Forall_map, Forall_forall. intros x _. apply Qabs_nonneg.
Qed.

(** The objective is at most the sum of the squares at any [min adjh n]
    distinct indices. *)
Lemma objective_is_smallest (r : vec Q) (idx rest : list nat) :
  Permutation (idx ++ rest) (seq 0 (List.length r)) ->
  List.length idx = Nat.min adjh (List.length r) ->
  trimmed_objective adjh r <= np_sum (pick (squares r) idx).
Proof.
  intros Hp Hn. unfold trimmed_objective. cbn [fabs Q_scalar].
  rewrite <- firstn_map.
  set (S := map (@sqr Q _) (np_sort (map Qabs r))).
  assert (HS : Permutation S (squares r)).
  { unfold S, squares. apply Permutation_map, sort_by_perm. }
  assert (HlS : List.length S = List.length r).
  { rewrite (Permutation_length HS). unfold squares. rewrite !length_map. reflexivity. }
  assert (Hf : firstn adjh S = firstn (List.length (pick (squares r) idx)) S).
  { unfold pick. rewrite length_map, Hn.
    destruct (Nat.le_ge_cases adjh (List.length r)) as [Hle | Hge].
    - rewrite Nat.min_l by exact Hle. reflexivity.
    - rewrite Nat.min_r by exact Hge.
      rewrite !firstn_all2 by lia. reflexivity. }
  rewrite Hf.
  apply (smallest_sum (sorted_squares r) (pick (squares r) idx) (pick (squares r) rest)).
  apply perm_trans with (pick (squares r) (seq 0 (List.length (squares r)))).
  - change (pick (squares r) idx ++ pick (squares r) rest)
      with (map (fun i => nth i (squares r) 0) idx
            ++ map (fun i => nth i (squares r) 0) rest).
    rewrite <- (map_app (fun i => nth i (squares r) 0) idx rest).
    apply (Permutation_map (fun i => nth i (squares r) 0)).
    replace (List.length (squares r)) with (List.length r)
      by (unfold squares; rewrite !length_map; reflexivity).
    exact Hp.
  - rewrite pick_all. apply Permutation_sym. exact HS.
Qed.

Lemma ranked_split (r : vec Q) :
  Permutation (sort_nat (ranked r) ++ skipn adjh (np_argsort (map Qabs r)))
    (seq 0 (List.length r)).
Proof.
  apply perm_trans with (np_argsort (map Qabs r)).
  - unfold ranked_indices. rewrite <- (firstn_skipn adjh (np_argsort (map Qabs r))) at 3.
    apply Permutation_app_tail, sort_nat_perm.
  - rewrite <- (length_map Qabs r). apply argsort_perm.
Qed.

Lemma ranked_in_range (r : vec Q) (i : nat) :
  In i (sort_nat (ranked r)) -> (i < List.length r)%nat.
Proof.
  intros Hin.
  assert (Hs : In i (seq 0 (List.length r))).
  { apply (Permutation_in _ (ranked_split r)). apply in_or_app. left. exact Hin. }
  apply in_seq in Hs. lia.
Qed.

Lemma ranked_length (r : vec Q) :
  List.length (sort_nat (ranked r)) = Nat.min adjh (List.length r).
Proof.
  rewrite (Permutation_length (sort_nat_perm (ranked r))). unfold ranked_indices.
  rewrite length_firstn, (Permutation_length (argsort_perm (map Qabs r))).
  rewrite length_seq, length_map. reflexivity.
Qed.

(** One C-step: it returns, and the new objective is at most the old. *)
Lemma cstep_descends (z : vec Q) :
  exists z',
    cstep Xvar yvar adjh (residual z)
    = (Ret (z', residual z', trimmed_objective adjh (residual z')), [Fitted CStep])
    /\ trimmed_objective adjh (residual z') <= trimmed_objective adjh (residual z).
Proof.
  set (r := residual z).
  set (obs := sort_nat (ranked r)).
  assert (Hr : List.length r = List.length Xvar) by apply residual_length.
  assert (Hin : forall i, In i obs -> (i < List.length Xvar)%nat).
  { intros i Hi. rewrite <- Hr. apply ranked_in_range. exact Hi. }
  destruct (Hls obs Hin) as (z' & Hz' & Hmin).
  exists z'. split.
  - unfold cstep. cbn [fabs Q_scalar]. fold (residual z). fold r.
    fold (ranked r). fold obs.
    rewrite (take_of_nat Xvar obs [] Hin), bind_ret_l.
    rewrite (take_of_nat yvar obs (@fzero Q _))
      by (intros i Hi; rewrite <- Hlen; apply Hin; exact Hi).
    rewrite bind_ret_l. rewrite solve_eq.
    fold (rows_of obs Xvar). fold (entries_of obs yvar).
    rewrite Hz', bind_Ret. reflexivity.
  - set (r' := residual z').
    assert (Hr' : List.length r' = List.length Xvar) by apply residual_length.
    (* the new objective is at most the new sum on the old subset *)
    apply Qle_trans with (np_sum (pick (squares r') obs)).
    { apply objective_is_smallest with (rest := skipn adjh (np_argsort (map Qabs r))).
      - rewrite Hr', <- Hr. apply ranked_split.
      - unfold obs. rewrite ranked_length, Hr, Hr'. reflexivity. }
    (* which the refit made no larger *)
    rewrite <- pick_squares.
    specialize (Hmin z). unfold rss in Hmin.
    rewrite !(residuals_of_rows Xvar yvar _ obs Hlen Hin) in Hmin.
    fold (residual z') in Hmin. fold (residual z) in Hmin. fold r r' in Hmin.
    apply Qle_trans with (np_sum (map (@sqr Q _) (pick r obs))); [exact Hmin|].
    (* and the old sum on the old subset is the old objective *)
    rewrite pick_squares, (objective_at_ranked r).
    apply Qle_lteq. right.
    apply np_sum_perm. unfold pick. apply Permutation_map, sort_nat_perm.
Qed.

Lemma csteps_from_descends (k : nat) :
  forall (jj : nat) (z : vec Q) (prevobj : Q) (cur : cstep_result),
  exists r log objs,
    csteps_from Xvar yvar k jj adjh (residual z) prevobj cur = (Ret r, log)
    /\ cs_history r = cs_history cur ++ objs
    /\ descending_from (trimmed_objective adjh (residual z)) objs.
Proof.
  induction k as [|k IH]; intros jj z prevobj cur.
  - exists cur, [], []. split; [reflexivity|]. split.
    + rewrite app_nil_r. reflexivity.
    + constructor.
  - destruct (cstep_descends z) as (z' & Hstep & Hle).
    cbn [csteps_from]. rewrite Hstep, bind_Ret. cbn beta iota.
    destruct ((1 <=? jj)%nat && _)%bool.
    + eexists _, _, [_]. split; [reflexivity|]. split; [reflexivity|].
      constructor; [exact Hle | constructor].
    + destruct (IH (S jj) z' (trimmed_objective adjh (residual z'))
                  (mk_cstep z' (trimmed_objective adjh (residual z'))
                     (cs_history cur ++ [trimmed_objective adjh (residual z')])))
        as (r & log & objs & Hrun & Hh & Hd).
      rewrite Hrun. cbn [fst snd].
      eexists _, _, (_ :: objs). split; [reflexivity|]. split.
      * rewrite Hh. cbn [cs_history]. rewrite <- app_assoc. reflexivity.
      * constructor; [exact Hle | exact Hd].
Qed.
End CStepDescent.

Lemma descending_non_increasing (bound : Q) (l : list Q) :
  descending_from bound l -> non_increasing l.
Proof.
  induction 1 as [bound | bound x l Hx Hd IH]; intros j a b Ha Hb.
  - destruct j; discriminate Ha.
  - destruct j as [|j]; simpl in Ha, Hb.
    + injection Ha as <-. destruct Hd as [| ? y l' Hy _]; [discriminate Hb|].
      simpl in Hb. injection Hb as <-. exact Hy.
    + exact (IH j a b Ha Hb).
Qed.


(* ------------------------------------------------------------------ *)
(** ** The reference solver on one unknown is a least-squares solver *)

Section LineFits.
Local Open Scope Q_scope.

Lemma identity_row_nth (m i j : nat) :
  (i < m)%nat ->
  nth j (@identity_row Q _ m i) 0 = if (i =? j)%nat then 1 else 0.
Proof.
  revert i j. induction m as [|m IH]; intros i j Hi; [lia|].
  destruct i as [|i]; simpl.
  - destruct j as [|j]; [reflexivity|]. simpl.
    apply nth_repeat.
  - destruct j as [|j]; [reflexivity|]. simpl. apply IH. lia.
Qed.

Lemma identity_row_length (m i : nat) :
  (i < m)%nat -> List.length (@identity_row Q _ m i) = m.
Proof.
  revert i. induction m as [|m IH]; intros i Hi; [lia|].
  destruct i as [|i]; simpl.
  - rewrite repeat_length. reflexivity.
  - rewrite IH by lia. reflexivity.
Qed.

Lemma dot_cons (x y : Q) (a b : vec Q) : dot (x :: a) (y :: b) == x * y + dot a b.
Proof. unfold dot. simpl. apply np_sum_cons_Q. Qed.

(** The product of the [j]-th unit vector with [b]. *)
Lemma dot_unit (j : nat) (b : vec Q) (s : nat) :
  dot (map (fun i => if (i =? j)%nat then 1 else 0) (seq s (List.length b))) b
  == if ((s <=? j) && (j <? s + List.length b))%nat%bool
     then nth (j - s) b 0 else 0.
Proof.
  revert s. induction b as [|x b IH]; intros s.
  - simpl. rewrite Nat.add_0_r.
    destruct ((s <=? j)%nat && (j <? s)%nat)%bool eqn:E; [|reflexivity].
    apply andb_prop in E as [E1 E2].
    apply Nat.leb_le in E1. apply Nat.ltb_lt in E2. lia.
  - simpl List.length. simpl seq. simpl map. rewrite dot_cons, IH.
    destruct (Nat.eq_dec s j) as [-> | Hne].
    + rewrite Nat.eqb_refl, Nat.sub_diag. simpl nth.
      replace ((S j <=? j)%nat) with false by (symmetry; apply Nat.leb_gt; lia).
      replace ((j <=? j)%nat) with true by (symmetry; apply Nat.leb_le; lia).
      replace ((j <? j + S (List.length b))%nat) with true
        by (symmetry; apply Nat.ltb_lt; lia).
      simpl. lra.
    + replace ((s =? j)%nat) with false by (symmetry; apply Nat.eqb_neq; exact Hne).
      destruct (Nat.lt_ge_cases s j) as [Hlt | Hge].
      * replace ((S s <=? j)%nat) with true by (symmetry; apply Nat.leb_le; lia).
        replace ((s <=? j)%nat) with true by (symmetry; apply Nat.leb_le; lia).
        replace (s + S (List.length b))%nat with (S s + List.length b)%nat by lia.
        destruct ((j <? S s + List.length b)%nat); cbn [andb].
        -- replace (j - s)%nat with (S (j - S s)) by lia. simpl. lra.
        -- lra.
      * replace ((S s <=? j)%nat) with false by (symmetry; apply Nat.leb_gt; lia).
        replace ((s <=? j)%nat) with false by (symmetry; apply Nat.leb_gt; lia).
        simpl. lra.
Qed.

Lemma identity_column (m j : nat) :
  column j (@identity Q _ m) = map (fun i => if (i =? j)%nat then 1 else 0) (seq 0 m).
Proof.
  unfold column, identity. rewrite map_map.
  apply map_ext_in. intros i Hi. apply in_seq in Hi.
  apply identity_row_nth. lia.
Qed.

Lemma pointwise_from_nth (f : nat -> Q) (b : vec Q) :
  (forall j, (j < List.length b)%nat -> f j == nth j b 0) ->
  Forall2 Qeq (map f (seq 0 (List.length b))) b.
Proof.
  revert f. induction b as [|x b IH]; intros f Hf; [constructor|].
  simpl List.length. simpl seq. rewrite <- seq_shift. simpl map. rewrite map_map.
  constructor.
  - apply (Hf 0%nat). simpl. lia.
  - apply IH. intros j Hj. apply (Hf (S j)). simpl. lia.
Qed.

(** With the trivial factorization, [q.T @ b] is [b]. *)
Lemma identity_transpose_times (b : vec Q) :
  Forall2 Qeq
    (matvec (transpose (ncols (@identity Q _ (List.length b)))
               (identity (List.length b))) b) b.
Proof.
  destruct b as [|x b]; [constructor|].
  assert (Hc : ncols (@identity Q _ (List.length (x :: b))) = List.length (x :: b)).
  { unfold ncols, identity. simpl. rewrite repeat_length. reflexivity. }
  rewrite Hc. unfold matvec, transpose. rewrite map_map.
  apply pointwise_from_nth. intros j Hj.
  rewrite identity_column, dot_unit.
  replace ((0 <=? j)%nat) with true by reflexivity.
  replace ((j <? 0 + List.length (x :: b))%nat) with true
    by (symmetry; apply Nat.ltb_lt; exact Hj).
  rewrite Nat.sub_0_r. reflexivity.
Qed.

Lemma dot_pointwise (a qt b : vec Q) :
  Forall2 Qeq qt b -> dot a qt == dot a b.
Proof.
  intros Hq. revert a. induction Hq as [|x y qt b Hxy _ IH]; intros a.
  - destruct a; reflexivity.
  - destruct a as [|u a]; [reflexivity|].
    rewrite !dot_cons, IH, Hxy. reflexivity.
Qed.

(** The residual sum of squares of the line through the origin of slope
    [t]. *)
Lemma rss_line (a b w : vec Q) :
  List.length a = List.length b ->
  rss (map (fun u => [u]) a) b w
  == np_sum (map (@sqr Q _) (zip_with Qminus b (map (fun u => u * hd 0 w) a))).
Proof.
  intros Hlen. unfold rss, vsub, matvec. rewrite map_map.
  apply np_sum_pointwise.
  revert b Hlen. induction a as [|u a IH]; intros [|v b] Hlen; simpl in Hlen;
    try discriminate; simpl; constructor.
  - assert (E : dot [u] w == u * hd 0 w).
    { destruct w as [|t w]; [unfold dot; simpl; rewrite np_sum_nil_Q; simpl; lra|].
      rewrite dot_cons. destruct w; unfold dot; simpl; rewrite np_sum_nil_Q; lra. }
    unfold sqr. cbn [fmul fsub Q_scalar]. rewrite E. reflexivity.
  - apply IH. lia.
Qed.

Lemma line_expansion (a b : vec Q) (t : Q) :
  List.length a = List.length b ->
  np_sum (map (@sqr Q _) (zip_with Qminus b (map (fun u => u * t) a)))
  == dot b b - 2 * t * dot a b + t * t * dot a a.
Proof.
  revert b. induction a as [|u a IH]; intros [|v b] Hlen; simpl in Hlen;
    try discriminate.
  - unfold dot. simpl. rewrite !np_sum_nil_Q. lra.
  - simpl. rewrite np_sum_cons_Q, !dot_cons, IH by lia.
    unfold sqr. cbn [fmul Q_scalar]. ring.
Qed.

Lemma dot_self_nonneg (a : vec Q) : 0 <= dot a a.
Proof.
  induction a as [|u a IH].
  - unfold dot. simpl. rewrite np_sum_nil_Q. lra.
  - rewrite dot_cons. nra.
Qed.

Lemma dot_self_zero (a b : vec Q) : dot a a == 0 -> dot a b == 0.
Proof.
  revert b. induction a as [|u a IH]; intros b Hz.
  - destruct b; unfold dot; simpl; rewrite np_sum_nil_Q; reflexivity.
  - destruct b as [|v b]; [unfold dot; simpl; rewrite np_sum_nil_Q; reflexivity|].
    rewrite dot_cons in Hz. rewrite dot_cons.
    pose proof (dot_self_nonneg a) as Ha.
    assert (Hu : u * u == 0) by nra.
    assert (Ha0 : dot a a == 0) by nra.
    apply Qmult_integral in Hu. rewrite (IH b Ha0).
    destruct Hu as [Hu | Hu]; rewrite Hu; lra.
Qed.

Lemma line_minimal (a b : vec Q) (z t : Q) :
  List.length a = List.length b ->
  dot a a == 0 \/ z * dot a a == dot a b ->
  np_sum (map (@sqr Q _) (zip_with Qminus b (map (fun u => u * z) a)))
  <= np_sum (map (@sqr Q _) (zip_with Qminus b (map (fun u => u * t) a))).
Proof.
  intros Hlen Hz. rewrite !line_expansion by exact Hlen.
  pose proof (dot_self_nonneg a) as Hs.
  destruct Hz as [Hz | Hz].
  - rewrite (dot_self_zero a b Hz), Hz. ring_simplify. apply Qle_refl.
  - rewrite <- Hz.
    assert (0 <= dot a a * ((t - z) * (t - z)))
      by (apply Qmult_le_0_compat; [exact Hs | generalize (t - z); intros d; nra]).
    nra.
Qed.

(** On a design matrix of one column, the reference [qr] and [lstsq]
    return a least-squares solution on every subset of the rows. *)
Lemma reference_solves_lines (a y : vec Q) :
  List.length a = List.length y ->
  least_squares_solver Q_lapack (map (fun u => [u]) a) y.
Proof.
  intros Hlen idx Hin. rewrite length_map in Hin.
  set (a' := map (fun i => nth i a 0) idx).
  set (b := map (fun i => nth i y 0) idx).
  assert (HA : rows_of idx (map (fun u => [u]) a) = map (fun u => [u]) a').
  { unfold rows_of, a'. rewrite map_map. apply map_ext_in. intros i Hi.
    rewrite (nth_indep _ [] ((fun u => [u]) 0))
      by (rewrite length_map; apply Hin; exact Hi).
    apply (map_nth (fun u : Q => [u])). }
  assert (Hb : entries_of idx y = b) by reflexivity.
  assert (Hab : List.length a' = List.length b)
    by (unfold a', b; rewrite !length_map; reflexivity).
  rewrite HA, Hb.
  destruct idx as [|i idx].
  - exists []. split; [reflexivity|]. intros w. apply Qle_refl.
  - set (qt := matvec (transpose (ncols (@identity Q _ (List.length (map (fun u => [u]) a'))))
                         (identity (List.length (map (fun u => [u]) a')))) b).
    assert (Hqt : Forall2 Qeq qt b).
    { unfold qt. rewrite length_map, Hab. apply identity_transpose_times. }
    assert (Hcol : column 0 (map (fun u : Q => [u]) a') = a').
    { unfold column. rewrite map_map. apply map_id. }
    exists (normal_solve 1 (map (fun u => [u]) a') qt).
    split.
    + unfold qr_lstsq. cbn [qr lstsq Q_lapack ref_qr]. fold qt. reflexivity.
    + intros w. rewrite !rss_line by exact Hab.
      apply line_minimal; [exact Hab|].
      unfold normal_solve. rewrite Hcol. cbn [feqb fdiv Q_scalar fzero of_Z].
      change (inject_Z 0) with 0.
      destruct (Qeq_bool (dot a' a') 0) eqn:E.
      * left. apply Qeq_bool_iff. exact E.
      * right. cbn [hd]. rewrite (dot_pointwise a' Hqt).
        field. intros Hc. apply Qeq_bool_iff in Hc. congruence.
Qed.
End LineFits.

(** Five C-steps on the five delays, three points kept, from the slope 5:
    the objective falls from 29/28 to 6/35 and stays. *)
Lemma line_history :
  match fst (@csteps_run Q _ Q_lapack Examples.X_line Examples.y_line (Some 5) 3 [5%Q]) with
  | Ret r => map Qred (cs_history r)
  | _ => []
  end = [(29 # 28)%Q; (6 # 35)%Q; (6 # 35)%Q].
Proof. vm_compute. reflexivity. Qed.


(* ------------------------------------------------------------------ *)
(** ** What a returned call went through *)

Section Results.
Context {F : Type}.
Context {SF : Scalar F} {SP : Special F} {LM : Libm F}.
Context {LA : Lapack F} {FH : Fltsh F} {OS : OlsScale F}.

(** A call that returns on the general path has passed validation, computed
    the scales, finished its search and gone through [finish]. *)
Lemma general_call_inv (fuel : nat) (X y : ndarray F) (alpha : F)
    (r : Result F) (log : list event) :
  fast_lts_array fuel X y alpha = (Ret r, log) ->
  (alpha ==~ fone) = false ->
  let n := shape0 X in
  let p := shape1 X in
  let h := hcalc alpha n p in
  exists datamad st l0 l1 l2,
    validate X y = ret (n, p)
    /\ compute_datamad (rows X) (column 0 (rows y)) n p = (Ret datamad, l0)
    /\ search (standardize_X p datamad (rows X))
         (standardize_y p datamad (column 0 (rows y))) n p h fuel = (Ret st, l1)
    /\ finish X y n p h alpha datamad (coeffs st) = (Ret r, l2)
    /\ log = snd (check_rank (rows X) p) ++ l0 ++ l1 ++ l2.
Proof.
  intros H Ha. cbv zeta. unfold fast_lts_array in H.
  apply bind_ret_inv in H as ([n' p'] & l1 & l2 & Hv & H & ->).
  pose proof (validate_ret_inv _ _ Hv) as (-> & -> & -> & _).
  unfold after_validation in H.
  apply bind_ret_inv in H as (u & l3 & l4 & Hrk & H & ->).
  apply bind_ret_inv in H as (datamad & l5 & l6 & Hd & H & ->).
  rewrite Ha in H. unfold general_path in H.
  apply bind_ret_inv in H as (st & l7 & l8 & Hs & H & ->).
  exists datamad, st, l5, l7, l8.
  rewrite Hrk. simpl. auto.
Qed.

(** A reweighting that returns made one fit and built its answer from it. *)
Lemma reweight_ret_inv (xvar : mat F) (yvar : vec F) (n p : nat) (alpha s0 : F)
    (residuals : vec F) (rf : refit) (l : list event) :
  reweight xvar yvar n p alpha s0 residuals = (Ret rf, l) ->
  l = [Fitted Reweighted]
  /\ rf_fitted rf = matvec xvar (rf_coefficients rf)
  /\ rf_residuals rf = vsub yvar (rf_fitted rf)
  /\ rf_weights rf
     = map (fun e => fabs (e /~ rf_scale rf) <=?~ lit 25 1) (rf_residuals rf)
  /\ qr_lstsq (mask (quantile_weights s0 residuals) xvar)
       (mask (quantile_weights s0 residuals) yvar) = inr (rf_coefficients rf).
Proof.
  unfold reweight. rewrite solve_eq.
  destruct (qr_lstsq _ _) as [e | zfinal]; [discriminate 1|].
  rewrite bind_Ret. cbn [fst snd ret app].
  intros [= <- <-]. cbn [rf_fitted rf_coefficients rf_residuals rf_weights rf_scale].
  auto.
Qed.

(** What [finish] returns, field by field. *)
Lemma finish_ret_inv (xorig yorig : ndarray F) (n p h : nat) (alpha : F)
    (datamad coeffs : vec F) (r : Result F) (log : list event) :
  finish xorig yorig n p h alpha datamad coeffs = (Ret r, log) ->
  let c := rescale p datamad coeffs in
  let xvar := rows xorig in
  let yvar := column 0 (rows yorig) in
  let res0 := vsub yvar (matvec xvar c) in
  let s0 := raw_scale n p h alpha res0 in
  exists rf,
    (if fabs s0 <?~ lit 1 7
     then rf = exact_fit c (matvec xvar c) res0
          /\ log = [Printed "An exact fit was found!"]
     else reweight xvar yvar n p alpha s0 res0 = (Ret rf, log))
    /\ coefficients r = rf_coefficients rf
    /\ flagged r = rf_weights rf
    /\ fitted r = rf_fitted rf
    /\ residuals r = rf_residuals rf
    /\ scale r = rf_scale rf
    /\ rsquared r = r_squared h (rf_residuals rf) yvar
    /\ sigma_tau r = nan
    /\ res_X r = xorig
    /\ res_y r = yorig.
Proof.
  intros H c xvar yvar res0 s0. unfold finish in H.
  fold c xvar yvar in H. fold res0 in H. fold s0 in H.
  apply bind_ret_inv in H as (rf & l1 & l2 & Hrf & H & ->).
  apply bind_ret_inv in H as (u & l3 & l4 & Hp & H & ->).
  apply bind_ret_inv in H as ([vel az] & l5 & l6 & Hd & H & ->).
  apply decode_ret_inv in Hd as (-> & _).
  injection H as <- <-. exists rf.
  destruct (fabs s0 <?~ lit 1 7).
  - injection Hrf as <- <-. injection Hp as E. subst l3. simpl. auto 12.
  - injection Hp as E. subst l3. rewrite !app_nil_r. simpl. auto 12.
Qed.
End Results.

(* ------------------------------------------------------------------ *)
(** ** Order facts of binary64 *)

Lemma compare_cont_antisym (m1 m2 : positive) :
  Pos.compare_cont Eq m2 m1 = CompOpp (Pos.compare_cont Eq m1 m2).
Proof. apply (Pos.compare_antisym m1 m2). Qed.

Lemma SFcompare_antisym (a b : SpecFloat.spec_float) :
  SpecFloat.SFcompare b a
  = match SpecFloat.SFcompare a b with
    | Some c => Some (CompOpp c)
    | None => None
    end.
Proof.
  destruct a as [sa | sa | | sa ma ea], b as [sb | sb | | sb mb eb];
    try destruct sa; try destruct sb; try reflexivity;
    simpl; rewrite (Z.compare_antisym ea eb);
    destruct (ea ?= eb)%Z; simpl; try reflexivity;
    rewrite (compare_cont_antisym ma mb);
    destruct (Pos.compare_cont Eq ma mb); reflexivity.
Qed.

Lemma SFcompare_refl_none (a b : SpecFloat.spec_float) :
  SpecFloat.SFcompare a b = None ->
  SpecFloat.SFcompare a a = None \/ SpecFloat.SFcompare b b = None.
Proof.
  destruct a as [sa | sa | | sa ma ea], b as [sb | sb | | sb mb eb];
    try destruct sa; try destruct sb; simpl; auto; discriminate 1.
Qed.

(** Where [x < y] fails, [y <= x] holds or one of the two is a NaN. *)
Lemma float_not_lt (x y : float) :
  PrimFloat.ltb x y = false ->
  PrimFloat.leb y x = true \/ isnan x = true \/ isnan y = true.
Proof.
  unfold isnan. cbn [feqb float_scalar].
  rewrite FloatAxioms.ltb_spec, FloatAxioms.leb_spec, !FloatAxioms.eqb_spec.
  unfold SpecFloat.SFltb, SpecFloat.SFleb, SpecFloat.SFeqb.
  rewrite (SFcompare_antisym (Prim2SF x) (Prim2SF y)).
  destruct (SpecFloat.SFcompare (Prim2SF x) (Prim2SF y)) as [[| |]|] eqn:E;
    simpl; auto; try discriminate 1.
  intros _. right.
  destruct (SFcompare_refl_none _ _ E) as [-> | ->]; auto.
Qed.

(** The clamp of lines 270-273 in binary64. *)
Lemma r_squared_float_range (h : nat) (res yv : vec float) :
  isnan (r_squared h res yv) = true
  \/ ((fzero <=?~ r_squared h res yv) = true
      /\ (r_squared h res yv <=?~ fone) = true).
Proof.
  unfold r_squared. cbv zeta.
  set (v := fone -~ _).
  destruct (fone <?~ v) eqn:E1.
  { right. split; vm_compute; reflexivity. }
  destruct (v <?~ fzero) eqn:E2.
  { right. split; vm_compute; reflexivity. }
  destruct (float_not_lt E1) as [H1 | [H1 | H1]];
    [| vm_compute in H1; discriminate H1 | auto].
  destruct (float_not_lt E2) as [H2 | [H2 | H2]];
    [| auto | vm_compute in H2; discriminate H2].
  right. split; assumption.
Qed.

(** The same clamp on exact rationals. *)
Lemma r_squared_Q_range (h : nat) (res yv : vec Q) :
  (0 <= r_squared h res yv)%Q /\ (r_squared h res yv <= 1)%Q.
Proof.
  unfold r_squared. cbv zeta.
  set (v := fone -~ _).
  cbn [fltb Q_scalar].
  destruct (Qle_bool v fone) eqn:E1; cbn [negb].
  - destruct (Qle_bool fzero v) eqn:E2; cbn [negb].
    + apply Qle_bool_iff in E1, E2. split; assumption.
    + split; [apply Qle_refl | discriminate].
  - split; [discriminate | apply Qle_refl].
Qed.

(** X1: the goodness of fit that a returned call reports never leaves the
    unit interval.  Lines 269-273 clamp it; in binary64 a NaN passes both
    tests, so there it is a NaN or lies between 0 and 1, and in exact
    arithmetic it lies between 0 and 1. *)
Theorem rsquared_lies_between_zero_and_one :
  (forall (LM : Libm float) (LA : Lapack float) (FH : Fltsh float)
          (OS : OlsScale float) (fuel : nat) (X y : ndarray float)
          (alpha : float) (r : Result float) (log : list event),
     fast_lts_array fuel X y alpha = (Ret r, log) ->
     (alpha ==~ fone) = false ->
     isnan (rsquared r) = true
     \/ ((fzero <=?~ rsquared r) = true /\ (rsquared r <=?~ fone) = true))
  /\ (forall (SP : Special Q) (LM : Libm Q) (LA : Lapack Q) (FH : Fltsh Q)
             (OS : OlsScale Q) (fuel : nat) (X y : ndarray Q)
             (alpha : Q) (r : Result Q) (log : list event),
        fast_lts_array fuel X y alpha = (Ret r, log) ->
        (alpha ==~ fone) = false ->
        (0 <= rsquared r)%Q /\ (rsquared r <= 1)%Q).
Proof.
  split; intros until log; intros H Ha;
    destruct (general_call_inv _ _ _ _ H Ha) as (d & st & l0 & l1 & l2 & _ & _ & _ & Hf & _);
    destruct (finish_ret_inv _ _ _ _ _ _ _ _ Hf) as (rf & _ & _ & _ & _ & _ & _ & -> & _).
  - apply r_squared_float_range.
  - apply r_squared_Q_range.
Qed.

(* ------------------------------------------------------------------ *)
(** ** The result dictionary *)

Section ResultFacts.
Context {F : Type}.
Context {SF : Scalar F} {SP : Special F} {LM : Libm F}.
Context {LA : Lapack F} {FH : Fltsh F} {OS : OlsScale F}.

Lemma map_at_length {A : Type} (i : nat) (f : A -> A) (l : list A) :
  List.length (map_at i f l) = List.length l.
Proof.
  revert i. induction l as [|x l IH]; intros [|i]; simpl; auto.
Qed.

(** Scaling back neither adds nor, with a scale for every coefficient,
    drops a coefficient. *)
Lemma rescale_length_le (p : nat) (datamad coeffs : vec F) :
  List.length (rescale p datamad coeffs) <= List.length coeffs.
Proof.
  unfold rescale. destruct (p <=? 1).
  - rewrite map_at_length. lia.
  - rewrite map_at_length, zip_with_length. lia.
Qed.

Lemma decode_short (s_p : vec F) :
  List.length s_p < 2 ->
  decode s_p = (Raise (IndexError "index out of bounds"), []).
Proof.
  destruct s_p as [|sx [|sy rest]]; simpl; try lia; intros _; reflexivity.
Qed.

(** X2: the decoder reads two coefficients (line 287).  A call that
    returns on the general path has at least two; with fewer, [finish]
    raises IndexError: after the exact-fit message when the raw scale is
    below 1e-7 and the accepted vector has fewer than two entries, right
    after the reweighted fit when that fit has fewer than two. *)
Theorem fewer_than_two_coefficients_raise
    (xorig yorig : ndarray F) (n p h : nat) (alpha : F) (datamad coeffs : vec F) :
  let c := rescale p datamad coeffs in
  let xvar := rows xorig in
  let yvar := column 0 (rows yorig) in
  let res0 := vsub yvar (matvec xvar c) in
  let s0 := raw_scale n p h alpha res0 in
  let w := quantile_weights s0 res0 in
  (forall fuel X y r log,
     fast_lts_array fuel X y alpha = (Ret r, log) ->
     (alpha ==~ fone) = false ->
     2 <= List.length (coefficients r))
  /\ ((fabs s0 <?~ lit 1 7) = true ->
      List.length coeffs < 2 ->
      finish xorig yorig n p h alpha datamad coeffs
      = (Raise (IndexError "index out of bounds"),
         [Printed "An exact fit was found!"]))
  /\ (forall zfinal,
        (fabs s0 <?~ lit 1 7) = false ->
        qr_lstsq (mask w xvar) (mask w yvar) = inr zfinal ->
        List.length zfinal < 2 ->
        finish xorig yorig n p h alpha datamad coeffs
        = (Raise (IndexError "index out of bounds"), [Fitted Reweighted])).
Proof.
  intros c xvar yvar res0 s0 w. split; [|split].
  - intros fuel X y r log H Ha.
    apply call_decodes in H.
    apply decode_ret_inv in H as (_ & _ & sx & sy & rest & -> & _).
    simpl. lia.
  - intros Hs0 Hlen. unfold finish.
    fold c xvar yvar. fold res0. fold s0. rewrite Hs0.
    rewrite bind_ret_l. cbn [rf_coefficients exact_fit].
    rewrite decode_short
      by (pose proof (rescale_length_le p datamad coeffs); fold c in H; lia).
    reflexivity.
  - intros zfinal Hs0 Hz Hlen. unfold finish.
    fold c xvar yvar. fold res0. fold s0. rewrite Hs0.
    unfold reweight. fold w. rewrite solve_eq, Hz.
    rewrite bind_Ret. cbn [fst snd ret]. rewrite bind_Ret. cbn beta.
    rewrite bind_ret_l. cbn [rf_coefficients].
    rewrite decode_short by assumption.
    reflexivity.
Qed.

(** X3: the fields of a returned result belong together: [fitted] is
    the design matrix times the returned coefficients, [residuals] is the
    responses minus [fitted] (after a reweighting as well, lines 253-254),
    there is one flag for every residual, and [X] and [y] are the caller's
    arrays. *)
Theorem result_fields_are_consistent
    (fuel : nat) (X y : ndarray F) (alpha : F) (r : Result F) (log : list event) :
  fast_lts_array fuel X y alpha = (Ret r, log) ->
  (alpha ==~ fone) = false ->
  fitted r = matvec (rows X) (coefficients r)
  /\ residuals r = vsub (column 0 (rows y)) (fitted r)
  /\ List.length (flagged r) = List.length (residuals r)
  /\ res_X r = X
  /\ res_y r = y.
Proof.
  intros H Ha.
  destruct (general_call_inv _ _ _ _ H Ha)
    as (d & st & l0 & l1 & l2 & _ & _ & _ & Hf & _).
  destruct (finish_ret_inv _ _ _ _ _ _ _ _ Hf)
    as (rf & Hrf & -> & -> & -> & -> & _ & _ & _ & -> & ->).
  destruct (_ <?~ _).
  - destruct Hrf as [-> _]. cbn [exact_fit rf_fitted rf_coefficients rf_residuals rf_weights].
    rewrite length_map. auto.
  - apply reweight_ret_inv in Hrf as (_ & E1 & E2 & E3 & _).
    rewrite E3, length_map. auto.
Qed.

Lemma log_check_rank_with (P : event -> Prop) (A : mat F) (k : nat) :
  P (Printed singular_message) -> Forall P (snd (check_rank A k)).
Proof. intros HP. unfold check_rank. destruct (_ <? _); repeat constructor. exact HP. Qed.

Lemma log_datamad_loop_with (P : event -> Prop) (eps : F) (m : nat)
    (cols : list (vec F)) :
  P (Printed error_message) -> Forall P (snd (datamad_loop eps m cols)).
Proof.
  intros HP. induction cols as [|col cols IH]; simpl; [constructor|].
  apply log_bind.
  - rewrite datamad_entry_eq. simpl. destruct (doubly_degenerate _ _ _); repeat constructor.
    exact HP.
  - intros d. apply log_bind; [exact IH|]. intros ds. constructor.
Qed.

(** Before [finish], a call on the general path neither prints the
    exact-fit message nor makes a reweighted fit. *)
Lemma log_before_finish (X y : ndarray F) (n p h fuel : nat)
    (datamad : vec F) (l0 : list event) (Xvar : mat F) (yvar : vec F) :
  compute_datamad (rows X) (column 0 (rows y)) n p = (Ret datamad, l0) ->
  Forall (fun e => e <> Printed "An exact fit was found!" /\ e <> Fitted Reweighted)
    (snd (check_rank (rows X) p) ++ l0 ++ snd (search Xvar yvar n p h fuel)).
Proof.
  intros Hd. apply Forall_app. split; [|apply Forall_app; split].
  - apply log_check_rank_with. split; discriminate.
  - unfold compute_datamad in Hd.
    pose proof (log_datamad_loop_with
                  (fun e => e <> Printed "An exact fit was found!" /\ e <> Fitted Reweighted)
                  (eps_of p) n
                  (map (data_column (rows X) (column 0 (rows y)) p) (seq 0 (p + 1)))) as Hl.
    rewrite Hd in Hl. apply Hl. split; discriminate.
  - eapply Forall_impl; [|apply log_search].
    intros [msg | idx | []]; simpl; intros []; split; discriminate.
Qed.

(** X4: a call that returns on the general path ended in one of two
    ways.  Either the exact-fit message is its last event, printed once, no
    reweighted fit was made, the scale is 0 and the flags mark the residuals
    below 1e-7; or the reweighted fit is its last event, the only one of its
    kind, the message was not printed, and the flags mark the returned
    residuals within 2.5 times the returned scale. *)
Theorem flags_follow_the_branch
    (fuel : nat) (X y : ndarray F) (alpha : F) (r : Result F) (log : list event) :
  fast_lts_array fuel X y alpha = (Ret r, log) ->
  (alpha ==~ fone) = false ->
  (exists l, log = l ++ [Printed "An exact fit was found!"]
             /\ ~ In (Printed "An exact fit was found!") l
             /\ ~ In (Fitted Reweighted) l
             /\ scale r = of_Z 0
             /\ flagged r = map (fun e => fabs e <?~ lit 1 7) (residuals r))
  \/ (exists l, log = l ++ [Fitted Reweighted]
                /\ ~ In (Printed "An exact fit was found!") l
                /\ ~ In (Fitted Reweighted) l
                /\ flagged r
                   = map (fun e => fabs (e /~ scale r) <=?~ lit 25 1) (residuals r)).
Proof.
  intros H Ha.
  destruct (general_call_inv _ _ _ _ H Ha)
    as (d & st & l0 & l1 & l2 & _ & Hd & Hs & Hf & ->).
  pose proof (@log_before_finish X y _ _ (hcalc alpha (shape0 X) (shape1 X)) fuel
                _ _ (standardize_X (shape1 X) d (rows X))
                (standardize_y (shape1 X) d (column 0 (rows y))) Hd) as Hpre.
  rewrite Hs in Hpre. cbn [snd] in Hpre.
  rewrite Forall_forall in Hpre.
  destruct (finish_ret_inv _ _ _ _ _ _ _ _ Hf)
    as (rf & Hrf & _ & -> & _ & -> & -> & _).
  destruct (_ <?~ _).
  - destruct Hrf as [-> ->]. left.
    exists (snd (check_rank (rows X) (shape1 X)) ++ l0 ++ l1).
    split; [rewrite <- !app_assoc; reflexivity|].
    split; [intros Hin; exact (proj1 (Hpre _ Hin) eq_refl)|].
    split; [intros Hin; exact (proj2 (Hpre _ Hin) eq_refl)|].
    split; reflexivity.
  - apply reweight_ret_inv in Hrf as (-> & _ & _ & E & _). right.
    exists (snd (check_rank (rows X) (shape1 X)) ++ l0 ++ l1).
    split; [rewrite <- !app_assoc; reflexivity|].
    split; [intros Hin; exact (proj1 (Hpre _ Hin) eq_refl)|].
    split; [intros Hin; exact (proj2 (Hpre _ Hin) eq_refl)|].
    exact E.
Qed.
End ResultFacts.

(* ------------------------------------------------------------------ *)
(** ** Counting draws and fits *)

Section Counting.
Context {F : Type}.
Context {SF : Scalar F} {SP : Special F} {LM : Libm F}.
Context {LA : Lapack F} {FH : Fltsh F} {OS : OlsScale F}.

Lemma count_app (P : event -> bool) (l1 l2 : list event) :
  count_events P (l1 ++ l2) = count_events P l1 + count_events P l2.
Proof. unfold count_events. rewrite filter_app, length_app. reflexivity. Qed.

Lemma count_none (P : event -> bool) (Q : event -> Prop) (l : list event) :
  (forall e, Q e -> P e = false) -> Forall Q l -> count_events P l = 0.
Proof.
  intros HQ Hl. unfold count_events.
  induction Hl as [|e l He _ IH]; simpl; [reflexivity|].
  rewrite (HQ e He). exact IH.
Qed.

Lemma item_log {A : Type} (a : list A) (i : Z) : snd (item a i) = [].
Proof.
  unfold item. destruct (_ && _); [destruct (nth_error _ _)|]; reflexivity.
Qed.

Lemma take_log {A : Type} (a : list A) (index : list Z) : snd (take a index) = [].
Proof.
  induction index as [|i index IH]; simpl; [reflexivity|].
  pose proof (item_log a i) as Hi.
  destruct (item a i) as [[x | e |] l]; simpl in *; subst l; try reflexivity.
  destruct (take a index) as [[xs | e |] l]; simpl in *; subst l; reflexivity.
Qed.

End Counting.

(* ------------------------------------------------------------------ *)
(** ** The shape of the C-step loop *)

Section CStepLoop.
Context {F : Type}.
Context {SF : Scalar F} {LA : Lapack F}.
Variables (Xvar : mat F) (yvar : vec F).

(** A pass that returns made one refit. *)
Lemma cstep_ret_log (adjh : nat) (residu : vec F) (x : vec F * vec F * F)
    (l : list event) :
  cstep Xvar yvar adjh residu = (Ret x, l) ->
  l = [Fitted CStep]
  /\ snd x = trimmed_objective adjh (snd (fst x)).
Proof.
  unfold cstep. intros H.
  apply bind_ret_inv in H as (Xh & l1 & l2 & H1 & H & ->).
  apply bind_ret_inv in H as (yh & l3 & l4 & H2 & H & ->).
  apply bind_ret_inv in H as (z & l5 & l6 & H3 & H & ->).
  pose proof (take_log Xvar (map Z.of_nat (sort_nat (firstn adjh (np_argsort (map fabs residu)))))) as E1.
  pose proof (take_log yvar (map Z.of_nat (sort_nat (firstn adjh (np_argsort (map fabs residu)))))) as E2.
  rewrite H1 in E1. rewrite H2 in E2. simpl in E1, E2. subst l1 l3.
  rewrite solve_eq in H3. destruct (qr_lstsq Xh yh); [discriminate H3|].
  injection H3 as _ <-. unfold ret in H. injection H as <- <-. auto.
Qed.

Lemma last_default {A : Type} (a d d' : A) (l : list A) :
  last (a :: l) d = last (a :: l) d'.
Proof.
  revert a. induction l as [|b l IH]; intros a; [reflexivity|].
  change (last (b :: l) d = last (b :: l) d'). apply IH.
Qed.

Lemma last_cons {A : Type} (a d : A) (l : list A) : last (a :: l) d = last l a.
Proof.
  destruct l as [|b l]; [reflexivity|].
  change (last (b :: l) d = last (b :: l) a). apply last_default.
Qed.

(** The loop from pass [jj] on, when it returns: the objectives [objs] it
    computed, one refit each, at most [k] of them; the last one is the
    objective it hands on; it went on after every objective but the last,
    and it stopped before the bound only on a repeated objective. *)
Lemma csteps_from_shape (adjh k : nat) :
  forall (jj : nat) (residu : vec F) (prevobj : F) (cur r : cstep_result)
         (log : list event),
    csteps_from Xvar yvar k jj adjh residu prevobj cur = (Ret r, log) ->
    exists objs,
      cs_history r = cs_history cur ++ objs
      /\ log = repeat (Fitted CStep) (List.length objs)
      /\ List.length objs <= k
      /\ cs_obj r = last objs (cs_obj cur)
      /\ Nat.min k (2 - jj) <= List.length objs
      /\ (List.length objs < k ->
          exists pre a b, prevobj :: objs = pre ++ [a; b] /\ (b ==~ a) = true)
      /\ (forall j a b,
            1 <= jj + j -> S j < List.length objs ->
            nth_error (prevobj :: objs) j = Some a ->
            nth_error (prevobj :: objs) (S j) = Some b ->
            (b ==~ a) = false).
Proof.
  induction k as [|k IH]; intros jj residu prevobj cur r log H.
  - unfold csteps_from, ret in H. injection H as <- <-. exists [].
    rewrite app_nil_r. simpl.
    repeat (split; [first [reflexivity | lia | intros; lia]|]).
    intros; lia.
  - cbn [csteps_from] in H.
    apply bind_ret_inv in H as ([[z residu'] obj] & l1 & l2 & Hc & H & ->).
    apply cstep_ret_log in Hc as [-> _]. cbn beta iota in H.
    destruct ((1 <=? jj) && (obj ==~ prevobj)) eqn:Estop.
    + unfold ret in H. injection H as <- <-. exists [obj].
      apply andb_prop in Estop as [Ejj Eobj]. apply Nat.leb_le in Ejj.
      cbn [List.length cs_history cs_obj repeat last].
      split; [reflexivity|]. split; [reflexivity|]. split; [lia|].
      split; [reflexivity|].
      split; [lia|].
      split; [intros _; exists [], prevobj, obj; auto|].
      intros; lia.
    + apply IH in H as (objs & Hh & Hl & Hk & Hlast & Hmin & Hstop & Hgo).
      cbn [cs_history cs_obj] in Hh, Hlast. rewrite <- app_assoc in Hh.
      exists (obj :: objs).
      cbn [List.length].
      split; [exact Hh|]. split; [rewrite Hl; reflexivity|].
      split; [lia|].
      split; [rewrite last_cons; exact Hlast|].
      split; [lia|].
      split.
      { intros Hlt.
        destruct Hstop as (pre & a & b & E & Eab); [lia|].
        exists (prevobj :: pre), a, b. rewrite E. auto. }
      intros [|j] a b Hjj Hj Ha Hb.
      * simpl in Ha, Hb. injection Ha as <-. injection Hb as <-.
        simpl in Hjj. rewrite Nat.add_0_r in Hjj.
        apply Nat.leb_le in Hjj. rewrite Hjj in Estop. exact Estop.
      * apply (Hgo j a b); [lia | lia | exact Ha | exact Hb].
Qed.
End CStepLoop.

Section CStepLoopRun.
Context {F : Type}.
Context {SF : Scalar F} {LA : Lapack F}.
Variables (Xvar : mat F) (yvar : vec F).

(** X5: the C-step loop with bound [k] (lines 169-185), when it returns.
    It made one refit for each objective it computed: at most [k] of them
    and at least two (one when [k] is 1).  The objective it hands on is the
    last one.  If it stopped before the bound, the last two objectives are
    equal; and no objective before the last one equals its predecessor
    (the first has none). *)
Theorem cstep_loop_stops_at_the_first_repeat
    (k adjh : nat) (z0 : vec F) (r : cstep_result) (log : list event) :
  csteps_run Xvar yvar (Some k) adjh z0 = (Ret r, log) ->
  let objs := cs_history r in
  log = repeat (Fitted CStep) (List.length objs)
  /\ Nat.min k 2 <= List.length objs
  /\ List.length objs <= k
  /\ (1 <= k -> cs_obj r = last objs fzero)
  /\ (List.length objs < k ->
      exists pre a b, objs = pre ++ [a; b] /\ (b ==~ a) = true)
  /\ (forall j a b,
        S (S j) < List.length objs ->
        nth_error objs j = Some a -> nth_error objs (S j) = Some b ->
        (b ==~ a) = false).
Proof.
  unfold csteps_run. intros H.
  apply csteps_from_shape in H
    as (objs & Hh & Hl & Hk & Hlast & Hmin & Hstop & Hgo).
  cbn [cs_history cs_obj app] in Hh, Hlast. cbv zeta. subst objs.
  rewrite Nat.sub_0_r in Hmin.
  split; [exact Hl|]. split; [exact Hmin|]. split; [exact Hk|].
  split; [intros _; exact Hlast|]. split.
  - intros Hlt. destruct (Hstop Hlt) as (pre & a & b & E & Eab).
    destruct pre as [|x pre].
    + injection E as _ E. rewrite E in Hmin, Hlt. cbn [List.length] in Hmin, Hlt. lia.
    + injection E as _ E. exists pre, a, b. auto.
  - intros j a b Hj Ha Hb.
    apply (Hgo (S j) a b); [lia | lia | exact Ha | exact Hb].
Qed.
End CStepLoopRun.

(* ------------------------------------------------------------------ *)
(** ** The work of a search *)

Section SearchCounts.
Context {F : Type}.
Context {SF : Scalar F} {SP : Special F} {LM : Libm F}.
Context {LA : Lapack F} {FH : Fltsh F} {OS : OlsScale F}.
Variables (Xvar : mat F) (yvar : vec F) (n p h : nat).

Local Abbreviation draws := (count_events is_draw).
Local Abbreviation elementals := (count_events (is_fit_at Elemental)).
Local Abbreviation refits := (count_events (is_fit_at CStep)).

Lemma count_repeat (P : event -> bool) (e : event) (m : nat) :
  count_events P (repeat e m) = if P e then m else 0.
Proof.
  unfold count_events. induction m as [|m IH]; simpl.
  - destruct (P e); reflexivity.
  - destruct (P e); simpl; [rewrite IH|]; auto.
Qed.

Lemma csteps_run_ret_log (csteps : option nat) (adjh : nat) (z : vec F)
    (r : cstep_result) (l : list event) :
  csteps_run Xvar yvar csteps adjh z = (Ret r, l) ->
  exists m, l = repeat (Fitted CStep) m /\ m <= passes csteps.
Proof.
  destruct csteps as [k|]; [|discriminate 1]. unfold csteps_run. intros H.
  apply csteps_from_shape in H as (objs & _ & Hl & Hk & _).
  eauto.
Qed.

Lemma draw_once_ret_log (seed : Z) (x : vec F * Z) (l : list event) :
  draw_once Xvar yvar n p seed = (Ret x, l) ->
  exists idx, l = [Drew idx; Fitted Elemental].
Proof.
  unfold draw_once. destruct (randomset n p seed) as [index seed'].
  set (idx := map (fun i => (i - 1)%Z) index). intros H.
  apply bind_ret_inv in H as ([] & l0 & l1 & H0 & H & ->).
  injection H0 as <-.
  apply bind_ret_inv in H as (Xs & l2 & l3 & H1 & H & ->).
  apply bind_ret_inv in H as (ys & l4 & l5 & H2 & H & ->).
  apply bind_ret_inv in H as (z & l6 & l7 & H3 & H & ->).
  pose proof (take_log Xvar idx) as E1. rewrite H1 in E1.
  pose proof (take_log yvar idx) as E2. rewrite H2 in E2.
  simpl in E1, E2. subst l2 l4.
  rewrite solve_eq in H3. destruct (qr_lstsq Xs ys); [discriminate H3|].
  injection H3 as _ <-. unfold ret in H. injection H as _ <-.
  exists idx. reflexivity.
Qed.

Lemma draw_loop_ret_counts (fuel : nat) :
  forall (seed : Z) (x : vec F * Z) (l : list event),
    draw_loop Xvar yvar n p fuel seed = (Ret x, l) ->
    1 <= draws l /\ draws l <= fuel /\ elementals l = draws l /\ refits l = 0.
Proof.
  induction fuel as [|fuel IH]; intros seed x l H; [discriminate H|].
  cbn [draw_loop] in H.
  apply bind_ret_inv in H as ([z seed'] & l0 & l1 & H0 & H & ->).
  apply draw_once_ret_log in H0 as (idx & ->).
  apply bind_ret_inv in H as (z00 & l2 & l3 & H1 & H & ->).
  pose proof (item_log z 0%Z) as E. unfold first_entry in H1.
  rewrite H1 in E. simpl in E. subst l2.
  rewrite !count_app. change (draws [Drew idx; Fitted Elemental]) with 1.
  change (elementals [Drew idx; Fitted Elemental]) with 1.
  change (refits [Drew idx; Fitted Elemental]) with 0.
  change (draws []) with 0. change (elementals []) with 0.
  change (refits []) with 0.
  destruct (z00 ==~ inf).
  - apply IH in H as (H1' & H2' & H3' & H4'). lia.
  - unfold ret in H. injection H as _ <-.
    change (draws []) with 0. change (elementals []) with 0.
    change (refits []) with 0. lia.
Qed.

Ltac count_logs :=
  rewrite ?count_app, ?count_repeat;
  cbn [is_draw is_fit_at];
  change (count_events is_draw []) with 0;
  change (count_events (is_fit_at Elemental) []) with 0;
  change (count_events (is_fit_at CStep) []) with 0.

Lemma coarse_trial_ret_counts (fuel : nat) (csteps : option nat) (adjh : nat)
    (st st' : search_state) (l : list event) :
  coarse_trial Xvar yvar n p fuel csteps adjh st = (Ret st', l) ->
  1 <= draws l /\ draws l <= fuel /\ elementals l = draws l
  /\ refits l <= passes csteps.
Proof.
  unfold coarse_trial. intros H.
  apply bind_ret_inv in H as (u & l0 & l1 & H0 & H & ->).
  pose proof (item_log (z st) 0%Z) as E0. unfold first_entry in H0.
  rewrite H0 in E0. simpl in E0. subst l0.
  apply bind_ret_inv in H as ([z1 seed1] & l2 & l3 & H1 & H & ->).
  apply draw_loop_ret_counts in H1 as (D1 & D2 & D3 & D4).
  apply bind_ret_inv in H as (z0 & l4 & l5 & H2 & H & ->).
  pose proof (item_log z1 0%Z) as E2. unfold first_entry in H2.
  rewrite H2 in E2. simpl in E2. subst l4.
  destruct (isfinite z0).
  - apply bind_ret_inv in H as (r & l6 & l7 & H3 & H & ->).
    apply csteps_run_ret_log in H3 as (m & -> & Hm).
    assert (l7 = []) as ->.
    { destruct (_ <?~ _); [destruct (insertion _ _ _ _)|];
        unfold ret in H; injection H as _ <-; reflexivity. }
    count_logs. lia.
  - unfold ret in H. injection H as _ <-. count_logs. lia.
Qed.

Lemma coarse_trials_ret_counts (k fuel : nat) (csteps : option nat) (adjh : nat) :
  forall (st st' : search_state) (l : list event),
    coarse_trials Xvar yvar n p k fuel csteps adjh st = (Ret st', l) ->
    k <= draws l /\ draws l <= k * fuel /\ elementals l = draws l
    /\ refits l <= k * passes csteps.
Proof.
  induction k as [|k IH]; intros st st' l H.
  - unfold coarse_trials, ret in H. injection H as _ <-. count_logs. lia.
  - cbn [coarse_trials] in H.
    apply bind_ret_inv in H as (st1 & l0 & l1 & H0 & H & ->).
    apply coarse_trial_ret_counts in H0 as (A1 & A2 & A3 & A4).
    apply IH in H as (B1 & B2 & B3 & B4).
    count_logs. lia.
Qed.

Lemma final_trials_ret_counts (csteps : option nat) (adjh : nat) (iis : list nat) :
  forall (st st' : search_state) (l : list event),
    final_trials Xvar yvar iis csteps adjh st = (Ret st', l) ->
    draws l = 0 /\ elementals l = 0
    /\ refits l <= List.length iis * passes csteps.
Proof.
  induction iis as [|ii iis IH]; intros st st' l H.
  - unfold final_trials, ret in H. injection H as _ <-. count_logs. lia.
  - cbn [final_trials] in H.
    apply bind_ret_inv in H as (b & l0 & l1 & H0 & H & ->).
    pose proof (item_log (bobj st) (Z.of_nat ii)) as E0.
    rewrite H0 in E0. simpl in E0. subst l0.
    destruct (isfinite b).
    + apply bind_ret_inv in H as (z0 & l2 & l3 & H1 & H & ->).
      pose proof (item_log (column ii (bcoeff st)) 0%Z) as E1.
      unfold first_entry in H1. rewrite H1 in E1. simpl in E1. subst l2.
      apply bind_ret_inv in H as (st1 & l4 & l5 & H2 & H & ->).
      apply IH in H as (B1 & B2 & B3).
      assert (draws l4 = 0 /\ elementals l4 = 0 /\ refits l4 <= passes csteps)
        as (A1 & A2 & A3).
      { destruct (isfinite z0).
        - apply bind_ret_inv in H2 as (r & l6 & l7 & H3 & H2 & ->).
          apply csteps_run_ret_log in H3 as (m & -> & Hm).
          assert (l7 = []) as ->.
          { destruct (_ <?~ _); unfold ret in H2; injection H2 as _ <-;
              reflexivity. }
          count_logs. lia.
        - unfold ret in H2. injection H2 as _ <-. count_logs. lia. }
      count_logs. cbn [List.length]. lia.
    + unfold ret in H. injection H as _ <-. count_logs. lia.
Qed.

(** [while final != 2] ends after two passes, the coarse one and the
    final one, whatever the passes find. *)
Lemma search_loop_two_passes (k fuel : nat) (st : search_state) :
  search_loop Xvar yvar n p h (S (S k)) fuel 0 st
  = st1 <- coarse_trials Xvar yvar n p ntrial fuel (Some csteps1) h st ;;
    st2 <- final_trials Xvar yvar (seq 0 (final_nsamp n)) (final_csteps n p) h st1 ;;
    ret st2.
Proof. destruct k; reflexivity. Qed.

Lemma search_ret_counts (fuel : nat) (st : search_state) (l : list event) :
  search Xvar yvar n p h fuel = (Ret st, l) ->
  ntrial <= draws l /\ draws l <= ntrial * fuel /\ elementals l = draws l
  /\ refits l <= ntrial * csteps1 + 10 * csteps2.
Proof.
  unfold search. rewrite search_loop_two_passes. intros H.
  apply bind_ret_inv in H as (st1 & l0 & l1 & H0 & H & ->).
  apply bind_ret_inv in H as (st2 & l2 & l3 & H1 & H & ->).
  unfold ret in H. injection H as _ <-.
  apply coarse_trials_ret_counts in H0 as (A1 & A2 & A3 & A4).
  apply final_trials_ret_counts in H1 as (B1 & B2 & B3).
  rewrite length_seq in B3.
  assert (List.length (@nil event) = 0) by reflexivity.
  assert (final_nsamp n * passes (final_csteps n p) <= 10 * csteps2) as B4.
  { unfold final_nsamp, final_csteps, csteps2.
    destruct (5000 <? Z.of_nat n)%Z;
      destruct (Z.of_nat (n * p) <=? 100000)%Z;
      try destruct (Z.of_nat (n * p) <=? 1000000)%Z; simpl; lia. }
  count_logs. cbn [passes] in A4. lia.
Qed.
End SearchCounts.

Section CallCounts.
Context {F : Type}.
Context {SF : Scalar F} {SP : Special F} {LM : Libm F}.
Context {LA : Lapack F} {FH : Fltsh F} {OS : OlsScale F}.

(** X6: the work of a call that returns on the general path.  It drew
    at least 500 subsets, one for each trial of the coarse phase, and with
    [fuel] draws allowed per trial at most 500 times [fuel]; it made one
    elemental fit for each draw, at most 500 * 4 + 10 * 100 C-step refits,
    at most one reweighted fit and no ordinary fit. *)
Theorem a_returned_call_has_bounded_work
    (fuel : nat) (X y : ndarray F) (alpha : F) (r : Result F) (log : list event) :
  fast_lts_array fuel X y alpha = (Ret r, log) ->
  (alpha ==~ fone) = false ->
  ntrial <= count_events is_draw log
  /\ count_events is_draw log <= ntrial * fuel
  /\ count_events (is_fit_at Elemental) log = count_events is_draw log
  /\ count_events (is_fit_at CStep) log <= ntrial * csteps1 + 10 * csteps2
  /\ count_events (is_fit_at Reweighted) log <= 1
  /\ count_events (is_fit_at Ordinary) log = 0.
Proof.
  intros H Ha.
  destruct (general_call_inv _ _ _ _ H Ha)
    as (d & st & l0 & l1 & l2 & _ & Hd & Hs & Hf & ->).
  pose proof (log_check_rank (rows X) (shape1 X)) as Hrk.
  pose proof (log_datamad_loop (eps_of (shape1 X)) (shape0 X)
                (map (data_column (rows X) (column 0 (rows y)) (shape1 X))
                   (seq 0 (shape1 X + 1)))) as Hl0.
  unfold compute_datamad in Hd. rewrite Hd in Hl0. cbn [snd] in Hl0.
  pose proof (log_search (standardize_X (shape1 X) d (rows X))
                (standardize_y (shape1 X) d (column 0 (rows y)))
                (shape0 X) (shape1 X)
                (hcalc alpha (shape0 X) (shape1 X)) fuel) as Hl1.
  rewrite Hs in Hl1. cbn [snd] in Hl1.
  apply search_ret_counts in Hs as (S1 & S2 & S3 & S4).
  assert (Hp : forall P, (forall s, P (Printed s) = false) ->
                         forall l, Forall printed_event l -> count_events P l = 0).
  { intros P HP l Hl. apply (count_none P (Q := printed_event)); [|exact Hl].
    intros [s | idx | s]; simpl; intros []; apply HP. }
  assert (Hq : forall P, P (Fitted Elemental) = false -> P (Fitted CStep) = false ->
                         (forall idx, P (Drew idx) = false) ->
                         count_events P l1 = 0).
  { intros P P1 P2 P3. apply (count_none P (Q := search_event)); [|exact Hl1].
    intros [s | idx | []]; simpl; intros []; auto. }
  assert (Hl2 : l2 = [Printed "An exact fit was found!"] \/ l2 = [Fitted Reweighted]).
  { destruct (finish_ret_inv _ _ _ _ _ _ _ _ Hf) as (rf & Hrf & _).
    destruct (_ <?~ _).
    - left. apply Hrf.
    - right. apply reweight_ret_inv in Hrf. apply Hrf. }
  rewrite !count_app.
  rewrite !(Hp _ (fun _ => eq_refl) _ Hrk), !(Hp _ (fun _ => eq_refl) _ Hl0).
  rewrite !(Hq (is_fit_at Reweighted)), !(Hq (is_fit_at Ordinary)) by reflexivity.
  destruct Hl2 as [-> | ->];
    change (count_events is_draw [_]) with 0;
    change (count_events (is_fit_at Elemental) [_]) with 0;
    change (count_events (is_fit_at CStep) [_]) with 0;
    change (count_events (is_fit_at Ordinary) [_]) with 0;
    [ change (count_events (is_fit_at Reweighted) [_]) with 0
    | change (count_events (is_fit_at Reweighted) [_]) with 1 ];
    lia.
Qed.
End CallCounts.

(* ------------------------------------------------------------------ *)
(** ** What each phase changes *)

Section Phases.
Context {F : Type}.
Context {SF : Scalar F} {SP : Special F} {LM : Libm F}.
Context {LA : Lapack F} {FH : Fltsh F} {OS : OlsScale F}.
Variables (Xvar : mat F) (yvar : vec F) (n p h : nat).

(** A trial of the coarse phase pools its candidate or not; the accepted
    objective and coefficients are not its business. *)
Lemma coarse_trial_frame (fuel : nat) (csteps : option nat) (adjh : nat)
    (st st' : search_state) (l : list event) :
  coarse_trial Xvar yvar n p fuel csteps adjh st = (Ret st', l) ->
  bestobj st' = bestobj st /\ coeffs st' = coeffs st.
Proof.
  unfold coarse_trial. intros H.
  apply bind_ret_inv in H as (u & l0 & l1 & _ & H & _).
  apply bind_ret_inv in H as ([z1 seed1] & l2 & l3 & _ & H & _).
  apply bind_ret_inv in H as (z0 & l4 & l5 & _ & H & _).
  destruct (isfinite z0).
  - apply bind_ret_inv in H as (r & l6 & l7 & _ & H & _).
    destruct (_ <?~ _); [destruct (insertion _ _ _ _)|];
      unfold ret in H; injection H as <- _; auto.
  - unfold ret in H. injection H as <- _. auto.
Qed.

Lemma coarse_trials_frame (k fuel : nat) (csteps : option nat) (adjh : nat) :
  forall (st st' : search_state) (l : list event),
    coarse_trials Xvar yvar n p k fuel csteps adjh st = (Ret st', l) ->
    bestobj st' = bestobj st /\ coeffs st' = coeffs st.
Proof.
  induction k as [|k IH]; intros st st' l H.
  - unfold coarse_trials, ret in H. injection H as <- _. auto.
  - cbn [coarse_trials] in H.
    apply bind_ret_inv in H as (st1 & l0 & l1 & H0 & H & _).
    apply coarse_trial_frame in H0 as [E1 E2].
    apply IH in H as [E3 E4]. split; congruence.
Qed.

(** The final phase leaves the seed and the pool alone; what it accepts is
    the outcome of its C-steps on a pooled candidate. *)
Lemma final_trials_frame (csteps : option nat) (adjh : nat) (iis : list nat) :
  forall (st st' : search_state) (l : list event),
    final_trials Xvar yvar iis csteps adjh st = (Ret st', l) ->
    seed st' = seed st /\ bcoeff st' = bcoeff st /\ bobj st' = bobj st
    /\ ((bestobj st' = bestobj st /\ coeffs st' = coeffs st)
        \/ exists ii b r lr,
             In ii iis
             /\ item (bobj st) (Z.of_nat ii) = ret b /\ isfinite b = true
             /\ csteps_run Xvar yvar csteps adjh (column ii (bcoeff st)) = (Ret r, lr)
             /\ bestobj st' = cs_obj r /\ coeffs st' = cs_z r).
Proof.
  induction iis as [|ii iis IH]; intros st st' l H.
  - unfold final_trials, ret in H. injection H as <- _. auto 6.
  - cbn [final_trials] in H.
    apply bind_ret_inv in H as (b & l0 & l1 & H0 & H & _).
    pose proof (item_log (bobj st) (Z.of_nat ii)) as E0.
    rewrite H0 in E0. simpl in E0. subst l0.
    destruct (isfinite b) eqn:Eb.
    2:{ unfold ret in H. injection H as <- _. auto 6. }
    apply bind_ret_inv in H as (z0 & l2 & l3 & _ & H & _).
    apply bind_ret_inv in H as (st1 & l4 & l5 & H2 & H & _).
    apply IH in H as (E1 & E2 & E3 & Hacc).
    assert (seed st1 = seed st /\ bcoeff st1 = bcoeff st /\ bobj st1 = bobj st
            /\ ((bestobj st1 = bestobj st /\ coeffs st1 = coeffs st)
                \/ exists r lr,
                     csteps_run Xvar yvar csteps adjh (column ii (bcoeff st))
                     = (Ret r, lr)
                     /\ bestobj st1 = cs_obj r /\ coeffs st1 = cs_z r))
      as (A1 & A2 & A3 & Hst1).
    { destruct (isfinite z0).
      - apply bind_ret_inv in H2 as (r & l6 & l7 & H3 & H2 & _).
        destruct (_ <?~ _); unfold ret in H2; injection H2 as <-; simpl;
          eauto 10.
      - unfold ret in H2. injection H2 as <-. simpl. auto 6. }
    split; [congruence|]. split; [congruence|]. split; [congruence|].
    destruct Hacc as [[B1 B2] | (jj & b' & r & lr & Hin & Hb & Hfin & Hr & B1 & B2)].
    + destruct Hst1 as [[C1 C2] | (r & lr & Hr & C1 & C2)].
      * left. split; congruence.
      * right. exists ii, b, r, lr. simpl.
        repeat (split; [first [left; reflexivity | assumption | congruence]|]).
        congruence.
    + right. exists jj, b', r, lr. rewrite <- A2, <- A3. simpl. auto 10.
Qed.
End Phases.

Section Acceptance.
Context {F : Type}.
Context {SF : Scalar F} {SP : Special F} {LM : Libm F}.
Context {LA : Lapack F} {FH : Fltsh F} {OS : OlsScale F}.
Variables (Xvar : mat F) (yvar : vec F) (n p h : nat).

(** X7: where the accepted coefficients come from.  A search that
    returns went through the coarse phase, which accepts nothing (the best
    objective is still infinite and the coefficients are still NaN after
    it), and through the final phase, which leaves the seed and the pool as
    they were.  What the search accepts is either nothing, or the outcome
    of the final C-steps on one pooled candidate whose pooled objective is
    finite, together with the objective of that outcome. *)
Theorem accepted_coefficients_come_from_the_final_phase
    (fuel : nat) (st : search_state) (l : list event) :
  search Xvar yvar n p h fuel = (Ret st, l) ->
  exists st1 l1 l2,
    coarse_trials Xvar yvar n p ntrial fuel (Some csteps1) h (initial_state p)
    = (Ret st1, l1)
    /\ l = l1 ++ l2
    /\ bestobj st1 = inf /\ coeffs st1 = repeat nan p
    /\ seed st = seed st1 /\ bcoeff st = bcoeff st1 /\ bobj st = bobj st1
    /\ ((bestobj st = inf /\ coeffs st = repeat nan p)
        \/ exists ii b r lr,
             ii < final_nsamp n
             /\ item (bobj st1) (Z.of_nat ii) = ret b /\ isfinite b = true
             /\ csteps_run Xvar yvar (final_csteps n p) h (column ii (bcoeff st1))
                = (Ret r, lr)
             /\ bestobj st = cs_obj r /\ coeffs st = cs_z r).
Proof.
  unfold search. rewrite search_loop_two_passes. intros H.
  apply bind_ret_inv in H as (st1 & l1 & l2 & H1 & H & ->).
  apply bind_ret_inv in H as (st2 & l3 & l4 & H2 & H & ->).
  unfold ret in H. injection H as <- <-. rewrite app_nil_r.
  exists st1, l1, l3. split; [exact H1|]. split; [reflexivity|].
  apply coarse_trials_frame in H1 as [E1 E2]. cbn [initial_state bestobj coeffs] in E1, E2.
  apply final_trials_frame in H2 as (A1 & A2 & A3 & Hacc).
  split; [exact E1|]. split; [exact E2|].
  split; [exact A1|]. split; [exact A2|]. split; [exact A3|].
  destruct Hacc as [[B1 B2] | (ii & b & r & lr & Hin & Hb & Hfin & Hr & B1 & B2)].
  - left. split; congruence.
  - right. exists ii, b, r, lr. apply in_seq in Hin as [_ Hin].
    rewrite Nat.add_0_l in Hin. auto 8.
Qed.

(** X8: with more than 100000 and at most 1000000 entries in the design
    matrix, line 142 makes [csteps] a float; when the first pooled candidate
    is finite, the final phase then ends at [range(0, csteps)] (line 169)
    with a TypeError, before any refit. *)
Theorem a_float_number_of_csteps_is_a_type_error
    (fuel : nat) (st : search_state) (b z0 : F) :
  (100000 < Z.of_nat (n * p))%Z ->
  (Z.of_nat (n * p) <= 1000000)%Z ->
  item (bobj st) 0%Z = ret b -> isfinite b = true ->
  first_entry (column 0 (bcoeff st)) = ret z0 -> isfinite z0 = true ->
  pass Xvar yvar n p h fuel 1 st
  = (Raise (TypeError "'numpy.float64' object cannot be interpreted as an integer"),
     []).
Proof.
  intros Hlo Hhi Hb Hfb Hz Hfz.
  unfold pass. cbn [Nat.eqb].
  assert (final_csteps n p = None) as ->.
  { unfold final_csteps.
    destruct (Z.leb_spec (Z.of_nat (n * p)) 100000); [lia|].
    destruct (Z.leb_spec (Z.of_nat (n * p)) 1000000); [reflexivity | lia]. }
  assert (exists k, seq 0 (final_nsamp n) = 0 :: seq 1 k) as [k ->].
  { unfold final_nsamp. destruct (_ <? _)%Z; eexists; reflexivity. }
  cbn [final_trials]. change (Z.of_nat 0) with 0%Z.
  rewrite Hb, bind_ret_l, Hfb, Hz, bind_ret_l, Hfz.
  reflexivity.
Qed.
End Acceptance.

(* ------------------------------------------------------------------ *)
(** ** Runs that no loop cuts short *)

Create HintDb completeness.

Section Completeness.
Context {F : Type}.
Context {SF : Scalar F} {SP : Special F} {LM : Libm F}.
Context {LA : Lapack F} {FH : Fltsh F} {OS : OlsScale F}.

Lemma complete_bind {A B : Type} (m : M A) (k : A -> M B) :
  complete m -> (forall a l, m = (Ret a, l) -> complete (k a)) ->
  complete (bind m k).
Proof.
  unfold complete. destruct m as [[a | e |] l]; simpl; intros Hm Hk;
    try discriminate; [|congruence].
  specialize (Hk a l eq_refl). destruct (k a). exact Hk.
Qed.

Lemma complete_ret {A : Type} (a : A) : complete (ret a).
Proof. discriminate. Qed.

Lemma complete_raise {A : Type} (e : exn) : complete (@raise A e).
Proof. discriminate. Qed.

Lemma complete_emit (e : event) : complete (emit e).
Proof. discriminate. Qed.

Lemma complete_item {A : Type} (a : list A) (i : Z) : complete (item a i).
Proof.
  unfold item. destruct (_ && _); [destruct (nth_error _ _)|]; discriminate.
Qed.

Lemma complete_lift {A : Type} (r : exn + A) : complete (lift r).
Proof. destruct r; discriminate. Qed.
End Completeness.

#[export] Hint Resolve complete_ret complete_raise complete_emit complete_item
  complete_lift : completeness.

(** One step of a run that no loop can cut short. *)
Ltac completeness :=
  repeat first
    [ progress auto with completeness
    | apply complete_bind; [|intros ? ? ?]
    | match goal with
      | |- complete (if ?b then _ else _) => destruct b
      | |- complete (match ?x with (_, _) => _ end) => destruct x
      | |- complete (let (_, _) := ?x in _) => destruct x
      end ].

Section CompletenessOfTheCall.
Context {F : Type}.
Context {SF : Scalar F} {SP : Special F} {LM : Libm F}.
Context {LA : Lapack F} {FH : Fltsh F} {OS : OlsScale F}.

Lemma complete_take {A : Type} (a : list A) (index : list Z) :
  complete (take a index).
Proof. induction index as [|i index IH]; simpl; completeness. Qed.
Hint Resolve complete_take : completeness.

Lemma complete_solve (s : site) (A : mat F) (b : vec F) : complete (solve s A b).
Proof. unfold solve. completeness. Qed.
Hint Resolve complete_solve : completeness.

Lemma complete_first_entry (z : vec F) : complete (first_entry z).
Proof. unfold first_entry. completeness. Qed.
Hint Resolve complete_first_entry : completeness.

Lemma complete_csteps_from (Xvar : mat F) (yvar : vec F) (k : nat) :
  forall jj adjh residu prevobj cur,
    complete (csteps_from Xvar yvar k jj adjh residu prevobj cur).
Proof.
  induction k as [|k IH]; intros; cbn [csteps_from]; unfold cstep; completeness.
Qed.
Hint Resolve complete_csteps_from : completeness.

Lemma complete_csteps_run (Xvar : mat F) (yvar : vec F) (csteps : option nat)
    (adjh : nat) (z : vec F) :
  complete (csteps_run Xvar yvar csteps adjh z).
Proof. unfold csteps_run. destruct csteps; completeness. Qed.
Hint Resolve complete_csteps_run : completeness.

Lemma complete_final_trials (Xvar : mat F) (yvar : vec F) (csteps : option nat)
    (adjh : nat) (iis : list nat) :
  forall st, complete (final_trials Xvar yvar iis csteps adjh st).
Proof.
  induction iis as [|ii iis IH]; intros; cbn [final_trials]; completeness.
Qed.

Lemma complete_datamad_loop (eps : F) (n : nat) (cols : list (vec F)) :
  complete (datamad_loop eps n cols).
Proof.
  induction cols as [|col cols IH]; cbn [datamad_loop]; completeness.
  rewrite datamad_entry_eq. discriminate.
Qed.

Lemma complete_finish (xorig yorig : ndarray F) (n p h : nat) (alpha : F)
    (datamad coeffs : vec F) :
  complete (finish xorig yorig n p h alpha datamad coeffs).
Proof. unfold finish, reweight, decode, print. completeness. Qed.

(** Where the solver answers no infinity in the first place of a vector. *)
Hypothesis no_infinity :
  forall A b z00 rest, qr_lstsq A b = inr (z00 :: rest) -> (z00 ==~ inf) = false.

Variables (Xvar : mat F) (yvar : vec F) (n p h : nat).

Lemma draw_once_solver (seed seed' : Z) (z : vec F) (l : list event) :
  draw_once Xvar yvar n p seed = (Ret (z, seed'), l) ->
  exists Xs ys, qr_lstsq Xs ys = inr z.
Proof.
  unfold draw_once. destruct (randomset n p seed) as [index s']. intros H.
  apply bind_ret_inv in H as ([] & l0 & l1 & _ & H & _).
  apply bind_ret_inv in H as (Xs & l2 & l3 & _ & H & _).
  apply bind_ret_inv in H as (ys & l4 & l5 & _ & H & _).
  apply bind_ret_inv in H as (z' & l6 & l7 & H3 & H & _).
  unfold ret in H. injection H as <- _ _.
  rewrite solve_eq in H3. exists Xs, ys.
  destruct (qr_lstsq Xs ys); [discriminate H3|]. injection H3 as <- _. reflexivity.
Qed.

Lemma complete_draw_loop (fuel : nat) (seed : Z) :
  1 <= fuel -> complete (draw_loop Xvar yvar n p fuel seed).
Proof.
  destruct fuel as [|fuel]; [lia|]. intros _. cbn [draw_loop].
  apply complete_bind.
  { unfold draw_once. completeness. }
  intros [z seed'] l Hd. apply complete_bind; [completeness|].
  intros z00 l' Hz.
  apply draw_once_solver in Hd as (Xs & ys & Hs).
  destruct z as [|z0 rest]; [discriminate Hz|].
  rewrite first_entry_cons in Hz. injection Hz as -> _.
  rewrite (no_infinity _ _ Hs). completeness.
Qed.

Lemma complete_coarse_trials (k fuel : nat) (csteps : option nat) (adjh : nat) :
  1 <= fuel ->
  forall st, complete (coarse_trials Xvar yvar n p k fuel csteps adjh st).
Proof.
  intros Hfuel. induction k as [|k IH]; intros st; cbn [coarse_trials];
    [completeness|].
  apply complete_bind; [|intros; apply IH].
  unfold coarse_trial. apply complete_bind; [completeness|]. intros _ _ _.
  apply complete_bind; [apply complete_draw_loop; exact Hfuel|].
  intros [z1 seed1] l _. completeness.
Qed.

Lemma complete_search (fuel : nat) :
  1 <= fuel -> complete (search Xvar yvar n p h fuel).
Proof.
  intros Hfuel. unfold search. rewrite search_loop_two_passes.
  apply complete_bind; [apply complete_coarse_trials; exact Hfuel|].
  intros st1 l _. apply complete_bind; [apply complete_final_trials|].
  intros. completeness.
Qed.
End CompletenessOfTheCall.

Section TerminationOfTheCall.
Context {F : Type}.
Context {SF : Scalar F} {SP : Special F} {LM : Libm F}.
Context {LA : Lapack F} {FH : Fltsh F} {OS : OlsScale F}.

(** X9: the sampling loop of lines 159-164 is the only loop without a
    bound.  With a solver that never answers an infinity in the first place
    of a vector, every trial draws once: the call on the general path runs
    to its end (it returns or raises) with one draw allowed per trial, and
    allowing more changes nothing. *)
Theorem a_solver_without_infinities_ends_the_sampling
    (fuel : nat) (X y : ndarray F) (alpha : F) :
  (forall A b z00 rest, qr_lstsq A b = inr (z00 :: rest) -> (z00 ==~ inf) = false) ->
  (alpha ==~ fone) = false ->
  1 <= fuel ->
  complete (fast_lts_array fuel X y alpha)
  /\ fast_lts_array fuel X y alpha = fast_lts_array 1 X y alpha.
Proof.
  intros Hno Ha Hfuel.
  assert (Hc : forall k, 1 <= k -> complete (fast_lts_array k X y alpha)).
  { intros k Hk. unfold fast_lts_array.
    apply complete_bind; [unfold validate; completeness|].
    intros [n p] l _. unfold after_validation.
    apply complete_bind; [unfold check_rank, print; completeness|].
    intros _ _ _.
    apply complete_bind; [apply complete_datamad_loop|].
    intros datamad l0 _. rewrite Ha. unfold general_path.
    apply complete_bind; [apply complete_search; assumption|].
    intros st l1 _. apply complete_finish. }
  split; [apply Hc; exact Hfuel|].
  apply (mono_call X y alpha); [exact Hfuel | apply Hc; lia].
Qed.
End TerminationOfTheCall.

(** A finite binary64 number is not the infinity. *)
Lemma finite_is_not_infinity (x : float) :
  isfinite x = true -> PrimFloat.eqb x PrimFloat.infinity = false.
Proof.
  cbn [isfinite float_special]. intros H.
  apply negb_true_iff, orb_false_iff in H as [_ H].
  unfold PrimFloat.is_infinity in H.
  rewrite FloatAxioms.eqb_spec in H |- *. rewrite FloatAxioms.abs_spec in H.
  change (Prim2SF PrimFloat.infinity) with (SpecFloat.S754_infinity false) in *.
  destruct (Prim2SF x) as [s | [|] | | s m e]; try reflexivity.
  discriminate H.
Qed.

(** The careful solver answers no infinity. *)
Lemma careful_lapack_answers_no_infinity (A : mat float) (b : vec float)
    (z00 : float) (rest : vec float) :
  @qr_lstsq float float_scalar Cases.careful_lapack A b = inr (z00 :: rest) ->
  (z00 ==~ inf) = false.
Proof.
  unfold qr_lstsq. cbn [qr lstsq Cases.careful_lapack].
  destruct (ref_qr A) as [e | [q r]]; [discriminate 1|].
  unfold Cases.careful_lstsq. destruct (float_lstsq _ _) as [e | z]; [discriminate 1|].
  destruct (all_finite z) eqn:E; [|discriminate 1].
  intros [= ->]. simpl in E. apply andb_prop in E as [E _].
  apply finite_is_not_infinity. exact E.
Qed.

(** The theorem of X9 with the careful solver on the noisy delays. *)
Lemma a_solver_without_infinities_ends_the_sampling_witness :
  complete (@fast_lts_array float _ _ _ Cases.careful_lapack _ _ 3
              Examples.X6 Examples.y_noisy (lit 5 1)).
Proof.
  apply (@a_solver_without_infinities_ends_the_sampling float _ _ _
           Cases.careful_lapack _ _ 3 Examples.X6 Examples.y_noisy (lit 5 1)).
  - exact careful_lapack_answers_no_infinity.
  - vm_compute. reflexivity.
  - lia.
Defined.

(* ------------------------------------------------------------------ *)
(** ** Standardization and back *)

Section RoundTrip.
Local Open Scope Q_scope.

Lemma map_at_pointwise (i : nat) (f : Q -> Q) (l : vec Q) :
  (forall c, f c == c) -> Forall2 Qeq (map_at i f l) l.
Proof.
  intros Hf. revert i. induction l as [|x l IH]; intros [|i]; simpl.
  - constructor.
  - constructor.
  - constructor; [apply Hf|]. clear. induction l; constructor; [reflexivity | assumption].
  - constructor; [reflexivity | apply IH].
Qed.

Lemma pointwise_refl (l : vec Q) : Forall2 Qeq l l.
Proof. induction l; constructor; [reflexivity | assumption]. Qed.

(** The row of the standardized matrix against [z], and the original row
    against the coefficients scaled back. *)
Lemma dot_scaled_back (dp : Q) (ds : vec Q) :
  Forall (fun s => ~ s == 0) ds ->
  forall row z : vec Q,
    List.length row = List.length ds -> List.length z = List.length ds ->
    dot row (zip_with (fun c s => c * dp / s) z ds)
    == dp * dot (zip_with Qdiv row ds) z.
Proof.
  induction 1 as [|s ds Hs _ IH]; intros [|x row] [|c z] Hr Hz;
    try discriminate Hr; try discriminate Hz.
  - unfold dot. simpl. rewrite np_sum_nil_Q. ring.
  - cbn [zip_with]. rewrite !dot_cons.
    rewrite (IH row z) by (simpl in *; lia).
    field. exact Hs.
Qed.

Lemma rescale_pointwise (p : nat) (d z : vec Q) :
  List.length d = (p + 1)%nat -> List.length z = p ->
  ~ nth (p - 1) d 0 == 0 ->
  Forall2 Qeq (rescale p d z)
    (zip_with (fun c s => c * nth p d 0 / s) z (firstn p d)).
Proof.
  intros Hd Hz Hdl. unfold rescale. destruct (p <=? 1)%nat eqn:Ep.
  - apply Nat.leb_le in Ep.
    destruct p as [|[|p]]; [| |lia].
    + destruct z; [constructor | discriminate Hz].
    + destruct z as [|z0 [|]]; try discriminate Hz.
      destruct d as [|d0 [|d1 [|]]]; try discriminate Hd.
      simpl. constructor; [reflexivity | constructor].
  - cbn [fmul fdiv Q_scalar fzero of_Z].
    change (inject_Z 0) with 0.
    apply map_at_pointwise. intros c. field. exact Hdl.
Qed.

Lemma vsub_scaled (dp : Q) (y : vec Q) :
  ~ dp == 0 ->
  forall A B : vec Q,
    Forall2 Qeq A (map (Qmult dp) B) ->
    Forall2 Qeq (vsub y A)
      (map (Qmult dp) (vsub (map (fun v => v / dp) y) B)).
Proof.
  intros Hdp. induction y as [|v y IH]; intros A B H; [constructor|].
  destruct B as [|b B]; inversion H as [|a e A' B' Hab HAB]; subst; [constructor|].
  unfold vsub. cbn [map zip_with]. constructor.
  - cbn [fsub Q_scalar]. rewrite Hab. field. exact Hdp.
  - apply IH. exact HAB.
Qed.

(** X10: scaling back (lines 202-207) undoes the standardization
    (lines 110-112), in exact arithmetic and with no scale equal to zero:
    the original design matrix times the coefficients scaled back is the
    standardized matrix times the standardized coefficients, multiplied by
    the scale of the responses; and so are the residuals. *)
Theorem scaling_back_undoes_the_standardization
    (p : nat) (d z y : vec Q) (X : mat Q) :
  List.length d = (p + 1)%nat ->
  List.length z = p ->
  Forall (fun row => List.length row = p) X ->
  Forall (fun s => ~ s == 0) d ->
  let dp := nth p d 0 in
  Forall2 Qeq (matvec X (rescale p d z))
    (map (Qmult dp) (matvec (standardize_X p d X) z))
  /\ Forall2 Qeq (vsub y (matvec X (rescale p d z)))
       (map (Qmult dp)
          (vsub (standardize_y p d y) (matvec (standardize_X p d X) z))).
Proof.
  intros Hd Hz HX Hnz dp.
  assert (Hnth : forall i, (i < List.length d)%nat -> ~ nth i d 0 == 0).
  { intros i Hi. rewrite Forall_forall in Hnz. apply Hnz, nth_In, Hi. }
  assert (Hfit : Forall2 Qeq (matvec X (rescale p d z))
                   (map (Qmult dp) (matvec (standardize_X p d X) z))).
  { induction HX as [|row X Hrow _ IH]; [constructor|].
    cbn [matvec standardize_X map]. constructor; [|exact IH].
    rewrite (@dot_pointwise row _ _
               (@rescale_pointwise p d z Hd Hz (Hnth (p - 1)%nat ltac:(lia)))).
    apply dot_scaled_back.
    - rewrite <- (firstn_skipn p d) in Hnz. apply Forall_app in Hnz. apply Hnz.
    - rewrite length_firstn. lia.
    - rewrite length_firstn. lia. }
  split; [exact Hfit|].
  apply vsub_scaled; [|exact Hfit].
  apply Hnth. lia.
Qed.

(** The theorem of X10 on two rows with the scales 2, 4 and 8. *)
Lemma scaling_back_undoes_the_standardization_witness :
  Forall2 Qeq
    (vsub [1; 2] (matvec [[2; 4]; [6; 8]] (rescale 2 [2; 4; 8] [1; 3])))
    (map (Qmult 8)
       (vsub (standardize_y 2 [2; 4; 8] [1; 2])
          (matvec (standardize_X 2 [2; 4; 8] [[2; 4]; [6; 8]]) [1; 3]))).
Proof.
  apply (@scaling_back_undoes_the_standardization 2 [2; 4; 8] [1; 3] [1; 2]
           [[2; 4]; [6; 8]]).
  - reflexivity.
  - reflexivity.
  - repeat constructor.
  - repeat constructor; discriminate.
Defined.
End RoundTrip.

(* ------------------------------------------------------------------ *)
(** ** The subset of a C-step *)

Section Selection.
Local Open Scope Q_scope.

Lemma insert_nat_sorted (x : nat) (l : list nat) :
  StronglySorted le l -> StronglySorted le (insert_nat x l).
Proof.
  induction 1 as [|e l Hl IH He]; simpl.
  - repeat constructor.
  - destruct (Nat.ltb_spec e x) as [Hlt | Hge].
    + constructor; [exact IH|].
      apply (Permutation_Forall (Permutation_sym (insert_nat_perm x l))).
      constructor; [lia | exact He].
    + constructor; [constructor; assumption|].
      constructor; [exact Hge|].
      eapply Forall_impl; [|exact He]. intros a Ha. lia.
Qed.

Lemma sort_nat_sorted (l : list nat) : StronglySorted le (sort_nat l).
Proof.
  induction l as [|x l IH]; simpl; [constructor | apply insert_nat_sorted, IH].
Qed.

Lemma sorted_without_repeats (l : list nat) :
  StronglySorted le l -> NoDup l -> StronglySorted lt l.
Proof.
  induction 1 as [|x l Hl IH Hx]; intros Hnd; [constructor|].
  inversion Hnd as [|x' l' Hnotin Hnd']; subst.
  constructor; [apply IH, Hnd'|].
  rewrite Forall_forall in Hx |- *. intros a Ha.
  specialize (Hx a Ha). assert (x <> a) by (intros ->; contradiction). lia.
Qed.

Lemma sorted_app_le (l1 l2 : list Q) :
  StronglySorted Qle (l1 ++ l2) ->
  forall x y, In x l1 -> In y l2 -> x <= y.
Proof.
  induction l1 as [|a l1 IH]; intros Hs x y Hx Hy; [destruct Hx|].
  simpl in Hs. inversion Hs as [|a' l' Hs' Ha]; subst.
  destruct Hx as [<- | Hx].
  - rewrite Forall_forall in Ha. apply Ha, in_or_app. right. exact Hy.
  - apply IH; assumption.
Qed.

(** X11: the subset a C-step refits (lines 171-175), in exact
    arithmetic: [adjh] row numbers (all of them, when there are fewer
    rows), each one in range, without repetition and in increasing order,
    and no row left out has a smaller absolute residual than a row of the
    subset. *)
Theorem cstep_subset_holds_the_smallest_residuals (adjh : nat) (r : vec Q) :
  let idx := sort_nat (ranked_indices adjh r) in
  List.length idx = Nat.min adjh (List.length r)
  /\ NoDup idx
  /\ StronglySorted lt idx
  /\ (forall i, In i idx -> (i < List.length r)%nat)
  /\ (forall i j, In i idx -> (j < List.length r)%nat -> ~ In j idx ->
        Qabs (nth i r 0) <= Qabs (nth j r 0)).
Proof.
  intros idx. set (A := np_argsort (map Qabs r)).
  assert (HA : Permutation A (seq 0 (List.length r))).
  { unfold A. rewrite <- (length_map Qabs r). apply argsort_perm. }
  assert (Hidx : Permutation idx (firstn adjh A)) by apply sort_nat_perm.
  assert (HndA : NoDup A).
  { apply (Permutation_NoDup (Permutation_sym HA)), seq_NoDup. }
  assert (Hnd : NoDup idx).
  { apply (Permutation_NoDup (Permutation_sym Hidx)).
    rewrite <- (firstn_skipn adjh A) in HndA.
    apply NoDup_app_remove_r in HndA. exact HndA. }
  split.
  { rewrite (Permutation_length Hidx), length_firstn, (Permutation_length HA).
    rewrite length_seq. reflexivity. }
  split; [exact Hnd|].
  split; [apply sorted_without_repeats; [apply sort_nat_sorted | exact Hnd]|].
  split.
  { intros i Hi. apply (Permutation_in _ Hidx) in Hi.
    assert (In i A) as HiA.
    { rewrite <- (firstn_skipn adjh A). apply in_or_app. left. exact Hi. }
    apply (Permutation_in _ HA), in_seq in HiA. lia. }
  intros i j Hi Hj Hnj.
  assert (Hi' : In i (firstn adjh A)) by (apply (Permutation_in _ Hidx), Hi).
  assert (Hj' : In j (skipn adjh A)).
  { assert (In j A) as HjA.
    { apply (Permutation_in _ (Permutation_sym HA)), in_seq. lia. }
    rewrite <- (firstn_skipn adjh A) in HjA.
    apply in_app_or in HjA as [HjA | HjA]; [|exact HjA].
    exfalso. apply Hnj. apply (Permutation_in _ (Permutation_sym Hidx)), HjA. }
  pose proof (np_sort_sorted (map Qabs r)) as Hs.
  rewrite <- (argsort_sorts (map Qabs r) 0) in Hs. fold A in Hs.
  rewrite <- (firstn_skipn adjh A), map_app in Hs.
  rewrite <- (@nth_map_default Q Q Qabs r i 0 0 eq_refl).
  rewrite <- (@nth_map_default Q Q Qabs r j 0 0 eq_refl).
  apply (sorted_app_le _ _ Hs).
  - apply (in_map (fun k => nth k (map Qabs r) 0)), Hi'.
  - apply (in_map (fun k => nth k (map Qabs r) 0)), Hj'.
Qed.
End Selection.

(* ------------------------------------------------------------------ *)
(** ** The end of the final phase *)

Section Break.
Context {F : Type}.
Context {SF : Scalar F} {SP : Special F} {LM : Libm F}.
Context {LA : Lapack F} {FH : Fltsh F} {OS : OlsScale F}.
Variables (Xvar : mat F) (yvar : vec F).

Lemma bind_ext {A B : Type} (m : M A) (k1 k2 : A -> M B) :
  (forall a l, m = (Ret a, l) -> k1 a = k2 a) -> bind m k1 = bind m k2.
Proof.
  destruct m as [[a | e |] l]; intros H; try reflexivity.
  simpl. rewrite (H a l eq_refl). reflexivity.
Qed.

(** X12: the [break] of line 156.  The final phase stops at the first
    pooled objective that is not finite: the candidates after it in the
    pool are not looked at, whether finite or not. *)
Theorem final_phase_stops_at_the_first_empty_slot
    (csteps : option nat) (adjh ii : nat) (b : F) (post : list nat) :
  forall (pre : list nat) (st : search_state),
    item (bobj st) (Z.of_nat ii) = ret b ->
    isfinite b = false ->
    final_trials Xvar yvar (pre ++ ii :: post) csteps adjh st
    = final_trials Xvar yvar pre csteps adjh st.
Proof.
  induction pre as [|i pre IH]; intros st Hb Hfin.
  - cbn [app final_trials]. rewrite Hb, bind_ret_l, Hfin. reflexivity.
  - cbn [app final_trials]. apply bind_ext. intros b' l' _.
    destruct (isfinite b'); [|reflexivity].
    apply bind_ext. intros z0 l0 _.
    apply bind_ext. intros st' l1 Hst'.
    apply IH; [|exact Hfin].
    assert (bobj st' = bobj st) as ->; [|exact Hb].
    destruct (isfinite z0).
    + apply bind_ret_inv in Hst' as (r & l2 & l3 & _ & Hst' & _).
      destruct (_ <?~ _); unfold ret in Hst'; injection Hst' as <-; reflexivity.
    + unfold ret in Hst'. injection Hst' as <-. reflexivity.
Qed.
End Break.

(* ------------------------------------------------------------------ *)
(** ** The properties above on the example inputs *)

(** The noisy call runs on the general path. *)
Lemma noisy_call_is_general :
  exists r log,
    fast_lts_array 5 Examples.X6 Examples.y_noisy (lit 5 1) = (Ret r, log)
    /\ (lit 5 1 ==~ fone) = false.
Proof.
  destruct noisy_call_returns as (r & log & _ & _ & H & _).
  exists r, log. split; [exact H | vm_compute; reflexivity].
Qed.

(** The theorem of X1 on the noisy delays. *)
Lemma rsquared_lies_between_zero_and_one_witness :
  exists r log,
    fast_lts_array 5 Examples.X6 Examples.y_noisy (lit 5 1) = (Ret r, log)
    /\ (isnan (rsquared r) = true
        \/ ((fzero <=?~ rsquared r) = true /\ (rsquared r <=?~ fone) = true)).
Proof.
  destruct noisy_call_is_general as (r & log & H & Ha).
  exists r, log. split; [exact H|].
  exact (proj1 rsquared_lies_between_zero_and_one _ _ _ _ _ _ _ _ _ _ H Ha).
Defined.

(** The theorem of X2 on one coordinate: the three delays lie on the line
    of slope 0.5, the fit is exact, and the decoder finds one coefficient. *)
Lemma fewer_than_two_coefficients_raise_witness :
  finish Cases.X_one_column Cases.y_one_column 3 1 2 (lit 5 1) [1; 1]%float
    [lit 5 1]
  = (Raise (IndexError "index out of bounds"), [Printed "An exact fit was found!"]).
Proof.
  apply (proj1 (proj2 (fewer_than_two_coefficients_raise
                         Cases.X_one_column Cases.y_one_column 3 1 2 (lit 5 1)
                         [1; 1]%float [lit 5 1]))).
  - vm_compute. reflexivity.
  - simpl. lia.
Defined.

(** The theorem of X3 on the noisy delays. *)
Lemma result_fields_are_consistent_witness :
  exists r log,
    fast_lts_array 5 Examples.X6 Examples.y_noisy (lit 5 1) = (Ret r, log)
    /\ fitted r = matvec (rows Examples.X6) (coefficients r)
    /\ residuals r = vsub (column 0 (rows Examples.y_noisy)) (fitted r).
Proof.
  destruct noisy_call_is_general as (r & log & H & Ha).
  exists r, log. split; [exact H|].
  destruct (result_fields_are_consistent _ _ _ _ H Ha) as (E1 & E2 & _).
  split; assumption.
Defined.

(** The theorem of X4 on the noisy delays. *)
Lemma flags_follow_the_branch_witness :
  exists r log,
    fast_lts_array 5 Examples.X6 Examples.y_noisy (lit 5 1) = (Ret r, log)
    /\ (scale r = of_Z 0
        \/ flagged r
           = map (fun e => fabs (e /~ scale r) <=?~ lit 25 1) (residuals r)).
Proof.
  destruct noisy_call_is_general as (r & log & H & Ha).
  exists r, log. split; [exact H|].
  destruct (flags_follow_the_branch _ _ _ _ H Ha)
    as [(l & _ & _ & _ & E & _) | (l & _ & _ & _ & E)]; [left | right]; exact E.
Defined.

(** Five C-steps on the five delays of the line return. *)
Lemma line_run_returns :
  exists r log,
    @csteps_run Q _ Q_lapack Examples.X_line Examples.y_line (Some 5) 3 [5%Q]
    = (Ret r, log).
Proof.
  remember (@csteps_run Q _ Q_lapack Examples.X_line Examples.y_line (Some 5) 3 [5%Q])
    as m eqn:Hm.
  vm_compute in Hm. rewrite Hm.
  match type of Hm with _ = (Ret ?r, ?l) => exists r, l end. reflexivity.
Qed.

(** The theorem of X5 on that run. *)
Lemma cstep_loop_stops_at_the_first_repeat_witness :
  exists r log,
    @csteps_run Q _ Q_lapack Examples.X_line Examples.y_line (Some 5) 3 [5%Q]
    = (Ret r, log)
    /\ log = repeat (Fitted CStep) (List.length (cs_history r))
    /\ List.length (cs_history r) <= 5.
Proof.
  destruct line_run_returns as (r & log & H).
  exists r, log. split; [exact H|].
  destruct (@cstep_loop_stops_at_the_first_repeat Q _ Q_lapack Examples.X_line
              Examples.y_line 5 3 [5%Q] r log H) as (E1 & _ & E2 & _).
  split; assumption.
Defined.

(** The theorem of X6 on the noisy delays. *)
Lemma a_returned_call_has_bounded_work_witness :
  exists r log,
    fast_lts_array 5 Examples.X6 Examples.y_noisy (lit 5 1) = (Ret r, log)
    /\ ntrial <= count_events is_draw log
    /\ count_events (is_fit_at CStep) log <= ntrial * csteps1 + 10 * csteps2.
Proof.
  destruct noisy_call_is_general as (r & log & H & Ha).
  exists r, log. split; [exact H|].
  destruct (a_returned_call_has_bounded_work _ _ _ _ H Ha) as (E1 & _ & _ & E2 & _).
  split; assumption.
Defined.

(** The search on the noisy delays, as they are, with four points kept. *)
Lemma noisy_search_returns :
  exists st l,
    search (rows Examples.X6) (column 0 (rows Examples.y_noisy)) 6 2 4 1
    = (Ret st, l).
Proof.
  remember (search (rows Examples.X6) (column 0 (rows Examples.y_noisy)) 6 2 4 1)
    as m eqn:Hm.
  vm_compute in Hm. rewrite Hm.
  match type of Hm with _ = (Ret ?r, ?l) => exists r, l end. reflexivity.
Qed.

(** The theorem of X7 on that search. *)
Lemma accepted_coefficients_come_from_the_final_phase_witness :
  exists st l st1,
    search (rows Examples.X6) (column 0 (rows Examples.y_noisy)) 6 2 4 1
    = (Ret st, l)
    /\ bobj st = bobj st1 /\ bcoeff st = bcoeff st1
    /\ bestobj st1 = inf.
Proof.
  destruct noisy_search_returns as (st & l & H).
  destruct (@accepted_coefficients_come_from_the_final_phase float _ _ _ _
              (rows Examples.X6) (column 0 (rows Examples.y_noisy)) 6 2 4 1 st l H)
    as (st1 & l1 & l2 & _ & _ & E1 & _ & _ & E2 & E3 & _).
  exists st, l, st1. auto.
Defined.

(** The theorem of X8 on 60000 rows of two coordinates and a pool whose
    first candidate is finite. *)
Lemma a_float_number_of_csteps_is_a_type_error_witness :
  pass (repeat [1; 1]%float (600 * 100)) (repeat 1%float (600 * 100))
    (600 * 100) 2 (300 * 100) 1 1 Cases.pooled_state
  = (Raise (TypeError "'numpy.float64' object cannot be interpreted as an integer"),
     []).
Proof.
  apply (@a_float_number_of_csteps_is_a_type_error float _ _ _ _
           (repeat [1; 1]%float (600 * 100)) (repeat 1%float (600 * 100))
           (600 * 100) 2 (300 * 100) 1 Cases.pooled_state
           (lit 2 6) (lit 3 3)).
  - vm_compute. reflexivity.
  - vm_compute. discriminate 1.
  - reflexivity.
  - vm_compute. reflexivity.
  - reflexivity.
  - vm_compute. reflexivity.
Defined.

(** The theorem of X12 on a pool whose second slot is empty: the third
    candidate is not refined. *)
Lemma final_phase_stops_at_the_first_empty_slot_witness :
  final_trials (rows Examples.X6) (column 0 (rows Examples.y_noisy))
    ([0] ++ 1 :: [2]) (Some 100) 4 Cases.pooled_state
  = final_trials (rows Examples.X6) (column 0 (rows Examples.y_noisy))
      [0] (Some 100) 4 Cases.pooled_state.
Proof.
  apply (@final_phase_stops_at_the_first_empty_slot float _ _ _
           (rows Examples.X6) (column 0 (rows Examples.y_noisy))
           (Some 100) 4 1 PrimFloat.infinity [2] [0] Cases.pooled_state).
  - reflexivity.
  - vm_compute. reflexivity.
Defined.
